(** * pdfconvrter: the layout calculator and the page assembler

    A shallow embedding of [src/utils/pdfGenerator] (the second half of
    [src/src/App.tsx]) and of [handleImageReorder] from the [App]
    component, together with the properties the specification states
    about them; then of the other handlers of [App] and of the handlers
    of [ImageUploader], [ImagePreview] and [ConversionSettings] that feed
    them, with properties read off the code.

    Number model.  Counters and modes ([imagesPerPage], [imageIndex],
    loop indices) are integers.  A JavaScript [number] that holds a
    length, a coordinate or a percentage is modelled twice.

    - Exactly, as a rational ([Q]): [calculateImageDimensions] and the
      page assembler built on it.  The rounding of IEEE doubles is left
      out, and a division whose divisor is zero has no value (JavaScript
      yields an infinity or NaN and carries on): the calculator runs in
      the [option] monad, and [None] stands for "a division by zero
      happened".  This model carries the statements that rounding does
      not touch: which images are drawn, on which page and in which slot,
      signs, and values that doubles represent exactly.

    - As a double ([Double.number]): a rational that every operation
      rounds to 53 significant bits, to nearest, ties to even, or an
      infinity, or NaN.  [Double.calculateImageDimensions] is the
      calculator over these numbers; it carries the statements about how
      close the rectangle is to its cell.  The exponent range is not
      bounded (no overflow to infinity, no subnormal numbers) and zero has
      no sign.  [Binary64.calculateImageDimensions] is the calculator over
      the binary64 numbers of the kernel, to run on given inputs;
      [Double] is measured against it. *)

From Stdlib Require Import ZArith QArith Qminmax Qround Qabs Qpower.
From Stdlib Require Import Lqa Lia String Ascii.
From Stdlib Require Import DecimalString.
From Stdlib Require Import Floats.
From stdpp Require Import base option list.

Local Open Scope Q_scope.

(** ** Numbers *)

(** [a / b] in the source; [None] when [b] is zero. *)
Definition qdiv (a b : Q) : option Q :=
  if Qeq_bool b 0 then None else Some (a / b).

Notation "a /? b" := (qdiv a b) (at level 40, no associativity) : Q_scope.

(** ** types/index.ts *)

(** [pageSize: 'A4' | 'Letter' | 'Legal'] *)
Inductive PageSizeName := A4 | Letter | Legal.

(** [orientation: 'portrait' | 'landscape'] *)
Inductive Orientation := portrait | landscape.

(** [quality: 'high' | 'medium' | 'low'] *)
Inductive Quality := high | medium | low.

Record PageSize := { width : Q; height : Q }.

Record ConversionOptions := {
  pageSize : PageSizeName;
  orientation : Orientation;
  margin : Q;
  quality : Quality;
  filename : string;
  imagesPerPage : Z
}.

(** ** utils/pdfGenerator: constants *)

Definition PAGE_SIZES (name : PageSizeName) : PageSize :=
  match name with
  | A4 => {| width := 595; height := 842 |}
  | Letter => {| width := 612; height := 792 |}
  | Legal => {| width := 612; height := 1008 |}
  end.

Definition QUALITY_SETTINGS (q : Quality) : Q :=
  match q with
  | high => 9 # 10
  | medium => 7 # 10
  | low => 5 # 10
  end.

(** ** utils/pdfGenerator: calculateImageDimensions *)

(** The returned object [{ scaledWidth, scaledHeight, x, y }]. *)
Module Placement.
Record t := mk { scaledWidth : Q; scaledHeight : Q; x : Q; y : Q }.
End Placement.

(** The column and the row of a slot in the 2 x 2 grid: [col] and [row]
    of the source, [imageIndex % 2] and
    [Math.floor(imageIndex / 2) % 2].  [%] keeps the sign of the dividend
    ([Z.rem]); [/] on [Z] rounds down. *)
Definition gridColumn (imageIndex : Z) : Z := Z.rem imageIndex 2.

Definition gridRow (imageIndex : Z) : Z := Z.rem (imageIndex / 2) 2.

(** Every [/] of the source is a [/?] here, in the source's order.  The
    final [else] repeats the first branch, as the source does. *)
Definition calculateImageDimensions
    (imgWidth imgHeight availableWidth availableHeight : Q)
    (imagesPerPage imageIndex : Z)
    (margin pageWidth pageHeight : Q) : option Placement.t :=
  if (imagesPerPage =? 1)%Z then
    rw ← availableWidth /? imgWidth;
    rh ← availableHeight /? imgHeight;
    let scale := Qmin rw rh in
    let scaledWidth := imgWidth * scale in
    let scaledHeight := imgHeight * scale in
    dx ← (availableWidth - scaledWidth) /? 2;
    dy ← (availableHeight - scaledHeight) /? 2;
    Some (Placement.mk scaledWidth scaledHeight (margin + dx) (margin + dy))
  else if (imagesPerPage =? 2)%Z then
    halfWidth ← availableWidth /? 2;
    let imageAreaWidth := halfWidth - 10 in
    rw ← imageAreaWidth /? imgWidth;
    rh ← availableHeight /? imgHeight;
    let scale := Qmin rw rh in
    let scaledWidth := imgWidth * scale in
    let scaledHeight := imgHeight * scale in
    colWidth ← availableWidth /? 2;
    dx ← (imageAreaWidth - scaledWidth) /? 2;
    dy ← (availableHeight - scaledHeight) /? 2;
    Some (Placement.mk scaledWidth scaledHeight
            (margin + inject_Z (gridColumn imageIndex) * colWidth + dx)
            (margin + dy))
  else if (imagesPerPage =? 4)%Z then
    halfWidth ← availableWidth /? 2;
    let imageAreaWidth := halfWidth - 10 in
    halfHeight ← availableHeight /? 2;
    let imageAreaHeight := halfHeight - 10 in
    rw ← imageAreaWidth /? imgWidth;
    rh ← imageAreaHeight /? imgHeight;
    let scale := Qmin rw rh in
    let scaledWidth := imgWidth * scale in
    let scaledHeight := imgHeight * scale in
    let col := gridColumn imageIndex in
    let row := gridRow imageIndex in
    colWidth ← availableWidth /? 2;
    dx ← (imageAreaWidth - scaledWidth) /? 2;
    rowHeight ← availableHeight /? 2;
    dy ← (imageAreaHeight - scaledHeight) /? 2;
    Some (Placement.mk scaledWidth scaledHeight
            (margin + inject_Z col * colWidth + dx)
            (margin + inject_Z row * rowHeight + dy))
  else
    rw ← availableWidth /? imgWidth;
    rh ← availableHeight /? imgHeight;
    let scale := Qmin rw rh in
    let scaledWidth := imgWidth * scale in
    let scaledHeight := imgHeight * scale in
    dx ← (availableWidth - scaledWidth) /? 2;
    dy ← (availableHeight - scaledHeight) /? 2;
    Some (Placement.mk scaledWidth scaledHeight (margin + dx) (margin + dy)).

(** ** Doubles *)

Module Double.

(** A JavaScript [number]: a finite value, [Infinity], [-Infinity] or
    [NaN]. *)
Inductive number := Finite (q : Q) | Infinity | NegInfinity | NaN.

(** The exponent of a positive rational: the [e] with
    [2 ^ e <= a < 2 ^ (e + 1)].  The difference of the bit lengths of
    numerator and denominator is [e] or [e + 1]. *)
Definition floorLog2 (a : Q) : Z :=
  let e := (Z.log2 (Qnum a) - Z.log2 (Zpos (Qden a)))%Z in
  if Qle_bool (2 ^ e) a then e else (e - 1)%Z.

(** The nearest integer, the even one of two that are equally near. *)
Definition roundHalfEven (y : Q) : Z :=
  let f := Qfloor y in
  match Qcompare (y - inject_Z f) (1 # 2) with
  | Lt => f
  | Gt => (f + 1)%Z
  | Eq => if Z.even f then f else (f + 1)%Z
  end.

(** A positive rational rounded to a significand of 53 bits. *)
Definition roundPositive (a : Q) : Q :=
  let k := (floorLog2 a - 52)%Z in
  Qred (inject_Z (roundHalfEven (a / 2 ^ k)) * 2 ^ k).

(** The double nearest to a rational: what an arithmetic operation
    returns for its exact result. *)
Definition round (x : Q) : Q :=
  match Qcompare x 0 with
  | Eq => 0
  | Gt => roundPositive x
  | Lt => - roundPositive (- x)
  end.

(** Half the distance from 1 to the next double, [2 ^ -53]: the largest
    relative error of one rounding. *)
Definition unitRoundoff : Q := 1 # 9007199254740992.

(** Two magnitudes far inside the exponent range of doubles, which ends
    at [2 ^ -1022] and [2 ^ 1024]: a few sums, products and quotients of
    numbers between them neither overflow nor underflow, and [round] is
    what the double operation does. *)
Definition tiny : Q := 2 ^ (-250).

Definition huge : Q := 2 ^ 250.

Definition inRange (x : Q) : Prop := tiny <= x <= huge.

Definition neg (a : number) : number :=
  match a with
  | Finite x => Finite (- x)
  | Infinity => NegInfinity
  | NegInfinity => Infinity
  | NaN => NaN
  end.

(** [a + b] *)
Definition add (a b : number) : number :=
  match a, b with
  | NaN, _ | _, NaN => NaN
  | Infinity, NegInfinity | NegInfinity, Infinity => NaN
  | Infinity, _ | _, Infinity => Infinity
  | NegInfinity, _ | _, NegInfinity => NegInfinity
  | Finite x, Finite y => Finite (round (x + y))
  end.

(** [a - b] *)
Definition sub (a b : number) : number := add a (neg b).

(** [a * b]; zero times an infinity is NaN. *)
Definition mul (a b : number) : number :=
  match a, b with
  | NaN, _ | _, NaN => NaN
  | Finite x, Finite y => Finite (round (x * y))
  | Finite x, Infinity | Infinity, Finite x =>
      match Qcompare x 0 with
      | Eq => NaN
      | Gt => Infinity
      | Lt => NegInfinity
      end
  | Finite x, NegInfinity | NegInfinity, Finite x =>
      match Qcompare x 0 with
      | Eq => NaN
      | Gt => NegInfinity
      | Lt => Infinity
      end
  | Infinity, Infinity | NegInfinity, NegInfinity => Infinity
  | Infinity, NegInfinity | NegInfinity, Infinity => NegInfinity
  end.

(** [a / b]; a finite value divided by zero (taken as [+0]) is an
    infinity of its sign, zero divided by zero is NaN. *)
Definition div (a b : number) : number :=
  match a, b with
  | NaN, _ | _, NaN => NaN
  | Finite x, Finite y =>
      match Qcompare y 0 with
      | Eq =>
          match Qcompare x 0 with
          | Eq => NaN
          | Gt => Infinity
          | Lt => NegInfinity
          end
      | _ => Finite (round (x / y))
      end
  | Finite _, _ => Finite 0
  | Infinity, Finite y =>
      match Qcompare y 0 with Lt => NegInfinity | _ => Infinity end
  | NegInfinity, Finite y =>
      match Qcompare y 0 with Lt => Infinity | _ => NegInfinity end
  | _, _ => NaN
  end.

(** [Math.min(a, b)]; NaN if either argument is. *)
Definition min (a b : number) : number :=
  match a, b with
  | NaN, _ | _, NaN => NaN
  | NegInfinity, _ | _, NegInfinity => NegInfinity
  | Infinity, c | c, Infinity => c
  | Finite x, Finite y => Finite (Qmin x y)
  end.

Declare Scope double_scope.
Delimit Scope double_scope with double.
Bind Scope double_scope with number.
Infix "+" := add : double_scope.
Infix "-" := sub : double_scope.
Infix "*" := mul : double_scope.
Infix "/" := div : double_scope.

(** The returned object [{ scaledWidth, scaledHeight, x, y }]. *)
Module Placement.
Record t := mk {
  scaledWidth : number; scaledHeight : number; x : number; y : number
}.
End Placement.

(** [imageAreaWidth] with two or four images per page, [availableWidth]
    otherwise: the width the image is fitted into. *)
Definition cellWidth (imagesPerPage : Z) (availableWidth : number) : number :=
  if ((imagesPerPage =? 2) || (imagesPerPage =? 4))%Z
  then (availableWidth / Finite 2 - Finite 10)%double
  else availableWidth.

(** [imageAreaHeight] with four images per page, [availableHeight]
    otherwise. *)
Definition cellHeight (imagesPerPage : Z) (availableHeight : number)
    : number :=
  if (imagesPerPage =? 4)%Z
  then (availableHeight / Finite 2 - Finite 10)%double
  else availableHeight.

(** The left edge of the cell: [margin], plus the column times
    [availableWidth / 2] with two or four images per page. *)
Definition cellLeft (imagesPerPage imageIndex : Z)
    (margin availableWidth : number) : number :=
  if ((imagesPerPage =? 2) || (imagesPerPage =? 4))%Z
  then (margin
        + Finite (inject_Z (gridColumn imageIndex))
          * (availableWidth / Finite 2))%double
  else margin.

(** The top edge of the cell: [margin], plus the row times
    [availableHeight / 2] with four images per page. *)
Definition cellTop (imagesPerPage imageIndex : Z)
    (margin availableHeight : number) : number :=
  if (imagesPerPage =? 4)%Z
  then (margin
        + Finite (inject_Z (gridRow imageIndex))
          * (availableHeight / Finite 2))%double
  else margin.

(** [calculateImageDimensions], every operation in the source's order.
    [col] and [row] are integers, which doubles hold exactly. *)
Definition calculateImageDimensions
    (imgWidth imgHeight availableWidth availableHeight : number)
    (imagesPerPage imageIndex : Z)
    (margin pageWidth pageHeight : number) : Placement.t :=
  (if (imagesPerPage =? 1)%Z then
     let scale :=
       min (availableWidth / imgWidth) (availableHeight / imgHeight) in
     let scaledWidth := imgWidth * scale in
     let scaledHeight := imgHeight * scale in
     Placement.mk scaledWidth scaledHeight
       (margin + (availableWidth - scaledWidth) / Finite 2)
       (margin + (availableHeight - scaledHeight) / Finite 2)
   else if (imagesPerPage =? 2)%Z then
     let imageAreaWidth := availableWidth / Finite 2 - Finite 10 in
     let scale :=
       min (imageAreaWidth / imgWidth) (availableHeight / imgHeight) in
     let scaledWidth := imgWidth * scale in
     let scaledHeight := imgHeight * scale in
     Placement.mk scaledWidth scaledHeight
       (margin
        + Finite (inject_Z (gridColumn imageIndex))
          * (availableWidth / Finite 2)
        + (imageAreaWidth - scaledWidth) / Finite 2)
       (margin + (availableHeight - scaledHeight) / Finite 2)
   else if (imagesPerPage =? 4)%Z then
     let imageAreaWidth := availableWidth / Finite 2 - Finite 10 in
     let imageAreaHeight := availableHeight / Finite 2 - Finite 10 in
     let scale :=
       min (imageAreaWidth / imgWidth) (imageAreaHeight / imgHeight) in
     let scaledWidth := imgWidth * scale in
     let scaledHeight := imgHeight * scale in
     let col := Finite (inject_Z (gridColumn imageIndex)) in
     let row := Finite (inject_Z (gridRow imageIndex)) in
     Placement.mk scaledWidth scaledHeight
       (margin + col * (availableWidth / Finite 2)
        + (imageAreaWidth - scaledWidth) / Finite 2)
       (margin + row * (availableHeight / Finite 2)
        + (imageAreaHeight - scaledHeight) / Finite 2)
   else
     let scale :=
       min (availableWidth / imgWidth) (availableHeight / imgHeight) in
     let scaledWidth := imgWidth * scale in
     let scaledHeight := imgHeight * scale in
     Placement.mk scaledWidth scaledHeight
       (margin + (availableWidth - scaledWidth) / Finite 2)
       (margin + (availableHeight - scaledHeight) / Finite 2))%double.

End Double.

(** ** Binary64

    The calculator over the binary64 numbers of the kernel: the
    arithmetic of the source itself, on given inputs. *)

Module Binary64.

(** [Math.min(a, b)]: NaN if either argument is, and [-0] below [+0]. *)
Definition min (a b : float) : float :=
  if PrimFloat.is_nan a then a
  else if PrimFloat.is_nan b then b
  else if PrimFloat.ltb a b then a
  else if PrimFloat.ltb b a then b
  else match PrimFloat.classify a with
       | NZero => a
       | _ => b
       end.

(** An integer as a double. *)
Definition ofZ (z : Z) : float :=
  if (z <? 0)%Z
  then PrimFloat.opp (PrimFloat.of_uint63 (Uint63.of_Z (- z)))
  else PrimFloat.of_uint63 (Uint63.of_Z z).

(** The returned object [{ scaledWidth, scaledHeight, x, y }]. *)
Module Placement.
Record t := mk {
  scaledWidth : float; scaledHeight : float; x : float; y : float
}.
End Placement.

Definition calculateImageDimensions
    (imgWidth imgHeight availableWidth availableHeight : float)
    (imagesPerPage imageIndex : Z)
    (margin pageWidth pageHeight : float) : Placement.t :=
  (if (imagesPerPage =? 1)%Z then
     let scale :=
       min (availableWidth / imgWidth) (availableHeight / imgHeight) in
     let scaledWidth := imgWidth * scale in
     let scaledHeight := imgHeight * scale in
     Placement.mk scaledWidth scaledHeight
       (margin + (availableWidth - scaledWidth) / 2)
       (margin + (availableHeight - scaledHeight) / 2)
   else if (imagesPerPage =? 2)%Z then
     let imageAreaWidth := availableWidth / 2 - 10 in
     let scale :=
       min (imageAreaWidth / imgWidth) (availableHeight / imgHeight) in
     let scaledWidth := imgWidth * scale in
     let scaledHeight := imgHeight * scale in
     Placement.mk scaledWidth scaledHeight
       (margin + ofZ (gridColumn imageIndex) * (availableWidth / 2)
        + (imageAreaWidth - scaledWidth) / 2)
       (margin + (availableHeight - scaledHeight) / 2)
   else if (imagesPerPage =? 4)%Z then
     let imageAreaWidth := availableWidth / 2 - 10 in
     let imageAreaHeight := availableHeight / 2 - 10 in
     let scale :=
       min (imageAreaWidth / imgWidth) (imageAreaHeight / imgHeight) in
     let scaledWidth := imgWidth * scale in
     let scaledHeight := imgHeight * scale in
     let col := ofZ (gridColumn imageIndex) in
     let row := ofZ (gridRow imageIndex) in
     Placement.mk scaledWidth scaledHeight
       (margin + col * (availableWidth / 2)
        + (imageAreaWidth - scaledWidth) / 2)
       (margin + row * (availableHeight / 2)
        + (imageAreaHeight - scaledHeight) / 2)
   else
     let scale :=
       min (availableWidth / imgWidth) (availableHeight / imgHeight) in
     let scaledWidth := imgWidth * scale in
     let scaledHeight := imgHeight * scale in
     Placement.mk scaledWidth scaledHeight
       (margin + (availableWidth - scaledWidth) / 2)
       (margin + (availableHeight - scaledHeight) / 2))%float.

(** The value of a binary64 number, as a [Double.number]. *)
Definition value (f : float) : Double.number :=
  match Prim2SF f with
  | S754_zero _ => Double.Finite 0
  | S754_infinity negative =>
      if negative then Double.NegInfinity else Double.Infinity
  | S754_nan => Double.NaN
  | S754_finite negative m e =>
      Double.Finite
        (Qred ((if negative then -1 else 1) * inject_Z (Zpos m) * 2 ^ e))
  end.

(** The same number in the two models. *)
Definition same (f : float) (d : Double.number) : bool :=
  match value f, d with
  | Double.Finite x, Double.Finite y => Qeq_bool x y
  | Double.Infinity, Double.Infinity
  | Double.NegInfinity, Double.NegInfinity
  | Double.NaN, Double.NaN => true
  | _, _ => false
  end.

(** The two calculators return the same rectangle for integer sizes,
    page dimensions and margin, with the available area that
    [generatePDF] passes. *)
Definition agree (imgWidth imgHeight pageWidth pageHeight margin : Z)
    (imagesPerPage imageIndex : Z) : bool :=
  let p :=
    calculateImageDimensions (ofZ imgWidth) (ofZ imgHeight)
      (ofZ pageWidth - ofZ margin * 2)%float
      (ofZ pageHeight - ofZ margin * 2)%float
      imagesPerPage imageIndex (ofZ margin) (ofZ pageWidth) (ofZ pageHeight) in
  let number (z : Z) := Double.Finite (inject_Z z) in
  let q :=
    Double.calculateImageDimensions (number imgWidth) (number imgHeight)
      (Double.sub (number pageWidth)
         (Double.mul (number margin) (Double.Finite 2)))
      (Double.sub (number pageHeight)
         (Double.mul (number margin) (Double.Finite 2)))
      imagesPerPage imageIndex (number margin) (number pageWidth)
      (number pageHeight) in
  same (Placement.scaledWidth p) (Double.Placement.scaledWidth q)
  && same (Placement.scaledHeight p) (Double.Placement.scaledHeight q)
  && same (Placement.x p) (Double.Placement.x q)
  && same (Placement.y p) (Double.Placement.y q).

(** A grid of inputs: sizes with and without a zero, the page sizes in
    both orientations, margins of the settings form and beyond it, and
    every slot of every mode. *)
Definition grid : list (Z * Z * (Z * Z) * Z * (Z * Z)) :=
  w ← [0; 3; 400; 800; 4032]%Z;
  h ← [0; 7; 300; 1180]%Z;
  page ← [(595, 842); (842, 595); (612, 1008)]%Z;
  m ← [0; 20; 33; 290]%Z;
  slot ← [(1, 0); (2, 0); (2, 1); (4, 0); (4, 1); (4, 2); (4, 3); (3, 0)]%Z;
  [(w, h, page, m, slot)].

End Binary64.

(** ** utils/pdfGenerator: generatePDF *)

(** [String.prototype.includes]. *)
Fixpoint includes (needle s : string) : bool :=
  String.prefix needle s ||
  match s with
  | EmptyString => false
  | String _ rest => includes needle rest
  end.

Definition ArrayBuffer := list Byte.byte.

(** The browser's [File]: its declared media type and its contents. *)
Record File := { type : string; contents : ArrayBuffer }.

Record ImageFile := {
  id : Z;
  file : File;
  url : string;
  name : string;
  size : Z
}.

(** The options object handed to [page.drawImage]. *)
Module DrawOptions.
Record t := mk { x : Q; y : Q; width : Q; height : Q }.
End DrawOptions.

Section Assembler.

(** What the assembler asks of the browser and of pdf-lib.  Each call
    that can throw or reject returns [None] when it does. *)
Context {Canvas PDFImage : Type}.
Variable fileToArrayBuffer : File -> option ArrayBuffer.
Variable imageToCanvas : File -> option Canvas.
Variable canvasToJpeg : Canvas -> Q -> option ArrayBuffer.
Variable embedPng : ArrayBuffer -> option PDFImage.
Variable embedJpg : ArrayBuffer -> option PDFImage.
(** [embeddedImage.scale(1)] *)
Variable scale1 : PDFImage -> PageSize.

(** One [drawImage] call: the embedded image and the rectangle it was
    given ([None] when computing it divided by zero). *)
Record Drawing := {
  drawnImage : PDFImage;
  drawnAt : option DrawOptions.t
}.

(** A page is the list of the draw calls made on it. *)
Local Abbreviation Page := (list Drawing).

(** The mutable variables of [generatePDF].  [currentPage] is a
    reference into [pdfDoc]: the index of the page it points to.
    [emitted] lists the arguments [onProgress] was called with. *)
Record State := {
  pdfDoc : list Page;
  currentPage : nat;
  imagesOnCurrentPage : nat;
  emitted : list Q
}.

(** [pdfDoc.addPage([pageWidth, pageHeight])], assigned to
    [currentPage]. *)
Definition addPage (st : State) : State :=
  {| pdfDoc := pdfDoc st ++ [[]];
     currentPage := length (pdfDoc st);
     imagesOnCurrentPage := imagesOnCurrentPage st;
     emitted := emitted st |}.

(** [currentPage.drawImage(embeddedImage, {...})] *)
Definition drawImage (d : Drawing) (st : State) : State :=
  {| pdfDoc := alter (fun page => page ++ [d]) (currentPage st) (pdfDoc st);
     currentPage := currentPage st;
     imagesOnCurrentPage := imagesOnCurrentPage st;
     emitted := emitted st |}.

Definition setImagesOnCurrentPage (k : nat) (st : State) : State :=
  {| pdfDoc := pdfDoc st;
     currentPage := currentPage st;
     imagesOnCurrentPage := k;
     emitted := emitted st |}.

(** [if (onProgress) onProgress(p)] *)
Definition reportProgress (onProgress : bool) (p : Q) (st : State) : State :=
  if onProgress then
    {| pdfDoc := pdfDoc st;
       currentPage := currentPage st;
       imagesOnCurrentPage := imagesOnCurrentPage st;
       emitted := emitted st ++ [p] |}
  else st.

(** Page width and height, swapped for landscape. *)
Definition pageDimensions (options : ConversionOptions) : PageSize :=
  let pageSize := PAGE_SIZES (pageSize options) in
  match orientation options with
  | landscape => {| width := height pageSize; height := width pageSize |}
  | portrait => pageSize
  end.

(** The head of the [try] block: from the file to [embeddedImage]. *)
Definition embedImage (image : ImageFile) (options : ConversionOptions)
    : option PDFImage :=
  imageBytes ← fileToArrayBuffer (file image);
  if includes "png" (type (file image)) then
    embedPng imageBytes
  else if includes "jpg" (type (file image))
          || includes "jpeg" (type (file image)) then
    embedJpg imageBytes
  else
    canvas ← imageToCanvas (file image);
    jpegBytes ← canvasToJpeg canvas (QUALITY_SETTINGS (quality options));
    embedJpg jpegBytes.

(** [(i / images.length) * 100], the value reported before the image at
    index [i].  The divisor is not zero inside the loop. *)
Definition progressAt (total i : nat) : Q :=
  inject_Z (Z.of_nat i) / inject_Z (Z.of_nat total) * 100.

(** The rectangle of the draw call, with the y coordinate flipped. *)
Definition flipY (pageHeight : Q) (p : Placement.t) : DrawOptions.t :=
  DrawOptions.mk (Placement.x p)
                 (pageHeight - Placement.y p - Placement.scaledHeight p)
                 (Placement.scaledWidth p)
                 (Placement.scaledHeight p).

(** The body of the [for] loop at index [i] of [total] images.  The
    [catch] is the [None] case of [embedImage].  The last call of the
    [try], [currentPage.drawImage], throws too when a number of its
    rectangle is NaN; that takes an embedded image with an intrinsic
    dimension of zero and is not modelled.  A statement that depends on
    it has [drawable] (below) as a hypothesis. *)
Definition processImage (options : ConversionOptions) (onProgress : bool)
    (total i : nat) (image : ImageFile) (st : State) : State :=
  let pageWidth := width (pageDimensions options) in
  let pageHeight := height (pageDimensions options) in
  let margin := margin options in
  let availableWidth := pageWidth - margin * 2 in
  let availableHeight := pageHeight - margin * 2 in
  let st :=
    reportProgress onProgress (progressAt total i) st in
  match embedImage image options with
  | Some embeddedImage =>
      let imgWidth := width (scale1 embeddedImage) in
      let imgHeight := height (scale1 embeddedImage) in
      let placement :=
        calculateImageDimensions imgWidth imgHeight
          availableWidth availableHeight
          (imagesPerPage options) (Z.of_nat (imagesOnCurrentPage st))
          margin pageWidth pageHeight in
      let st :=
        drawImage {| drawnImage := embeddedImage;
                     drawnAt := flipY pageHeight <$> placement |} st in
      let st := setImagesOnCurrentPage (S (imagesOnCurrentPage st)) st in
      if (imagesPerPage options <=? Z.of_nat (imagesOnCurrentPage st))%Z
         && (i <? total - 1)%nat
      then setImagesOnCurrentPage 0 (addPage st)
      else st
  | None => st
  end.

(** The [for] loop, from index [i] on. *)
Fixpoint processImages (options : ConversionOptions) (onProgress : bool)
    (total i : nat) (images : list ImageFile) (st : State) : State :=
  match images with
  | [] => st
  | image :: rest =>
      processImages options onProgress total (S i) rest
        (processImage options onProgress total i image st)
  end.

(** The state after [let currentPage = pdfDoc.addPage(...)] and
    [let imagesOnCurrentPage = 0]. *)
Definition initialState : State :=
  addPage {| pdfDoc := []; currentPage := 0;
             imagesOnCurrentPage := 0; emitted := [] |}.

(** [generatePDF]: the document that [pdfDoc.save()] serialises, with
    the progress values reported on the way. *)
Definition generatePDF (images : list ImageFile)
    (options : ConversionOptions) (onProgress : bool) : State :=
  reportProgress onProgress 100
    (processImages options onProgress (length images) 0 images
       initialState).

(** *** Vocabulary of the statements about [generatePDF] *)

(** The draw call that [processImage] makes for [embeddedImage] when the
    slot counter is [slot]. *)
Definition drawingAt (options : ConversionOptions) (embeddedImage : PDFImage)
    (slot : nat) : Drawing :=
  let pageWidth := width (pageDimensions options) in
  let pageHeight := height (pageDimensions options) in
  let margin := margin options in
  {| drawnImage := embeddedImage;
     drawnAt :=
       flipY pageHeight <$>
         calculateImageDimensions
           (width (scale1 embeddedImage)) (height (scale1 embeddedImage))
           (pageWidth - margin * 2) (pageHeight - margin * 2)
           (imagesPerPage options) (Z.of_nat slot)
           margin pageWidth pageHeight |}.

(** Every drawing of the page is the draw call of its position. *)
Definition slotsInOrder (options : ConversionOptions) (page : Page) : Prop :=
  forall (slot : nat) (d : Drawing),
    page !! slot = Some d -> d = drawingAt options (drawnImage d) slot.

(** [currentPage] points to the last page of the document: the pages
    before it are [closed], its drawings are [current]. *)
Definition lastPage (st : State) (closed : list Page) (current : Page)
    : Prop :=
  pdfDoc st = closed ++ [current] /\ currentPage st = length closed.

(** The embedded image is at least one pixel wide and one pixel high. *)
Definition hasPixels (embeddedImage : PDFImage) : Prop :=
  1 <= width (scale1 embeddedImage) /\
  1 <= height (scale1 embeddedImage).

(** What keeps NaN out of the rectangles of a run, so that [drawImage]
    takes them: the images of the list that embed have pixels (the
    calculator divides by their width and height, and zero by zero is
    NaN), and the margin is far from where doubles overflow (the
    difference of two infinities is NaN).  See
    [Double_calculateImageDimensions_Finite] and
    [Double_calculateImageDimensions_NaN]. *)
Definition drawable (options : ConversionOptions)
    (images : list ImageFile) : Prop :=
  Qabs (margin options) <= Double.huge /\
  forall image embeddedImage,
    image ∈ images -> embedImage image options = Some embeddedImage ->
    hasPixels embeddedImage.

End Assembler.

(** ** App: handleImageReorder *)

Section Reorder.

Context {A : Type}.
(** What [prev[dragIndex]] reads out of range. *)
Variable undefined : A.

(** [arr.splice(start, 1)]: out of range, nothing is removed. *)
Definition splice_remove (start : nat) (arr : list A) : list A :=
  delete start arr.

(** [arr.splice(start, 0, item)]: out of range, [item] is appended. *)
Definition splice_insert (start : nat) (item : A) (arr : list A) : list A :=
  take start arr ++ item :: drop start arr.

(** The updater handed to [setImages]. *)
Definition handleImageReorder (dragIndex hoverIndex : nat) (prev : list A)
    : list A :=
  let draggedImage := nth dragIndex prev undefined in
  let newImages := prev in
  let newImages := splice_remove dragIndex newImages in
  let newImages := splice_insert hoverIndex draggedImage newImages in
  newImages.

End Reorder.

(** ** components/ImagePreview: the drag refs *)

Module ImagePreview.

(** [dragItem.current] and [dragOverItem.current]; [None] is [null]. *)
Record Refs := { dragItem : option nat; dragOverItem : option nat }.

Definition initialRefs : Refs := {| dragItem := None; dragOverItem := None |}.

Definition handleDragStart (index : nat) (refs : Refs) : Refs :=
  {| dragItem := Some index; dragOverItem := dragOverItem refs |}.

Definition handleDragEnter (index : nat) (refs : Refs) : Refs :=
  {| dragItem := dragItem refs; dragOverItem := Some index |}.

(** [handleDragEnd]: the arguments of the [onImageReorder] call, if it
    is made, and the refs afterwards. *)
Definition handleDragEnd (refs : Refs) : option (nat * nat) * Refs :=
  (match dragItem refs, dragOverItem refs with
   | Some dragIndex, Some hoverIndex =>
       if negb (dragIndex =? hoverIndex)%nat
       then Some (dragIndex, hoverIndex)
       else None
   | _, _ => None
   end,
   initialRefs).

End ImagePreview.

(** ** App: the component state and its handlers *)

(** A number in a template string. *)
Definition show (n : nat) : string := NilZero.string_of_uint (Nat.to_uint n).

(** [file.size]: the number of bytes of the file. *)
Definition fileSize (file : File) : Z := Z.of_nat (length (contents file)).

(** The filter of [handleImagesUpload]. *)
Definition isValidFile (file : File) : bool :=
  let isValidType := String.prefix "image/" (type file) in
  let isValidSize := (fileSize file <=? 10 * 1024 * 1024)%Z in
  isValidType && isValidSize.

Module App.

(** What the anchor click saves. *)
Record Download := { downloadName : string; downloadBytes : ArrayBuffer }.

(** The [useState] cells of [App], and what it did to the browser:
    [revoked] lists the arguments of the [URL.revokeObjectURL] calls and
    [downloads] the files saved, oldest first. *)
Record State := {
  images : list ImageFile;
  isConverting : bool;
  conversionProgress : Q;
  error : option string;
  success : option string;
  revoked : list string;
  downloads : list Download
}.

Definition initialState : State :=
  {| images := []; isConverting := false; conversionProgress := 0;
     error := None; success := None; revoked := []; downloads := [] |}.

Definition setImages (v : list ImageFile) (st : State) : State :=
  {| images := v; isConverting := isConverting st;
     conversionProgress := conversionProgress st; error := error st;
     success := success st; revoked := revoked st;
     downloads := downloads st |}.

Definition setIsConverting (v : bool) (st : State) : State :=
  {| images := images st; isConverting := v;
     conversionProgress := conversionProgress st; error := error st;
     success := success st; revoked := revoked st;
     downloads := downloads st |}.

Definition setConversionProgress (v : Q) (st : State) : State :=
  {| images := images st; isConverting := isConverting st;
     conversionProgress := v; error := error st;
     success := success st; revoked := revoked st;
     downloads := downloads st |}.

Definition setError (v : option string) (st : State) : State :=
  {| images := images st; isConverting := isConverting st;
     conversionProgress := conversionProgress st; error := v;
     success := success st; revoked := revoked st;
     downloads := downloads st |}.

Definition setSuccess (v : option string) (st : State) : State :=
  {| images := images st; isConverting := isConverting st;
     conversionProgress := conversionProgress st; error := error st;
     success := v; revoked := revoked st;
     downloads := downloads st |}.

(** [URL.revokeObjectURL(url)] *)
Definition revokeObjectURL (u : string) (st : State) : State :=
  {| images := images st; isConverting := isConverting st;
     conversionProgress := conversionProgress st; error := error st;
     success := success st; revoked := revoked st ++ [u];
     downloads := downloads st |}.

(** The anchor click. *)
Definition saveFile (d : Download) (st : State) : State :=
  {| images := images st; isConverting := isConverting st;
     conversionProgress := conversionProgress st; error := error st;
     success := success st; revoked := revoked st;
     downloads := downloads st ++ [d] |}.

Section Handlers.

(** The browser: [file.name], which [File] here does not carry, and
    [URL.createObjectURL]. *)
Variable fileName : File -> string.
Variable createObjectURL : File -> string.
(** What [prev[dragIndex]] reads out of range. *)
Variable undefined : ImageFile.

(** [handleImagesUpload(files)].  [now index] is what [Date.now()]
    returns when the image at [index] of the valid files is built.  The
    handler runs on the state it was rendered with. *)
Definition handleImagesUpload (now : nat -> Z) (files : list File)
    (st : State) : State :=
  let st := setError None st in
  let st := setSuccess None st in
  if (500 <? length (images st) + length files)%nat then
    setError
      (Some ("Maximum 500 images allowed. You're trying to add "
             ++ show (length files) ++ " more to "
             ++ show (length (images st)) ++ " existing images.")%string)
      st
  else
    let validFiles := List.filter isValidFile files in
    let st :=
      if negb (length validFiles =? length files)%nat
      then setError
             (Some "Some files were skipped. Only image files under 10MB are allowed."%string)
             st
      else st in
    let newImages :=
      imap (fun index file =>
              {| id := now index + Z.of_nat index;
                 file := file;
                 url := createObjectURL file;
                 name := fileName file;
                 size := fileSize file |})
           validFiles in
    let st := setImages (images st ++ newImages) st in
    if (0 <? length validFiles)%nat then
      setSuccess
        (Some ("Successfully added " ++ show (length validFiles) ++ " image"
               ++ (if (1 <? length validFiles)%nat then "s" else ""))%string)
        st
    else st.

(** [handleImageRemove(id)] *)
Definition handleImageRemove (idToRemove : Z) (st : State) : State :=
  let prev := images st in
  let imageToRemove :=
    List.find (fun img => (id img =? idToRemove)%Z) prev in
  let st :=
    match imageToRemove with
    | Some img => revokeObjectURL (url img) st
    | None => st
    end in
  setImages (List.filter (fun img => negb (id img =? idToRemove)%Z) prev) st.

(** [handleImageReorder(dragIndex, hoverIndex)] on the state. *)
Definition handleImageReorder (dragIndex hoverIndex : nat) (st : State)
    : State :=
  setImages (handleImageReorder undefined dragIndex hoverIndex (images st))
    st.

(** [handleClearAll()] *)
Definition handleClearAll (st : State) : State :=
  let st := foldl (fun st image => revokeObjectURL (url image) st) st
              (images st) in
  let st := setImages [] st in
  let st := setError None st in
  setSuccess (Some "All images cleared"%string) st.

(** [ImagePreview]'s [handleDragEnd], wired to [handleImageReorder]. *)
Definition handleDragEnd (refs : ImagePreview.Refs) (st : State)
    : ImagePreview.Refs * State :=
  match ImagePreview.handleDragEnd refs with
  | (Some (dragIndex, hoverIndex), refs') =>
      (refs', handleImageReorder dragIndex hoverIndex st)
  | (None, refs') => (refs', st)
  end.

(** [ImageUploader]'s [handleFileChange], wired to
    [handleImagesUpload]. *)
Definition handleFileChange (now : nat -> Z) (files : list File)
    (st : State) : State :=
  if (0 <? length files)%nat then handleImagesUpload now files st else st.

(** [ImageUploader]'s [handleDrop]. *)
Definition handleDrop (now : nat -> Z) (files : list File) (st : State)
    : State :=
  let imageFiles :=
    List.filter (fun file => String.prefix "image/" (type file)) files in
  if (0 <? length imageFiles)%nat
  then handleImagesUpload now imageFiles st
  else st.

(** [handleConvertToPDF(options)], with [generatePDF] run in it.
    [save] is [pdfDoc.save()]: [None] when the run throws.  [blobURL] is
    the object URL made for the bytes. *)
Context {Canvas PDFImage : Type}.
Variable fileToArrayBuffer : File -> option ArrayBuffer.
Variable imageToCanvas : File -> option Canvas.
Variable canvasToJpeg : Canvas -> Q -> option ArrayBuffer.
Variable embedPng : ArrayBuffer -> option PDFImage.
Variable embedJpg : ArrayBuffer -> option PDFImage.
Variable scale1 : PDFImage -> PageSize.
Variable save : list (list (@Drawing PDFImage)) -> option ArrayBuffer.
Variable blobURL : ArrayBuffer -> string.

Definition handleConvertToPDF (options : ConversionOptions) (st : State)
    : State :=
  if (length (images st) =? 0)%nat then
    setError (Some "Please upload at least one image"%string) st
  else
    let st := setIsConverting true st in
    let st := setConversionProgress 0 st in
    let st := setError None st in
    let st := setSuccess None st in
    let run :=
      generatePDF fileToArrayBuffer imageToCanvas canvasToJpeg embedPng
        embedJpg scale1 (images st) options true in
    let st :=
      foldl (fun st progress => setConversionProgress progress st) st
        (emitted run) in
    let st :=
      match save (pdfDoc run) with
      | Some pdfBytes =>
          let st :=
            saveFile
              {| downloadName :=
                   if String.eqb (filename options) ""
                   then "images-converted.pdf"
                   else filename options;
                 downloadBytes := pdfBytes |} st in
          let st := revokeObjectURL (blobURL pdfBytes) st in
          setSuccess
            (Some ("PDF generated successfully! "
                   ++ show (length (images st)) ++ " images converted.")%string)
            st
      | None =>
          setError (Some "Failed to generate PDF. Please try again."%string) st
      end in
    let st := setIsConverting false st in
    setConversionProgress 0 st.

End Handlers.

(** What the import promises the assembler: at most 500 images, each
    from a file that passed the filter of [handleImagesUpload]. *)
Definition wellFormed (st : State) : Prop :=
  (length (images st) <= 500)%nat /\
  Forall (fun image => isValidFile (file image) = true) (images st).

End App.

(** ** The cell of a slot *)

(** The width the image is fitted into: [availableWidth] with one image
    per page, [imageAreaWidth] with two or four. *)
Definition cellWidth (imagesPerPage : Z) (availableWidth : Q) : Q :=
  if (imagesPerPage =? 2)%Z || (imagesPerPage =? 4)%Z
  then availableWidth / 2 - 10
  else availableWidth.

(** The height the image is fitted into: [imageAreaHeight] with four
    images per page, [availableHeight] otherwise. *)
Definition cellHeight (imagesPerPage : Z) (availableHeight : Q) : Q :=
  if (imagesPerPage =? 4)%Z
  then availableHeight / 2 - 10
  else availableHeight.

(** The left edge of the cell: [margin], moved right by the column times
    [availableWidth / 2] with two or four images per page. *)
Definition cellLeft (imagesPerPage imageIndex : Z) (margin availableWidth : Q)
    : Q :=
  if (imagesPerPage =? 2)%Z || (imagesPerPage =? 4)%Z
  then margin + inject_Z (gridColumn imageIndex) * (availableWidth / 2)
  else margin.

(** The top edge of the cell: [margin], moved down by the row times
    [availableHeight / 2] with four images per page. *)
Definition cellTop (imagesPerPage imageIndex : Z) (margin availableHeight : Q)
    : Q :=
  if (imagesPerPage =? 4)%Z
  then margin + inject_Z (gridRow imageIndex) * (availableHeight / 2)
  else margin.

(** ** components/ConversionSettings *)

(** The page count shown under "PDF Info":
    [Math.ceil(imageCount / options.imagesPerPage)]. *)
Definition displayedPages (imageCount : nat) (options : ConversionOptions)
    : Z :=
  Qceiling (inject_Z (Z.of_nat imageCount)
            / inject_Z (imagesPerPage options)).

(** The options of the A4 scenario. *)
Definition scenarioA4 : ConversionOptions :=
  {| pageSize := A4; orientation := portrait; margin := 20;
     quality := high; filename := "images-converted.pdf";
     imagesPerPage := 1 |}.

(** ** A small environment to run the assembler in

    Files of three bytes: a format byte (["P"] for PNG, ["J"] for JPEG),
    the width and the height.  Embedding checks the format byte; anything
    shorter or of the other format is rejected. *)

Module Toy.

Record Image := { encoded : ArrayBuffer; intrinsic : PageSize }.

Definition byteQ (b : Byte.byte) : Q := inject_Z (Z.of_N (Byte.to_N b)).

Definition decode (format : Byte.byte) (data : ArrayBuffer) : option Image :=
  match data with
  | f :: w :: h :: _ =>
      if Byte.eqb f format
      then Some {| encoded := data;
                   intrinsic := {| width := byteQ w; height := byteQ h |} |}
      else None
  | _ => None
  end.

Definition fileToArrayBuffer (f : File) : option ArrayBuffer :=
  Some (contents f).

Definition embedPng : ArrayBuffer -> option Image := decode Byte.x50.

Definition embedJpg : ArrayBuffer -> option Image := decode Byte.x4a.

Definition imageToCanvas (f : File) : option (Byte.byte * Byte.byte) :=
  match contents f with
  | _ :: w :: h :: _ => Some (w, h)
  | _ => None
  end.

Definition canvasToJpeg (canvas : Byte.byte * Byte.byte) (quality : Q)
    : option ArrayBuffer :=
  Some [Byte.x4a; fst canvas; snd canvas].

(** [generatePDF] and [embedImage] in this environment. *)
Definition generate :=
  generatePDF fileToArrayBuffer imageToCanvas canvasToJpeg embedPng embedJpg
    intrinsic.

Definition embed :=
  embedImage fileToArrayBuffer imageToCanvas canvasToJpeg embedPng embedJpg.

(** A 40 x 30 PNG, a PNG with no bytes, a 40 x 30 JPEG. *)
Definition validA : ImageFile :=
  {| id := 1;
     file := {| type := "image/png";
                contents := [Byte.x50; Byte.x28; Byte.x1e] |};
     url := "blob:a"; name := "validA.png"; size := 3 |}.

Definition corruptB : ImageFile :=
  {| id := 2;
     file := {| type := "image/png"; contents := [] |};
     url := "blob:b"; name := "corruptB"; size := 0 |}.

Definition validC : ImageFile :=
  {| id := 3;
     file := {| type := "image/jpeg";
                contents := [Byte.x4a; Byte.x28; Byte.x1e] |};
     url := "blob:c"; name := "validC.jpg"; size := 3 |}.

(** A 40 x 30 GIF: neither PNG nor JPEG by its media type. *)
Definition validD : ImageFile :=
  {| id := 4;
     file := {| type := "image/gif";
                contents := [Byte.x47; Byte.x28; Byte.x1e] |};
     url := "blob:d"; name := "validD.gif"; size := 3 |}.

Definition options (imagesPerPage : Z) : ConversionOptions :=
  {| pageSize := A4; orientation := portrait; margin := 20;
     quality := high; filename := "images-converted.pdf";
     imagesPerPage := imagesPerPage |}.

(** The rest of the browser, for the component state. *)
Definition fileName (f : File) : string := "picture".

Definition createObjectURL (f : File) : string :=
  ("blob:" ++ type f)%string.

Definition undefined : ImageFile :=
  {| id := 0;
     file := {| type := ""; contents := [] |};
     url := ""; name := ""; size := 0 |}.

(** A clock that stands still at 1000 during an upload. *)
Definition clock (index : nat) : Z := 1000.

Definition save (doc : list (list (@Drawing Image))) : option ArrayBuffer :=
  Some [Byte.x25; Byte.x50; Byte.x44; Byte.x46].

Definition blobURL (pdfBytes : ArrayBuffer) : string := "blob:pdf".

(** A text file, which the import filter rejects. *)
Definition notes : File :=
  {| type := "text/plain"; contents := [Byte.x68; Byte.x69] |}.

(** The state after importing [validA] and [validC] by hand. *)
Definition twoImages : App.State :=
  App.setImages [validA; validC] App.initialState.

End Toy.

(** * Properties *)

(** ** Division *)

Lemma qdiv_Some (a b : Q) : ~ b == 0 -> a /? b = Some (a / b).
Proof.
  intros Hb. unfold qdiv.
  destruct (Qeq_bool b 0) eqn:E; [|reflexivity].
  apply Qeq_bool_iff in E. contradiction.
Qed.

Lemma qdiv_2 (a : Q) : a /? 2 = Some (a / 2).
Proof. reflexivity. Qed.

Lemma qdiv_None (a b : Q) : b == 0 -> a /? b = None.
Proof.
  intros Hb. unfold qdiv.
  apply Qeq_bool_iff in Hb. now rewrite Hb.
Qed.

(** ** The fit rule: scale by the smaller of the two axis ratios *)

Section Fit.

Variables imgWidth imgHeight cellWidth cellHeight : Q.
Hypothesis imgWidth_pos : 0 < imgWidth.
Hypothesis imgHeight_pos : 0 < imgHeight.

Local Abbreviation scale :=
  (Qmin (cellWidth / imgWidth) (cellHeight / imgHeight)).

Lemma fit_width : imgWidth * scale <= cellWidth.
Proof.
  assert (Hs : scale <= cellWidth / imgWidth) by apply Q.le_min_l.
  assert (He : imgWidth * (cellWidth / imgWidth) == cellWidth)
    by (field; lra).
  apply Qle_trans with (imgWidth * (cellWidth / imgWidth));
    [apply Qmult_le_l; assumption | rewrite He; apply Qle_refl].
Qed.

Lemma fit_height : imgHeight * scale <= cellHeight.
Proof.
  assert (Hs : scale <= cellHeight / imgHeight) by apply Q.le_min_r.
  assert (He : imgHeight * (cellHeight / imgHeight) == cellHeight)
    by (field; lra).
  apply Qle_trans with (imgHeight * (cellHeight / imgHeight));
    [apply Qmult_le_l; assumption | rewrite He; apply Qle_refl].
Qed.

Lemma fit_scale_pos : 0 < cellWidth -> 0 < cellHeight -> 0 < scale.
Proof.
  intros Hw Hh. apply Q.min_glb_lt.
  - apply Qlt_shift_div_l; lra.
  - apply Qlt_shift_div_l; lra.
Qed.

Lemma fit_aspect :
  0 < cellWidth -> 0 < cellHeight ->
  imgWidth * scale / (imgHeight * scale) == imgWidth / imgHeight.
Proof.
  intros Hw Hh. pose proof (fit_scale_pos Hw Hh) as Hs.
  field. split; lra.
Qed.

Lemma fit_scale_nonpos : cellWidth <= 0 \/ cellHeight <= 0 -> scale <= 0.
Proof.
  intros [Hw | Hh].
  - apply Qle_trans with (cellWidth / imgWidth); [apply Q.le_min_l|].
    apply Qle_shift_div_r; lra.
  - apply Qle_trans with (cellHeight / imgHeight); [apply Q.le_min_r|].
    apply Qle_shift_div_r; lra.
Qed.

Lemma fit_degenerate :
  cellWidth <= 0 \/ cellHeight <= 0 ->
  imgWidth * scale <= 0 /\ imgHeight * scale <= 0.
Proof.
  intros H. pose proof (fit_scale_nonpos H) as Hs. split.
  - assert (imgWidth * scale <= imgWidth * 0)
      by (apply Qmult_le_l; assumption).
    lra.
  - assert (imgHeight * scale <= imgHeight * 0)
      by (apply Qmult_le_l; assumption).
    lra.
Qed.

End Fit.

(** What the calculator returns when no divisor is zero: the image
    scaled by the smaller axis ratio of its cell. *)
Lemma calculateImageDimensions_Some
    (imgWidth imgHeight availableWidth availableHeight : Q)
    (imagesPerPage imageIndex : Z) (margin pageWidth pageHeight : Q) :
  ~ imgWidth == 0 -> ~ imgHeight == 0 ->
  exists p,
    calculateImageDimensions imgWidth imgHeight availableWidth
      availableHeight imagesPerPage imageIndex margin pageWidth pageHeight
    = Some p /\
    let scale := Qmin (cellWidth imagesPerPage availableWidth / imgWidth)
                      (cellHeight imagesPerPage availableHeight / imgHeight) in
    Placement.scaledWidth p = imgWidth * scale /\
    Placement.scaledHeight p = imgHeight * scale.
Proof.
  intros Hw Hh. unfold calculateImageDimensions, cellWidth, cellHeight.
  destruct (imagesPerPage =? 1)%Z eqn:E1;
    [apply Z.eqb_eq in E1; subst imagesPerPage|];
    [|destruct (imagesPerPage =? 2)%Z eqn:E2;
      [apply Z.eqb_eq in E2; subst imagesPerPage|]];
    [| |destruct (imagesPerPage =? 4)%Z eqn:E4;
      [apply Z.eqb_eq in E4; subst imagesPerPage|]];
    rewrite ?qdiv_2; cbn [mbind option_bind orb Z.eqb Pos.eqb];
    rewrite !(qdiv_Some _ _ Hw), !(qdiv_Some _ _ Hh);
    cbn [mbind option_bind]; rewrite ?qdiv_2; cbn [mbind option_bind];
    eexists; (split; [reflexivity|]); cbn; split; reflexivity.
Qed.

(** ** The layout calculator *)

(** A zero intrinsic width is a division by zero in every mode. *)
Lemma calculateImageDimensions_zero_width
    (imgWidth imgHeight availableWidth availableHeight : Q)
    (imagesPerPage imageIndex : Z) (margin pageWidth pageHeight : Q) :
  imgWidth == 0 ->
  calculateImageDimensions imgWidth imgHeight availableWidth
    availableHeight imagesPerPage imageIndex margin pageWidth pageHeight
  = None.
Proof.
  intros Hw. unfold calculateImageDimensions.
  repeat destruct (_ =? _)%Z;
    rewrite ?qdiv_2; cbn [mbind option_bind];
    rewrite (qdiv_None _ _ Hw); reflexivity.
Qed.

(** In exact arithmetic: for positive intrinsic dimensions and a cell of
    positive width and height, in each of the modes 1, 2 and 4 the
    rectangle is no wider and no higher than the cell, and its width to
    height ratio is that of the image.  (In doubles each of the three
    holds up to rounding only; see the calculator in doubles below.) *)
Lemma calculateImageDimensions_fits_cell
    (imgWidth imgHeight availableWidth availableHeight : Q)
    (imagesPerPage imageIndex : Z) (margin pageWidth pageHeight : Q) :
  0 < imgWidth -> 0 < imgHeight ->
  (imagesPerPage = 1 \/ imagesPerPage = 2 \/ imagesPerPage = 4)%Z ->
  0 < cellWidth imagesPerPage availableWidth ->
  0 < cellHeight imagesPerPage availableHeight ->
  exists p,
    calculateImageDimensions imgWidth imgHeight availableWidth
      availableHeight imagesPerPage imageIndex margin pageWidth pageHeight
    = Some p /\
    Placement.scaledWidth p <= cellWidth imagesPerPage availableWidth /\
    Placement.scaledHeight p <= cellHeight imagesPerPage availableHeight /\
    0 < Placement.scaledHeight p /\
    Placement.scaledWidth p / Placement.scaledHeight p
    == imgWidth / imgHeight.
Proof.
  intros Hw Hh _ Hcw Hch.
  destruct (calculateImageDimensions_Some imgWidth imgHeight availableWidth
              availableHeight imagesPerPage imageIndex margin pageWidth
              pageHeight) as (p & Hp & Hsw & Hsh); [lra | lra |].
  exists p. split; [exact Hp|]. cbv zeta in Hsw, Hsh. rewrite Hsw, Hsh.
  split; [apply fit_width; assumption|].
  split; [apply fit_height; assumption|].
  split.
  - apply Qmult_lt_0_compat; [assumption|].
    apply fit_scale_pos; assumption.
  - apply fit_aspect; assumption.
Qed.

Lemma calculateImageDimensions_fits_cell_witness :
  exists p,
    calculateImageDimensions 400 300 555 802 4 3 20 595 842 = Some p /\
    Placement.scaledWidth p <= cellWidth 4 555 /\
    Placement.scaledHeight p <= cellHeight 4 802 /\
    0 < Placement.scaledHeight p /\
    Placement.scaledWidth p / Placement.scaledHeight p == 400 / 300.
Proof.
  apply (calculateImageDimensions_fits_cell 400 300 555 802 4 3 20 595 842).
  - reflexivity.
  - reflexivity.
  - right; right; reflexivity.
  - reflexivity.
  - reflexivity.
Defined.

(** C6.  A4, portrait, margin 20, one image per page, one 400 x 300
    image: the page is 595 x 842, the scale is min(555/400, 802/300) =
    1.3875, and the rectangle is 555 x 416.25 at x = 20, y = 212.875
    (top-down, before the flip of the draw call). *)
Theorem calculateImageDimensions_A4_400x300 :
  let page := pageDimensions scenarioA4 in
  let margin := margin scenarioA4 in
  page = {| width := 595; height := 842 |} /\
  width page - margin * 2 == 555 /\
  height page - margin * 2 == 802 /\
  Qmin (555 / 400) (802 / 300) == 1.3875 /\
  exists p,
    calculateImageDimensions 400 300
      (width page - margin * 2) (height page - margin * 2)
      (imagesPerPage scenarioA4) 0 margin (width page) (height page)
    = Some p /\
    Placement.scaledWidth p == 400 * Qmin (555 / 400) (802 / 300) /\
    Placement.scaledWidth p == 555 /\
    Placement.scaledHeight p == 416.25 /\
    Placement.x p == 20 /\
    Placement.y p == 20 + (802 - 416.25) / 2 /\
    Placement.y p == 212.875.
Proof.
  cbv zeta. split; [reflexivity|]. split; [reflexivity|].
  split; [reflexivity|]. split; [reflexivity|].
  eexists. split; [vm_compute; reflexivity|].
  repeat split; reflexivity.
Qed.

(** C8.  A mode other than 1, 2 and 4 gives what mode 1 gives, for all
    other arguments: the same rectangle, or the same division by zero;
    with nonzero intrinsic dimensions it gives a rectangle. *)
Theorem calculateImageDimensions_unrecognized_mode
    (imgWidth imgHeight availableWidth availableHeight : Q)
    (imagesPerPage imageIndex : Z) (margin pageWidth pageHeight : Q) :
  imagesPerPage <> 1%Z -> imagesPerPage <> 2%Z -> imagesPerPage <> 4%Z ->
  calculateImageDimensions imgWidth imgHeight availableWidth
    availableHeight imagesPerPage imageIndex margin pageWidth pageHeight
  = calculateImageDimensions imgWidth imgHeight availableWidth
      availableHeight 1 imageIndex margin pageWidth pageHeight
  /\ (~ imgWidth == 0 -> ~ imgHeight == 0 ->
      is_Some (calculateImageDimensions imgWidth imgHeight availableWidth
                 availableHeight imagesPerPage imageIndex margin pageWidth
                 pageHeight)).
Proof.
  intros H1 H2 H4. split.
  - unfold calculateImageDimensions.
    apply Z.eqb_neq in H1, H2, H4. rewrite H1, H2, H4. reflexivity.
  - intros Hw Hh.
    destruct (calculateImageDimensions_Some imgWidth imgHeight
                availableWidth availableHeight imagesPerPage imageIndex
                margin pageWidth pageHeight Hw Hh) as (p & Hp & _).
    rewrite Hp. eexists; reflexivity.
Qed.

Lemma calculateImageDimensions_unrecognized_mode_witness :
  calculateImageDimensions 400 300 555 802 3 2 20 595 842
  = calculateImageDimensions 400 300 555 802 1 2 20 595 842
  /\ (~ 400 == 0 -> ~ 300 == 0 ->
      is_Some (calculateImageDimensions 400 300 555 802 3 2 20 595 842)).
Proof.
  apply (calculateImageDimensions_unrecognized_mode
           400 300 555 802 3 2 20 595 842); discriminate.
Defined.

(** C10.  With nonzero intrinsic dimensions the calculator divides by no
    zero and returns a rectangle, whatever the other arguments are.  With
    the available area that [generatePDF] passes, a margin of at least
    half the page width or half the page height gives (for positive
    intrinsic dimensions) a rectangle of width and height at most zero. *)
Theorem calculateImageDimensions_total
    (imgWidth imgHeight availableWidth availableHeight : Q)
    (imagesPerPage imageIndex : Z) (margin pageWidth pageHeight : Q) :
  ~ imgWidth == 0 -> ~ imgHeight == 0 ->
  is_Some (calculateImageDimensions imgWidth imgHeight availableWidth
             availableHeight imagesPerPage imageIndex margin pageWidth
             pageHeight)
  /\ exists p,
       calculateImageDimensions imgWidth imgHeight
         (pageWidth - margin * 2) (pageHeight - margin * 2)
         imagesPerPage imageIndex margin pageWidth pageHeight = Some p /\
       (0 < imgWidth -> 0 < imgHeight ->
        pageWidth / 2 <= margin \/ pageHeight / 2 <= margin ->
        Placement.scaledWidth p <= 0 /\ Placement.scaledHeight p <= 0).
Proof.
  intros Hw Hh. split.
  - destruct (calculateImageDimensions_Some imgWidth imgHeight
                availableWidth availableHeight imagesPerPage imageIndex
                margin pageWidth pageHeight Hw Hh) as (p & Hp & _).
    rewrite Hp. eexists; reflexivity.
  - destruct (calculateImageDimensions_Some imgWidth imgHeight
                (pageWidth - margin * 2) (pageHeight - margin * 2)
                imagesPerPage imageIndex margin pageWidth pageHeight Hw Hh)
      as (p & Hp & Hsw & Hsh).
    exists p. split; [exact Hp|]. intros Hwp Hhp Hm.
    cbv zeta in Hsw, Hsh. rewrite Hsw, Hsh.
    apply fit_degenerate; [assumption | assumption |].
    assert (Ha : pageWidth - margin * 2 <= 0 \/ pageHeight - margin * 2 <= 0).
    { destruct Hm as [Hm | Hm]; [left | right].
      - assert (pageWidth == pageWidth / 2 * 2) by field. lra.
      - assert (pageHeight == pageHeight / 2 * 2) by field. lra. }
    unfold cellWidth, cellHeight.
    destruct Ha as [Ha | Ha]; [left | right].
    + destruct (_ || _).
      * assert ((pageWidth - margin * 2) / 2 * 2 == pageWidth - margin * 2)
          by field. lra.
      * exact Ha.
    + destruct (_ =? _)%Z.
      * assert ((pageHeight - margin * 2) / 2 * 2 == pageHeight - margin * 2)
          by field. lra.
      * exact Ha.
Qed.

Lemma calculateImageDimensions_total_witness :
  is_Some (calculateImageDimensions 400 300 (-5) 242 2 1 300 595 842)
  /\ exists p,
       calculateImageDimensions 400 300
         (595 - 300 * 2) (842 - 300 * 2) 2 1 300 595 842 = Some p /\
       (0 < 400 -> 0 < 300 ->
        595 / 2 <= 300 \/ 842 / 2 <= 300 ->
        Placement.scaledWidth p <= 0 /\ Placement.scaledHeight p <= 0).
Proof.
  apply (calculateImageDimensions_total 400 300 (-5) 242 2 1 300 595 842);
    discriminate.
Defined.

(** ** Rounding to a double *)

Lemma pow2_pos (k : Z) : 0 < 2 ^ k.
Proof. apply Qpower_0_lt. reflexivity. Qed.

Lemma Qdiv_le_compat (a b p d : Q) :
  0 <= a -> a <= p -> 0 < d -> d <= b -> a / b <= p / d.
Proof.
  intros Ha Hap Hd Hdb.
  assert (Hb : 0 < b) by lra.
  apply Qle_shift_div_l; [exact Hd|].
  assert (E : b * (a / b) == a) by (apply Qmult_div_r; lra).
  assert (0 <= a / b) by (apply Qle_shift_div_l; lra).
  nra.
Qed.

Lemma Qmin_case_eq (x y : Q) : Qmin x y = x \/ Qmin x y = y.
Proof. unfold Qmin, GenericMinMax.gmin. destruct (x ?= y); auto. Qed.

(** The exponent that [floorLog2] finds is not too large. *)
Lemma floorLog2_le (a : Q) : 0 < a -> 2 ^ Double.floorLog2 a <= a.
Proof.
  intros Ha. unfold Double.floorLog2.
  destruct (Qle_bool _ a) eqn:E.
  - now apply Qle_bool_iff.
  - clear E. destruct a as [p q]. cbn [Qnum Qden].
    assert (Hp : (0 < p)%Z).
    { unfold Qlt in Ha. cbn in Ha. lia. }
    destruct (Z.log2_spec p Hp) as [Hlo _].
    destruct (Z.log2_spec (Zpos q) (Pos2Z.is_pos q)) as [_ Hhi].
    pose proof (Z.log2_nonneg p) as Hp0.
    pose proof (Z.log2_nonneg (Zpos q)) as Hq0.
    replace (Z.log2 p - Z.log2 (Z.pos q) - 1)%Z
      with (Z.log2 p - Z.succ (Z.log2 (Z.pos q)))%Z by lia.
    rewrite Qpower_minus by discriminate.
    rewrite <- !(Zpower_Qpower 2) by lia.
    rewrite (Qmake_Qdiv p q).
    apply Qdiv_le_compat.
    + change 0 with (inject_Z 0). rewrite <- Zle_Qle.
      apply Z.pow_nonneg. lia.
    + now rewrite <- Zle_Qle.
    + reflexivity.
    + rewrite <- Zle_Qle. lia.
Qed.

(** Nor too small: [floorLog2] is the exponent. *)
Lemma floorLog2_lt (a : Q) : 0 < a -> a < 2 ^ (Double.floorLog2 a + 1).
Proof.
  intros Ha. unfold Double.floorLog2.
  destruct a as [p q]. cbn [Qnum Qden].
  assert (Hp : (0 < p)%Z).
  { unfold Qlt in Ha. cbn in Ha. lia. }
  destruct (Z.log2_spec p Hp) as [_ Hhi].
  destruct (Z.log2_spec (Zpos q) (Pos2Z.is_pos q)) as [Hlo _].
  pose proof (Z.log2_nonneg p) as Hp0.
  pose proof (Z.log2_nonneg (Zpos q)) as Hq0.
  set (e := (Z.log2 p - Z.log2 (Z.pos q))%Z).
  assert (Hup : p # q < 2 ^ (e + 1)).
  { unfold e.
    replace (Z.log2 p - Z.log2 (Z.pos q) + 1)%Z
      with (Z.succ (Z.log2 p) - Z.log2 (Z.pos q))%Z by lia.
    rewrite Qpower_minus by discriminate.
    rewrite <- !(Zpower_Qpower 2) by lia.
    rewrite (Qmake_Qdiv p q).
    assert (H1 : inject_Z p < inject_Z (2 ^ Z.succ (Z.log2 p)))
      by now rewrite <- Zlt_Qlt.
    assert (H2 : inject_Z (2 ^ Z.log2 (Z.pos q)) <= inject_Z (Z.pos q))
      by now rewrite <- Zle_Qle.
    assert (H3 : 0 < inject_Z (2 ^ Z.log2 (Z.pos q))).
    { change 0 with (inject_Z 0). rewrite <- Zlt_Qlt.
      apply Z.pow_pos_nonneg; lia. }
    assert (H4 : 0 < inject_Z p)
      by (change 0 with (inject_Z 0); now rewrite <- Zlt_Qlt).
    apply Qlt_le_trans
      with (inject_Z (2 ^ Z.succ (Z.log2 p)) / inject_Z (Z.pos q)).
    - apply Qmult_lt_compat_r; [|exact H1].
      apply Qinv_lt_0_compat. reflexivity.
    - apply Qdiv_le_compat; lra. }
  destruct (Qle_bool (2 ^ e) (p # q)) eqn:E; [exact Hup|].
  replace (e - 1 + 1)%Z with e by lia.
  apply Qnot_le_lt. intros H. apply Qle_bool_iff in H. congruence.
Qed.

Lemma roundHalfEven_error (y : Q) :
  - (1 # 2) <= inject_Z (Double.roundHalfEven y) - y <= 1 # 2.
Proof.
  unfold Double.roundHalfEven.
  pose proof (Qfloor_le y) as Hlo. pose proof (Qlt_floor y) as Hhi.
  rewrite inject_Z_plus in Hhi. change (inject_Z 1) with 1 in Hhi.
  destruct (Qcompare_spec (y - inject_Z (Qfloor y)) (1 # 2)) as [E|E|E].
  - destruct (Z.even (Qfloor y));
      rewrite ?inject_Z_plus; change (inject_Z 1) with 1; lra.
  - lra.
  - rewrite inject_Z_plus. change (inject_Z 1) with 1. lra.
Qed.

Lemma roundPositive_error (a : Q) :
  0 < a ->
  - (Double.unitRoundoff * a) <= Double.roundPositive a - a
  <= Double.unitRoundoff * a.
Proof.
  intros Ha. unfold Double.roundPositive.
  pose proof (floorLog2_le a Ha) as Hlog.
  set (e := Double.floorLog2 a) in *.
  rewrite Qred_correct.
  pose proof (pow2_pos (e - 52)) as Hk.
  pose proof (roundHalfEven_error (a / 2 ^ (e - 52))) as Hm.
  set (m := inject_Z (Double.roundHalfEven (a / 2 ^ (e - 52)))) in *.
  assert (Ee : 2 ^ e == 2 ^ (e - 52) * 4503599627370496).
  { replace e with (e - 52 + 52)%Z at 1 by lia.
    rewrite Qpower_plus by discriminate. reflexivity. }
  assert (Ey : 2 ^ (e - 52) * (a / 2 ^ (e - 52)) == a)
    by (apply Qmult_div_r; lra).
  set (k := 2 ^ (e - 52)) in *. set (y := a / k) in *.
  unfold Double.unitRoundoff.
  split; nra.
Qed.

(** One rounding changes a value by at most [2 ^ -53] of its size. *)
Lemma round_error (x : Q) :
  Qabs (Double.round x - x) <= Double.unitRoundoff * Qabs x.
Proof.
  unfold Double.round.
  destruct (Qcompare_spec x 0) as [E|E|E].
  - rewrite E. discriminate.
  - assert (Hx : 0 < - x) by lra.
    pose proof (roundPositive_error (- x) Hx).
    rewrite (Qabs_neg x) by lra.
    apply Qabs_Qle_condition. lra.
  - pose proof (roundPositive_error x E).
    rewrite (Qabs_pos x) by lra.
    apply Qabs_Qle_condition. lra.
Qed.

Lemma round_pos_bounds (x : Q) :
  0 <= x ->
  x * (1 - Double.unitRoundoff) <= Double.round x
  <= x * (1 + Double.unitRoundoff).
Proof.
  intros Hx. pose proof (round_error x) as H.
  rewrite (Qabs_pos x) in H by exact Hx.
  apply Qabs_Qle_condition in H. lra.
Qed.

Lemma round_pos (x : Q) : 0 < x -> 0 < Double.round x.
Proof.
  intros Hx. destruct (round_pos_bounds x) as [H _]; [lra|].
  unfold Double.unitRoundoff in H.
  assert (0 < x * (1 - (1 # 9007199254740992))) by nra.
  lra.
Qed.

Lemma unitRoundoff_bounds : 0 < Double.unitRoundoff /\ Double.unitRoundoff < 1.
Proof. split; reflexivity. Qed.

Lemma inRange_pos (x : Q) : Double.inRange x -> 0 < x.
Proof.
  intros [H _]. apply Qlt_le_trans with Double.tiny; [reflexivity|exact H].
Qed.

(** The significand has 53 bits: the rounded value is an integer of
    [2 ^ 52] to [2 ^ 53] times a power of two. *)
Lemma roundPositive_significand (a : Q) :
  0 < a ->
  let k := (Double.floorLog2 a - 52)%Z in
  exists m : Z,
    Double.roundPositive a == inject_Z m * 2 ^ k /\
    (4503599627370496 <= m <= 9007199254740992)%Z.
Proof.
  intros Ha k. unfold Double.roundPositive. fold k.
  exists (Double.roundHalfEven (a / 2 ^ k)).
  split; [apply Qred_correct|].
  pose proof (floorLog2_le a Ha) as Hlo.
  pose proof (floorLog2_lt a Ha) as Hhi.
  pose proof (pow2_pos k) as Hk.
  pose proof (roundHalfEven_error (a / 2 ^ k)) as Hm.
  assert (Ee : 2 ^ Double.floorLog2 a == 2 ^ k * 4503599627370496).
  { replace (Double.floorLog2 a) with (k + 52)%Z by (unfold k; lia).
    rewrite Qpower_plus by discriminate. reflexivity. }
  assert (Ee' : 2 ^ (Double.floorLog2 a + 1) == 2 ^ k * 9007199254740992).
  { replace (Double.floorLog2 a + 1)%Z with (k + 53)%Z by (unfold k; lia).
    rewrite Qpower_plus by discriminate. reflexivity. }
  assert (Ey : 2 ^ k * (a / 2 ^ k) == a) by (apply Qmult_div_r; lra).
  rewrite Ee in Hlo. rewrite Ee' in Hhi.
  set (p := 2 ^ k) in *. set (y := a / p) in *.
  set (m := Double.roundHalfEven y) in *.
  assert (Hy : 4503599627370496 <= y /\ y < 9007199254740992)
    by (split; nra).
  assert (H1 : inject_Z 4503599627370495 < inject_Z m).
  { change (inject_Z 4503599627370495) with 4503599627370495. lra. }
  assert (H2 : inject_Z m < inject_Z 9007199254740993).
  { change (inject_Z 9007199254740993) with 9007199254740993. lra. }
  rewrite <- Zlt_Qlt in H1, H2. lia.
Qed.

(** What doubles are: the nearest to 0.1, to 1/3 and to -7/3, and 802
    and 297.5, which are doubles themselves. *)
Lemma round_examples :
  Double.round (1 # 10) = 3602879701896397 # 36028797018963968 /\
  Double.round (1 # 3) = 6004799503160661 # 18014398509481984 /\
  Double.round (-7 # 3) = -5254199565265579 # 2251799813685248 /\
  Double.round 802 = 802 /\
  Double.round 297.5 = 595 # 2 /\
  Double.round 0 = 0.
Proof. repeat split; vm_compute; reflexivity. Qed.

(** [Double] against the binary64 arithmetic of the kernel: the same
    rectangle, number for number, on every input of the grid. *)
Lemma Double_agrees_with_Binary64 :
  forallb (fun '(w, h, (pageWidth, pageHeight), m, (imagesPerPage, slot)) =>
             Binary64.agree w h pageWidth pageHeight m imagesPerPage slot)
    Binary64.grid
  = true.
Proof. vm_compute. reflexivity. Qed.

(** ** The fit rule in doubles *)

Section FitRounded.

Variables imgWidth imgHeight cellWidth cellHeight : Q.
Hypothesis imgWidth_pos : 0 < imgWidth.
Hypothesis imgHeight_pos : 0 < imgHeight.
Hypothesis cellWidth_pos : 0 < cellWidth.
Hypothesis cellHeight_pos : 0 < cellHeight.

Local Abbreviation u := Double.unitRoundoff.
Local Abbreviation scale :=
  (Qmin (Double.round (cellWidth / imgWidth))
        (Double.round (cellHeight / imgHeight))).

Lemma rounded_ratio (c i : Q) :
  0 < c -> 0 < i ->
  0 < Double.round (c / i) /\
  c * (1 - u) <= i * Double.round (c / i) <= c * (1 + u).
Proof.
  intros Hc Hi.
  assert (E : i * (c / i) == c) by (apply Qmult_div_r; lra).
  assert (Hr : 0 < c / i) by (apply Qlt_shift_div_l; lra).
  pose proof (round_pos _ Hr) as Hpos.
  destruct (round_pos_bounds (c / i)) as [Hlo Hhi]; [lra|].
  set (r := c / i) in *. set (rr := Double.round r) in *.
  repeat split; [exact Hpos|..]; nra.
Qed.

Lemma fit_rounded_scale_pos : 0 < scale.
Proof.
  destruct (rounded_ratio cellWidth imgWidth) as [H1 _]; try assumption.
  destruct (rounded_ratio cellHeight imgHeight) as [H2 _]; try assumption.
  apply Q.min_glb_lt; assumption.
Qed.

Lemma fit_rounded_width :
  Double.round (imgWidth * scale) <= cellWidth * ((1 + u) * (1 + u)).
Proof.
  pose proof fit_rounded_scale_pos as Hs.
  destruct (rounded_ratio cellWidth imgWidth) as (_ & _ & H1);
    try assumption.
  pose proof (Q.le_min_l (Double.round (cellWidth / imgWidth))
                (Double.round (cellHeight / imgHeight))) as Hmin.
  destruct (round_pos_bounds (imgWidth * scale)) as [_ Hhi].
  { apply Qmult_le_0_compat; lra. }
  destruct unitRoundoff_bounds as [Hu0 Hu1].
  set (s := scale) in *.
  set (rw := Double.round (cellWidth / imgWidth)) in *.
  set (sw := Double.round (imgWidth * s)) in *.
  assert (imgWidth * s <= imgWidth * rw) by (apply Qmult_le_l; assumption).
  nra.
Qed.

Lemma fit_rounded_height :
  Double.round (imgHeight * scale) <= cellHeight * ((1 + u) * (1 + u)).
Proof.
  pose proof fit_rounded_scale_pos as Hs.
  destruct (rounded_ratio cellHeight imgHeight) as (_ & _ & H1);
    try assumption.
  pose proof (Q.le_min_r (Double.round (cellWidth / imgWidth))
                (Double.round (cellHeight / imgHeight))) as Hmin.
  destruct (round_pos_bounds (imgHeight * scale)) as [_ Hhi].
  { apply Qmult_le_0_compat; lra. }
  destruct unitRoundoff_bounds as [Hu0 Hu1].
  set (s := scale) in *.
  set (rh := Double.round (cellHeight / imgHeight)) in *.
  set (sh := Double.round (imgHeight * s)) in *.
  assert (imgHeight * s <= imgHeight * rh) by (apply Qmult_le_l; assumption).
  nra.
Qed.

Lemma fit_rounded_pos :
  0 < Double.round (imgWidth * scale) /\
  0 < Double.round (imgHeight * scale).
Proof.
  pose proof fit_rounded_scale_pos as Hs.
  split; apply round_pos, Qmult_lt_0_compat; assumption.
Qed.

Lemma fit_rounded_aspect :
  imgWidth / imgHeight * ((1 - u) / (1 + u))
    <= Double.round (imgWidth * scale) / Double.round (imgHeight * scale)
    <= imgWidth / imgHeight * ((1 + u) / (1 - u)).
Proof.
  pose proof fit_rounded_scale_pos as Hs.
  destruct fit_rounded_pos as [Hsw Hsh].
  destruct (round_pos_bounds (imgWidth * scale)) as [Hwlo Hwhi].
  { apply Qmult_le_0_compat; lra. }
  destruct (round_pos_bounds (imgHeight * scale)) as [Hhlo Hhhi].
  { apply Qmult_le_0_compat; lra. }
  destruct unitRoundoff_bounds as [Hu0 Hu1].
  set (s := scale) in *.
  set (sw := Double.round (imgWidth * s)) in *.
  set (sh := Double.round (imgHeight * s)) in *.
  assert (Ea : imgHeight * (imgWidth / imgHeight) == imgWidth)
    by (apply Qmult_div_r; lra).
  assert (Ha : 0 < imgWidth / imgHeight) by (apply Qlt_shift_div_l; lra).
  assert (El : (1 + u) * ((1 - u) / (1 + u)) == 1 - u)
    by (apply Qmult_div_r; lra).
  assert (Hl : 0 < (1 - u) / (1 + u)) by (apply Qlt_shift_div_l; lra).
  assert (Eh : (1 - u) * ((1 + u) / (1 - u)) == 1 + u)
    by (apply Qmult_div_r; lra).
  assert (Hh : 0 < (1 + u) / (1 - u)) by (apply Qlt_shift_div_l; lra).
  set (a := imgWidth / imgHeight) in *.
  set (lo := (1 - u) / (1 + u)) in *. set (hi := (1 + u) / (1 - u)) in *.
  split.
  - apply Qle_shift_div_l; [exact Hsh|].
    apply Qle_trans with (a * lo * (imgHeight * s * (1 + u))).
    + apply Qmult_le_l; [apply Qmult_lt_0_compat; assumption | exact Hhhi].
    + assert (E : a * lo * (imgHeight * s * (1 + u))
                  == imgHeight * a * s * ((1 + u) * lo)) by ring.
      rewrite E, Ea, El. lra.
  - apply Qle_shift_div_r; [exact Hsh|].
    apply Qle_trans with (a * hi * (imgHeight * s * (1 - u))).
    + assert (E : a * hi * (imgHeight * s * (1 - u))
                  == imgHeight * a * s * ((1 - u) * hi)) by ring.
      rewrite E, Ea, Eh. lra.
    + apply Qmult_le_l; [apply Qmult_lt_0_compat; assumption | exact Hhlo].
Qed.

Lemma fit_rounded_fills_an_axis :
  cellWidth * ((1 - u) * (1 - u)) <= Double.round (imgWidth * scale) \/
  cellHeight * ((1 - u) * (1 - u)) <= Double.round (imgHeight * scale).
Proof.
  pose proof fit_rounded_scale_pos as Hs.
  destruct (rounded_ratio cellWidth imgWidth) as (_ & Hw & _);
    try assumption.
  destruct (rounded_ratio cellHeight imgHeight) as (_ & Hh & _);
    try assumption.
  destruct (round_pos_bounds (imgWidth * scale)) as [Hwlo _].
  { apply Qmult_le_0_compat; lra. }
  destruct (round_pos_bounds (imgHeight * scale)) as [Hhlo _].
  { apply Qmult_le_0_compat; lra. }
  destruct unitRoundoff_bounds as [Hu0 Hu1].
  destruct (Qmin_case_eq (Double.round (cellWidth / imgWidth))
              (Double.round (cellHeight / imgHeight))) as [E|E].
  - left. rewrite E in Hwlo |- *.
    set (rw := Double.round (cellWidth / imgWidth)) in *.
    set (sw := Double.round (imgWidth * rw)) in *. nra.
  - right. rewrite E in Hhlo |- *.
    set (rh := Double.round (cellHeight / imgHeight)) in *.
    set (sh := Double.round (imgHeight * rh)) in *. nra.
Qed.

End FitRounded.

(** ** The layout calculator in doubles *)

Lemma Double_div_Finite (x y : Q) :
  ~ y == 0 ->
  Double.div (Double.Finite x) (Double.Finite y)
  = Double.Finite (Double.round (x / y)).
Proof.
  intros Hy. unfold Double.div.
  destruct (Qcompare_spec y 0) as [E|E|E]; [contradiction|reflexivity..].
Qed.

(** The rectangle in terms of its cell, in every mode. *)
Lemma Double_calculateImageDimensions_in_cell
    (imgWidth imgHeight availableWidth availableHeight : Double.number)
    (imagesPerPage imageIndex : Z)
    (margin pageWidth pageHeight : Double.number) :
  let cw := Double.cellWidth imagesPerPage availableWidth in
  let ch := Double.cellHeight imagesPerPage availableHeight in
  let scale := Double.min (Double.div cw imgWidth) (Double.div ch imgHeight) in
  let scaledWidth := Double.mul imgWidth scale in
  let scaledHeight := Double.mul imgHeight scale in
  Double.calculateImageDimensions imgWidth imgHeight availableWidth
    availableHeight imagesPerPage imageIndex margin pageWidth pageHeight
  = Double.Placement.mk scaledWidth scaledHeight
      (Double.add
         (Double.cellLeft imagesPerPage imageIndex margin availableWidth)
         (Double.div (Double.sub cw scaledWidth) (Double.Finite 2)))
      (Double.add
         (Double.cellTop imagesPerPage imageIndex margin availableHeight)
         (Double.div (Double.sub ch scaledHeight) (Double.Finite 2))).
Proof.
  unfold Double.calculateImageDimensions, Double.cellWidth, Double.cellHeight,
    Double.cellLeft, Double.cellTop.
  destruct (Z.eqb_spec imagesPerPage 1) as [->|H1]; [reflexivity|].
  destruct (Z.eqb_spec imagesPerPage 2) as [->|H2]; [reflexivity|].
  destruct (Z.eqb_spec imagesPerPage 4) as [->|H4]; reflexivity.
Qed.

(** The scaled dimensions for finite arguments and nonzero intrinsic
    dimensions. *)
Lemma Double_calculateImageDimensions_scaled
    (imgWidth imgHeight availableWidth availableHeight : Q)
    (imagesPerPage imageIndex : Z)
    (margin pageWidth pageHeight : Double.number) (cw ch : Q) :
  ~ imgWidth == 0 -> ~ imgHeight == 0 ->
  Double.cellWidth imagesPerPage (Double.Finite availableWidth)
  = Double.Finite cw ->
  Double.cellHeight imagesPerPage (Double.Finite availableHeight)
  = Double.Finite ch ->
  let p := Double.calculateImageDimensions
             (Double.Finite imgWidth) (Double.Finite imgHeight)
             (Double.Finite availableWidth) (Double.Finite availableHeight)
             imagesPerPage imageIndex margin pageWidth pageHeight in
  let scale := Qmin (Double.round (cw / imgWidth))
                    (Double.round (ch / imgHeight)) in
  Double.Placement.scaledWidth p
  = Double.Finite (Double.round (imgWidth * scale)) /\
  Double.Placement.scaledHeight p
  = Double.Finite (Double.round (imgHeight * scale)).
Proof.
  intros Hw Hh Ecw Ech. cbv zeta.
  rewrite Double_calculateImageDimensions_in_cell. cbv zeta.
  cbn [Double.Placement.scaledWidth Double.Placement.scaledHeight].
  rewrite Ecw, Ech, !Double_div_Finite by assumption.
  split; reflexivity.
Qed.

(** The counterexample to C4.  An 800 x 1180 image on an A4 portrait
    page with a margin of 20, one image per page: the cell is 555 x 802
    (595 - 20 * 2 and 842 - 20 * 2, exact in doubles), the height
    ratio 802 / 1180 is the smaller one, and 1180 times its double is
    rounded to the double above 802.  The rectangle is higher than the
    cell, and its width to height ratio is not 800 / 1180; the binary64
    calculator returns the same two numbers. *)
Lemma Double_calculateImageDimensions_exceeds_cell :
  exists scaledWidth scaledHeight,
    let p := Double.calculateImageDimensions
               (Double.Finite 800) (Double.Finite 1180)
               (Double.Finite 555) (Double.Finite 802) 1 0
               (Double.Finite 20) (Double.Finite 595) (Double.Finite 842) in
    Double.Placement.scaledWidth p = Double.Finite scaledWidth /\
    Double.Placement.scaledHeight p = Double.Finite scaledHeight /\
    Double.cellHeight 1 (Double.Finite 802) = Double.Finite 802 /\
    scaledHeight == 802 + (1 # 8796093022208) /\
    ~ scaledHeight <= 802 /\
    ~ scaledWidth / scaledHeight == 800 / 1180 /\
    let b := Binary64.calculateImageDimensions 800 1180 555 802 1 0
               20 595 842 in
    Binary64.value (Binary64.Placement.scaledWidth b)
    = Double.Finite scaledWidth /\
    Binary64.value (Binary64.Placement.scaledHeight b)
    = Double.Finite scaledHeight /\
    PrimFloat.ltb 802 (Binary64.Placement.scaledHeight b) = true.
Proof.
  eexists _, _. cbv zeta.
  split; [vm_compute; reflexivity|]. split; [vm_compute; reflexivity|].
  split; [reflexivity|]. split; [reflexivity|].
  split; [vm_compute; congruence|]. split; [vm_compute; congruence|].
  repeat split; vm_compute; reflexivity.
Qed.

(** C4, as far as doubles allow.  For intrinsic dimensions and a cell
    whose width and height are positive (and in the range where doubles
    neither overflow nor underflow), in every mode the rectangle has
    positive width and height, is wider than the cell by no more than
    two roundings (a factor of [(1 + 2^-53)^2]) and higher by no more
    than two roundings, and its width to height ratio is that of the
    image up to two roundings (a factor between [(1 - 2^-53) / (1 + 2^-53)]
    and its inverse). *)
Theorem Double_calculateImageDimensions_fits_cell
    (imgWidth imgHeight availableWidth availableHeight : Q)
    (imagesPerPage imageIndex : Z)
    (margin pageWidth pageHeight : Double.number) (cw ch : Q) :
  Double.inRange imgWidth -> Double.inRange imgHeight ->
  Double.cellWidth imagesPerPage (Double.Finite availableWidth)
  = Double.Finite cw ->
  Double.cellHeight imagesPerPage (Double.Finite availableHeight)
  = Double.Finite ch ->
  Double.inRange cw -> Double.inRange ch ->
  let p := Double.calculateImageDimensions
             (Double.Finite imgWidth) (Double.Finite imgHeight)
             (Double.Finite availableWidth) (Double.Finite availableHeight)
             imagesPerPage imageIndex margin pageWidth pageHeight in
  let u := Double.unitRoundoff in
  exists scaledWidth scaledHeight,
    Double.Placement.scaledWidth p = Double.Finite scaledWidth /\
    Double.Placement.scaledHeight p = Double.Finite scaledHeight /\
    0 < scaledWidth /\ 0 < scaledHeight /\
    scaledWidth <= cw * ((1 + u) * (1 + u)) /\
    scaledHeight <= ch * ((1 + u) * (1 + u)) /\
    imgWidth / imgHeight * ((1 - u) / (1 + u))
      <= scaledWidth / scaledHeight
      <= imgWidth / imgHeight * ((1 + u) / (1 - u)).
Proof.
  intros Hw Hh Ecw Ech Hcw Hch. cbv zeta.
  apply inRange_pos in Hw, Hh, Hcw, Hch.
  destruct (Double_calculateImageDimensions_scaled imgWidth imgHeight
              availableWidth availableHeight imagesPerPage imageIndex margin
              pageWidth pageHeight cw ch) as [Esw Esh];
    [lra | lra | exact Ecw | exact Ech |].
  eexists _, _. split; [exact Esw|]. split; [exact Esh|].
  destruct (fit_rounded_pos imgWidth imgHeight cw ch) as [? ?];
    try assumption.
  repeat split; try assumption.
  - now apply fit_rounded_width.
  - now apply fit_rounded_height.
  - now apply fit_rounded_aspect.
  - now apply fit_rounded_aspect.
Qed.

Lemma Double_calculateImageDimensions_fits_cell_witness :
  exists scaledWidth scaledHeight,
    let p := Double.calculateImageDimensions
               (Double.Finite 800) (Double.Finite 1180)
               (Double.Finite 555) (Double.Finite 802) 1 0
               (Double.Finite 20) (Double.Finite 595) (Double.Finite 842) in
    let u := Double.unitRoundoff in
    Double.Placement.scaledWidth p = Double.Finite scaledWidth /\
    Double.Placement.scaledHeight p = Double.Finite scaledHeight /\
    0 < scaledWidth /\ 0 < scaledHeight /\
    scaledWidth <= 555 * ((1 + u) * (1 + u)) /\
    scaledHeight <= 802 * ((1 + u) * (1 + u)) /\
    800 / 1180 * ((1 - u) / (1 + u))
      <= scaledWidth / scaledHeight
      <= 800 / 1180 * ((1 + u) / (1 - u)).
Proof.
  apply (Double_calculateImageDimensions_fits_cell 800 1180 555 802 1 0
           (Double.Finite 20) (Double.Finite 595) (Double.Finite 842)
           555 802);
    first [reflexivity | split; vm_compute; discriminate].
Defined.

(** X2.  Best fit, as far as doubles allow: for intrinsic dimensions
    and a cell whose width and height are positive (and in the range
    where doubles neither overflow nor underflow) the rectangle fills the
    width of the cell or its height up to two roundings (a factor of
    [(1 - 2^-53)^2]). *)
Theorem Double_calculateImageDimensions_best_fit
    (imgWidth imgHeight availableWidth availableHeight : Q)
    (imagesPerPage imageIndex : Z)
    (margin pageWidth pageHeight : Double.number) (cw ch : Q) :
  Double.inRange imgWidth -> Double.inRange imgHeight ->
  Double.cellWidth imagesPerPage (Double.Finite availableWidth)
  = Double.Finite cw ->
  Double.cellHeight imagesPerPage (Double.Finite availableHeight)
  = Double.Finite ch ->
  Double.inRange cw -> Double.inRange ch ->
  let p := Double.calculateImageDimensions
             (Double.Finite imgWidth) (Double.Finite imgHeight)
             (Double.Finite availableWidth) (Double.Finite availableHeight)
             imagesPerPage imageIndex margin pageWidth pageHeight in
  let u := Double.unitRoundoff in
  exists scaledWidth scaledHeight,
    Double.Placement.scaledWidth p = Double.Finite scaledWidth /\
    Double.Placement.scaledHeight p = Double.Finite scaledHeight /\
    (cw * ((1 - u) * (1 - u)) <= scaledWidth \/
     ch * ((1 - u) * (1 - u)) <= scaledHeight).
Proof.
  intros Hw Hh Ecw Ech Hcw Hch. cbv zeta.
  apply inRange_pos in Hw, Hh, Hcw, Hch.
  destruct (Double_calculateImageDimensions_scaled imgWidth imgHeight
              availableWidth availableHeight imagesPerPage imageIndex margin
              pageWidth pageHeight cw ch) as [Esw Esh];
    [lra | lra | exact Ecw | exact Ech |].
  eexists _, _. split; [exact Esw|]. split; [exact Esh|].
  now apply fit_rounded_fills_an_axis.
Qed.

Lemma Double_calculateImageDimensions_best_fit_witness :
  exists scaledWidth scaledHeight,
    let p := Double.calculateImageDimensions
               (Double.Finite 800) (Double.Finite 1180)
               (Double.Finite 555) (Double.Finite 802) 4 3
               (Double.Finite 20) (Double.Finite 595) (Double.Finite 842) in
    let u := Double.unitRoundoff in
    Double.Placement.scaledWidth p = Double.Finite scaledWidth /\
    Double.Placement.scaledHeight p = Double.Finite scaledHeight /\
    ((535 # 2) * ((1 - u) * (1 - u)) <= scaledWidth \/
     391 * ((1 - u) * (1 - u)) <= scaledHeight).
Proof.
  apply (Double_calculateImageDimensions_best_fit 800 1180 555 802 4 3
           (Double.Finite 20) (Double.Finite 595) (Double.Finite 842)
           (535 # 2) 391);
    first [reflexivity | split; vm_compute; discriminate].
Defined.

Lemma round_zero (x : Q) : x == 0 -> Double.round x = 0.
Proof.
  intros E. unfold Double.round.
  destruct (Qcompare_spec x 0) as [_|H|H]; [reflexivity|lra..].
Qed.

Lemma Double_div_zero (x y : Q) :
  0 < x -> y == 0 ->
  Double.div (Double.Finite x) (Double.Finite y) = Double.Infinity.
Proof.
  intros Hx Hy. unfold Double.div.
  destruct (Qcompare_spec y 0) as [_|H|H]; [|lra..].
  destruct (Qcompare_spec x 0) as [H|H|H]; [lra|lra|reflexivity].
Qed.

Lemma Double_mul_zero_Infinity (x : Q) :
  x == 0 -> Double.mul (Double.Finite x) Double.Infinity = Double.NaN.
Proof.
  intros Hx. unfold Double.mul.
  destruct (Qcompare_spec x 0) as [_|H|H]; [reflexivity|lra..].
Qed.

Lemma Double_cellLeft_Finite (imagesPerPage imageIndex : Z)
    (margin availableWidth : Q) :
  exists left,
    Double.cellLeft imagesPerPage imageIndex (Double.Finite margin)
      (Double.Finite availableWidth) = Double.Finite left.
Proof.
  unfold Double.cellLeft. destruct (_ || _); [|eexists; reflexivity].
  rewrite Double_div_Finite by discriminate. eexists; reflexivity.
Qed.

Lemma Double_cellTop_Finite (imagesPerPage imageIndex : Z)
    (margin availableHeight : Q) :
  exists top,
    Double.cellTop imagesPerPage imageIndex (Double.Finite margin)
      (Double.Finite availableHeight) = Double.Finite top.
Proof.
  unfold Double.cellTop. destruct (_ =? _)%Z; [|eexists; reflexivity].
  rewrite Double_div_Finite by discriminate. eexists; reflexivity.
Qed.

Lemma Double_cellWidth_Finite (imagesPerPage : Z) (availableWidth : Q) :
  exists cw,
    Double.cellWidth imagesPerPage (Double.Finite availableWidth)
    = Double.Finite cw.
Proof.
  unfold Double.cellWidth. destruct (_ || _); [|eexists; reflexivity].
  rewrite Double_div_Finite by discriminate. eexists; reflexivity.
Qed.

Lemma Double_cellHeight_Finite (imagesPerPage : Z) (availableHeight : Q) :
  exists ch,
    Double.cellHeight imagesPerPage (Double.Finite availableHeight)
    = Double.Finite ch.
Proof.
  unfold Double.cellHeight. destruct (_ =? _)%Z; [|eexists; reflexivity].
  rewrite Double_div_Finite by discriminate. eexists; reflexivity.
Qed.

(** X3.  No NaN for an image that has a size.  For intrinsic dimensions
    that are positive and an available area, a margin and a page height
    that are finite (all in the range where doubles neither overflow nor
    underflow), whatever the mode, the slot and the sign of the cell, the
    four numbers of the rectangle are finite, and so is the flipped
    [y] of the draw call, [pageHeight - y - scaledHeight]. *)
Theorem Double_calculateImageDimensions_Finite
    (imgWidth imgHeight availableWidth availableHeight : Q)
    (imagesPerPage imageIndex : Z) (margin pageWidth pageHeight : Q) :
  Double.inRange imgWidth -> Double.inRange imgHeight ->
  Qabs availableWidth <= Double.huge ->
  Qabs availableHeight <= Double.huge ->
  Qabs margin <= Double.huge ->
  Qabs pageHeight <= Double.huge ->
  let p := Double.calculateImageDimensions
             (Double.Finite imgWidth) (Double.Finite imgHeight)
             (Double.Finite availableWidth) (Double.Finite availableHeight)
             imagesPerPage imageIndex (Double.Finite margin)
             (Double.Finite pageWidth) (Double.Finite pageHeight) in
  exists scaledWidth scaledHeight x y flipped,
    p = Double.Placement.mk (Double.Finite scaledWidth)
          (Double.Finite scaledHeight) (Double.Finite x) (Double.Finite y) /\
    Double.sub (Double.sub (Double.Finite pageHeight) (Double.Placement.y p))
      (Double.Placement.scaledHeight p)
    = Double.Finite flipped.
Proof.
  intros Hw Hh _ _ _ _. cbv zeta.
  apply inRange_pos in Hw, Hh.
  rewrite Double_calculateImageDimensions_in_cell. cbv zeta.
  destruct (Double_cellWidth_Finite imagesPerPage availableWidth) as [cw ->].
  destruct (Double_cellHeight_Finite imagesPerPage availableHeight)
    as [ch ->].
  destruct (Double_cellLeft_Finite imagesPerPage imageIndex margin
              availableWidth) as [left ->].
  destruct (Double_cellTop_Finite imagesPerPage imageIndex margin
              availableHeight) as [top ->].
  rewrite !Double_div_Finite by lra.
  cbn [Double.min Double.mul Double.sub Double.neg Double.add].
  rewrite !Double_div_Finite by discriminate.
  cbn [Double.add Double.Placement.y Double.Placement.scaledHeight
       Double.sub Double.neg].
  eexists _, _, _, _, _. split; reflexivity.
Qed.

Lemma Double_calculateImageDimensions_Finite_witness :
  let p := Double.calculateImageDimensions
             (Double.Finite 400) (Double.Finite 300)
             (Double.Finite (-5)) (Double.Finite 242) 2 1
             (Double.Finite 300) (Double.Finite 595) (Double.Finite 842) in
  exists scaledWidth scaledHeight x y flipped,
    p = Double.Placement.mk (Double.Finite scaledWidth)
          (Double.Finite scaledHeight) (Double.Finite x) (Double.Finite y) /\
    Double.sub (Double.sub (Double.Finite 842) (Double.Placement.y p))
      (Double.Placement.scaledHeight p)
    = Double.Finite flipped.
Proof.
  apply (Double_calculateImageDimensions_Finite 400 300 (-5) 242 2 1
           300 595 842);
    first [split; vm_compute; discriminate | vm_compute; discriminate].
Defined.

(** X1.  When the rectangle is NaN.  For a cell of positive width and
    height and intrinsic dimensions that are zero or positive (and, with
    the margin and the available area, in the range where doubles
    neither overflow nor underflow): if both dimensions are zero, the
    four numbers of the rectangle are NaN; if not both are zero, all
    four are finite; and a width of zero with a positive height gives a
    rectangle of width zero that is as high as the height ratio makes
    it. *)
Theorem Double_calculateImageDimensions_NaN
    (imgWidth imgHeight availableWidth availableHeight : Q)
    (imagesPerPage imageIndex : Z) (margin : Q)
    (pageWidth pageHeight : Double.number) (cw ch : Q) :
  imgWidth == 0 \/ Double.inRange imgWidth ->
  imgHeight == 0 \/ Double.inRange imgHeight ->
  Qabs availableWidth <= Double.huge ->
  Qabs availableHeight <= Double.huge ->
  Qabs margin <= Double.huge ->
  Double.cellWidth imagesPerPage (Double.Finite availableWidth)
  = Double.Finite cw ->
  Double.cellHeight imagesPerPage (Double.Finite availableHeight)
  = Double.Finite ch ->
  Double.inRange cw -> Double.inRange ch ->
  let p := Double.calculateImageDimensions
             (Double.Finite imgWidth) (Double.Finite imgHeight)
             (Double.Finite availableWidth) (Double.Finite availableHeight)
             imagesPerPage imageIndex (Double.Finite margin)
             pageWidth pageHeight in
  (imgWidth == 0 /\ imgHeight == 0 ->
   p = Double.Placement.mk Double.NaN Double.NaN Double.NaN Double.NaN) /\
  (~ (imgWidth == 0 /\ imgHeight == 0) ->
   exists scaledWidth scaledHeight x y,
     p = Double.Placement.mk (Double.Finite scaledWidth)
           (Double.Finite scaledHeight) (Double.Finite x) (Double.Finite y)) /\
  (imgWidth == 0 -> ~ imgHeight == 0 ->
   Double.Placement.scaledWidth p = Double.Finite 0 /\
   Double.Placement.scaledHeight p
   = Double.Finite (Double.round (imgHeight * Double.round (ch / imgHeight)))).
Proof.
  intros Hw' Hh' _ _ _ Ecw Ech Hcw Hch. cbv zeta.
  apply inRange_pos in Hcw, Hch.
  assert (Hw : 0 <= imgWidth)
    by (destruct Hw' as [H | H]; [lra | apply inRange_pos in H; lra]).
  assert (Hh : 0 <= imgHeight)
    by (destruct Hh' as [H | H]; [lra | apply inRange_pos in H; lra]).
  clear Hw' Hh'.
  rewrite Double_calculateImageDimensions_in_cell. cbv zeta.
  rewrite Ecw, Ech.
  destruct (Double_cellLeft_Finite imagesPerPage imageIndex margin
              availableWidth) as [left ->].
  destruct (Double_cellTop_Finite imagesPerPage imageIndex margin
              availableHeight) as [top ->].
  destruct (Qlt_le_dec 0 imgWidth) as [Hw0 | Hw0];
    destruct (Qlt_le_dec 0 imgHeight) as [Hh0 | Hh0].
  - rewrite !Double_div_Finite by lra. cbn [Double.min Double.mul].
    split; [intros [? _]; lra|]. split; [|intros ?; lra].
    intros _. cbn [Double.sub Double.neg Double.add].
    rewrite !Double_div_Finite by discriminate.
    eexists _, _, _, _. reflexivity.
  - rewrite (Double_div_Finite cw) by lra.
    rewrite (Double_div_zero ch) by lra. cbn [Double.min Double.mul].
    split; [intros [? _]; lra|]. split; [|intros ?; lra].
    intros _. cbn [Double.sub Double.neg Double.add].
    rewrite !Double_div_Finite by discriminate.
    eexists _, _, _, _. reflexivity.
  - rewrite (Double_div_zero cw) by lra.
    rewrite (Double_div_Finite ch) by lra. cbn [Double.min Double.mul].
    split; [intros [_ ?]; lra|]. split.
    + intros _. cbn [Double.sub Double.neg Double.add].
      rewrite !Double_div_Finite by discriminate.
      eexists _, _, _, _. reflexivity.
    + intros Hz _. cbn.
      rewrite (round_zero (imgWidth * _)) by (rewrite Hz; ring).
      split; reflexivity.
  - rewrite (Double_div_zero cw), (Double_div_zero ch) by lra.
    cbn [Double.min].
    rewrite !Double_mul_zero_Infinity by lra.
    cbn [Double.sub Double.neg Double.add Double.div].
    split; [reflexivity|]. split; [|intros ?; lra].
    intros H. exfalso. apply H. split; lra.
Qed.

Lemma Double_calculateImageDimensions_NaN_witness :
  let p := Double.calculateImageDimensions
             (Double.Finite 0) (Double.Finite 300)
             (Double.Finite 555) (Double.Finite 802) 1 0 (Double.Finite 20)
             (Double.Finite 595) (Double.Finite 842) in
  (0 == 0 /\ 300 == 0 ->
   p = Double.Placement.mk Double.NaN Double.NaN Double.NaN Double.NaN) /\
  (~ (0 == 0 /\ 300 == 0) ->
   exists scaledWidth scaledHeight x y,
     p = Double.Placement.mk (Double.Finite scaledWidth)
           (Double.Finite scaledHeight) (Double.Finite x) (Double.Finite y)) /\
  (0 == 0 -> ~ 300 == 0 ->
   Double.Placement.scaledWidth p = Double.Finite 0 /\
   Double.Placement.scaledHeight p
   = Double.Finite (Double.round (300 * Double.round (802 / 300)))).
Proof.
  apply (Double_calculateImageDimensions_NaN 0 300 555 802 1 0 20
           (Double.Finite 595) (Double.Finite 842) 555 802);
    first [ reflexivity | left; reflexivity
          | right; split; vm_compute; discriminate
          | split; vm_compute; discriminate
          | vm_compute; discriminate ].
Defined.

(** The two rectangles at hand: no width and 300 of height gives
    0 x 802 at (297.5, 20); no width and no height gives NaN. *)
Lemma Double_calculateImageDimensions_zero_examples :
  Double.calculateImageDimensions
    (Double.Finite 0) (Double.Finite 300)
    (Double.Finite 555) (Double.Finite 802) 1 0 (Double.Finite 20)
    (Double.Finite 595) (Double.Finite 842)
  = Double.Placement.mk (Double.Finite 0) (Double.Finite 802)
      (Double.Finite (595 # 2)) (Double.Finite 20) /\
  Double.calculateImageDimensions
    (Double.Finite 0) (Double.Finite 0)
    (Double.Finite 555) (Double.Finite 802) 1 0 (Double.Finite 20)
    (Double.Finite 595) (Double.Finite 842)
  = Double.Placement.mk Double.NaN Double.NaN Double.NaN Double.NaN.
Proof. split; vm_compute; reflexivity. Qed.

(** ** The layout calculator: where the rectangle lies *)

(** The rectangle in terms of its cell: the image scaled by the smaller
    axis ratio, with the slack of each axis split in two. *)
Lemma calculateImageDimensions_in_cell
    (imgWidth imgHeight availableWidth availableHeight : Q)
    (imagesPerPage imageIndex : Z) (margin pageWidth pageHeight : Q) :
  ~ imgWidth == 0 -> ~ imgHeight == 0 ->
  exists p,
    calculateImageDimensions imgWidth imgHeight availableWidth
      availableHeight imagesPerPage imageIndex margin pageWidth pageHeight
    = Some p /\
    let cw := cellWidth imagesPerPage availableWidth in
    let ch := cellHeight imagesPerPage availableHeight in
    let scale := Qmin (cw / imgWidth) (ch / imgHeight) in
    Placement.scaledWidth p = imgWidth * scale /\
    Placement.scaledHeight p = imgHeight * scale /\
    Placement.x p
    = cellLeft imagesPerPage imageIndex margin availableWidth
      + (cw - imgWidth * scale) / 2 /\
    Placement.y p
    = cellTop imagesPerPage imageIndex margin availableHeight
      + (ch - imgHeight * scale) / 2.
Proof.
  intros Hw Hh.
  unfold calculateImageDimensions, cellWidth, cellHeight, cellLeft, cellTop.
  destruct (imagesPerPage =? 1)%Z eqn:E1;
    [apply Z.eqb_eq in E1; subst imagesPerPage|];
    [|destruct (imagesPerPage =? 2)%Z eqn:E2;
      [apply Z.eqb_eq in E2; subst imagesPerPage|]];
    [| |destruct (imagesPerPage =? 4)%Z eqn:E4;
      [apply Z.eqb_eq in E4; subst imagesPerPage|]];
    rewrite ?qdiv_2; cbn [mbind option_bind orb Z.eqb Pos.eqb];
    rewrite !(qdiv_Some _ _ Hw), !(qdiv_Some _ _ Hh);
    cbn [mbind option_bind]; rewrite ?qdiv_2; cbn [mbind option_bind];
    eexists; (split; [reflexivity|]); cbn; repeat split; reflexivity.
Qed.

(** A zero intrinsic height is a division by zero in every mode. *)
Lemma calculateImageDimensions_zero_height
    (imgWidth imgHeight availableWidth availableHeight : Q)
    (imagesPerPage imageIndex : Z) (margin pageWidth pageHeight : Q) :
  imgHeight == 0 ->
  calculateImageDimensions imgWidth imgHeight availableWidth
    availableHeight imagesPerPage imageIndex margin pageWidth pageHeight
  = None.
Proof.
  intros Hh. unfold calculateImageDimensions.
  repeat destruct (_ =? _)%Z;
    rewrite ?qdiv_2; cbn [mbind option_bind];
    rewrite !(qdiv_None _ imgHeight Hh);
    destruct (_ /? imgWidth); reflexivity.
Qed.

(** The rectangle against the edges of its cell. *)
Lemma calculateImageDimensions_cell_bounds
    (imgWidth imgHeight availableWidth availableHeight : Q)
    (imagesPerPage imageIndex : Z) (margin pageWidth pageHeight : Q) :
  0 < imgWidth -> 0 < imgHeight ->
  exists p,
    calculateImageDimensions imgWidth imgHeight availableWidth
      availableHeight imagesPerPage imageIndex margin pageWidth pageHeight
    = Some p /\
    let left := cellLeft imagesPerPage imageIndex margin availableWidth in
    let top := cellTop imagesPerPage imageIndex margin availableHeight in
    let right := left + cellWidth imagesPerPage availableWidth in
    let bottom := top + cellHeight imagesPerPage availableHeight in
    left <= Placement.x p /\
    Placement.x p + Placement.scaledWidth p <= right /\
    top <= Placement.y p /\
    Placement.y p + Placement.scaledHeight p <= bottom /\
    Placement.x p - left
    == right - (Placement.x p + Placement.scaledWidth p) /\
    Placement.y p - top
    == bottom - (Placement.y p + Placement.scaledHeight p).
Proof.
  intros Hw Hh.
  destruct (calculateImageDimensions_in_cell imgWidth imgHeight
              availableWidth availableHeight imagesPerPage imageIndex margin
              pageWidth pageHeight) as (p & Hp & Hsw & Hsh & Hx & Hy);
    [lra | lra |].
  exists p. split; [exact Hp|]. cbv zeta in *.
  rewrite Hsw, Hsh, Hx, Hy.
  pose proof (fit_width imgWidth imgHeight
                (cellWidth imagesPerPage availableWidth)
                (cellHeight imagesPerPage availableHeight) Hw) as H1.
  pose proof (fit_height imgWidth imgHeight
                (cellWidth imagesPerPage availableWidth)
                (cellHeight imagesPerPage availableHeight) Hh) as H2.
  set (sw := imgWidth * _) in *. set (sh := imgHeight * _) in *.
  set (cw := cellWidth _ _) in *. set (ch := cellHeight _ _) in *.
  set (cl := cellLeft _ _ _ _). set (ct := cellTop _ _ _ _).
  assert (Ex : (cw - sw) / 2 * 2 == cw - sw) by field.
  assert (Ey : (ch - sh) / 2 * 2 == ch - sh) by field.
  repeat split; lra.
Qed.

Lemma gridColumn_cases (n : nat) :
  gridColumn (Z.of_nat n) = 0%Z \/ gridColumn (Z.of_nat n) = 1%Z.
Proof.
  unfold gridColumn.
  pose proof (Z.rem_bound_pos (Z.of_nat n) 2). lia.
Qed.

Lemma gridRow_cases (n : nat) :
  gridRow (Z.of_nat n) = 0%Z \/ gridRow (Z.of_nat n) = 1%Z.
Proof.
  unfold gridRow.
  pose proof (Z.rem_bound_pos (Z.of_nat n / 2) 2).
  pose proof (Z.div_pos (Z.of_nat n) 2). lia.
Qed.

(** Evaluates the column and row factors of written-out slots. *)
Ltac eval_grid :=
  unfold gridColumn, gridRow;
  repeat match goal with
         | |- context [inject_Z ?z] =>
             let v := eval vm_compute in (inject_Z z) in
             change (inject_Z z) with v
         end.

(** In exact arithmetic: with two or four images per page, the
    rectangles of two different slots of a page are 10 units apart or
    more, from right edge to left edge or from bottom edge to top edge
    (edges that are where their names say when the cell is not
    negative). *)
Lemma calculateImageDimensions_slots_apart
    (imgWidth1 imgHeight1 imgWidth2 imgHeight2 : Q)
    (availableWidth availableHeight : Q)
    (imagesPerPage slot1 slot2 : Z) (margin pageWidth pageHeight : Q) :
  0 < imgWidth1 -> 0 < imgHeight1 -> 0 < imgWidth2 -> 0 < imgHeight2 ->
  (imagesPerPage = 2 \/ imagesPerPage = 4)%Z ->
  (0 <= slot1 < imagesPerPage)%Z -> (0 <= slot2 < imagesPerPage)%Z ->
  slot1 <> slot2 ->
  exists p1 p2,
    calculateImageDimensions imgWidth1 imgHeight1 availableWidth
      availableHeight imagesPerPage slot1 margin pageWidth pageHeight
    = Some p1 /\
    calculateImageDimensions imgWidth2 imgHeight2 availableWidth
      availableHeight imagesPerPage slot2 margin pageWidth pageHeight
    = Some p2 /\
    (Placement.x p1 + Placement.scaledWidth p1 + 10 <= Placement.x p2 \/
     Placement.x p2 + Placement.scaledWidth p2 + 10 <= Placement.x p1 \/
     Placement.y p1 + Placement.scaledHeight p1 + 10 <= Placement.y p2 \/
     Placement.y p2 + Placement.scaledHeight p2 + 10 <= Placement.y p1).
Proof.
  intros Hw1 Hh1 Hw2 Hh2 Hmode Hs1 Hs2 Hne.
  destruct (calculateImageDimensions_cell_bounds imgWidth1 imgHeight1
              availableWidth availableHeight imagesPerPage slot1 margin
              pageWidth pageHeight Hw1 Hh1)
    as (p1 & Hp1 & Hl1 & Hr1 & Ht1 & Hb1 & _).
  destruct (calculateImageDimensions_cell_bounds imgWidth2 imgHeight2
              availableWidth availableHeight imagesPerPage slot2 margin
              pageWidth pageHeight Hw2 Hh2)
    as (p2 & Hp2 & Hl2 & Hr2 & Ht2 & Hb2 & _).
  exists p1, p2. split; [exact Hp1|]. split; [exact Hp2|].
  revert Hl1 Hr1 Ht1 Hb1 Hl2 Hr2 Ht2 Hb2.
  unfold cellLeft, cellTop, cellWidth, cellHeight.
  set (halfWidth := availableWidth / 2).
  set (halfHeight := availableHeight / 2).
  destruct Hmode as [-> | ->].
  - assert (Hc : (slot1 = 0 /\ slot2 = 1 \/ slot1 = 1 /\ slot2 = 0)%Z) by lia.
    destruct Hc as [[-> ->] | [-> ->]];
      eval_grid; cbn [orb Z.eqb Pos.eqb]; intros;
      first [ left; lra | right; left; lra
            | right; right; left; lra | right; right; right; lra ].
  - assert (H1 : (slot1 = 0 \/ slot1 = 1 \/ slot1 = 2 \/ slot1 = 3)%Z) by lia.
    assert (H2 : (slot2 = 0 \/ slot2 = 1 \/ slot2 = 2 \/ slot2 = 3)%Z) by lia.
    destruct H1 as [-> | [-> | [-> | ->]]];
      destruct H2 as [-> | [-> | [-> | ->]]];
      try (exfalso; apply Hne; reflexivity);
      eval_grid; cbn [orb Z.eqb Pos.eqb]; intros;
      first [ left; lra | right; left; lra
            | right; right; left; lra | right; right; right; lra ].
Qed.

(** Inside the margins: with the available area that [generatePDF]
    passes, not negative, and a slot index that is a counter. *)
Lemma calculateImageDimensions_within_margins
    (imgWidth imgHeight : Q) (imagesPerPage : Z) (slot : nat)
    (margin pageWidth pageHeight : Q) :
  0 < imgWidth -> 0 < imgHeight ->
  margin * 2 <= pageWidth -> margin * 2 <= pageHeight ->
  exists p,
    calculateImageDimensions imgWidth imgHeight
      (pageWidth - margin * 2) (pageHeight - margin * 2)
      imagesPerPage (Z.of_nat slot) margin pageWidth pageHeight = Some p /\
    margin <= Placement.x p /\
    Placement.x p + Placement.scaledWidth p <= pageWidth - margin /\
    margin <= Placement.y p /\
    Placement.y p + Placement.scaledHeight p <= pageHeight - margin.
Proof.
  intros Hw Hh Hmw Hmh.
  destruct (calculateImageDimensions_cell_bounds imgWidth imgHeight
              (pageWidth - margin * 2) (pageHeight - margin * 2)
              imagesPerPage (Z.of_nat slot) margin pageWidth pageHeight
              Hw Hh)
    as (p & Hp & Hl & Hr & Ht & Hb & _).
  exists p. split; [exact Hp|].
  revert Hl Hr Ht Hb. unfold cellLeft, cellTop, cellWidth, cellHeight.
  assert (Ew : (pageWidth - margin * 2) / 2 * 2 == pageWidth - margin * 2)
    by field.
  assert (Eh : (pageHeight - margin * 2) / 2 * 2 == pageHeight - margin * 2)
    by field.
  set (halfWidth := (pageWidth - margin * 2) / 2) in *.
  set (halfHeight := (pageHeight - margin * 2) / 2) in *.
  destruct (gridColumn_cases slot) as [-> | ->];
    destruct (gridRow_cases slot) as [-> | ->];
    destruct (_ || _); destruct (_ =? _)%Z; eval_grid; intros;
    repeat split; lra.
Qed.

(** In a cell that is not negative the rectangle has no negative
    width or height. *)
Lemma calculateImageDimensions_size_nonneg
    (imgWidth imgHeight availableWidth availableHeight : Q)
    (imagesPerPage imageIndex : Z) (margin pageWidth pageHeight : Q) :
  0 < imgWidth -> 0 < imgHeight ->
  0 <= cellWidth imagesPerPage availableWidth ->
  0 <= cellHeight imagesPerPage availableHeight ->
  exists p,
    calculateImageDimensions imgWidth imgHeight availableWidth
      availableHeight imagesPerPage imageIndex margin pageWidth pageHeight
    = Some p /\
    0 <= Placement.scaledWidth p /\ 0 <= Placement.scaledHeight p.
Proof.
  intros Hw Hh Hcw Hch.
  destruct (calculateImageDimensions_Some imgWidth imgHeight availableWidth
              availableHeight imagesPerPage imageIndex margin pageWidth
              pageHeight) as (p & Hp & Hsw & Hsh); [lra | lra |].
  exists p. split; [exact Hp|]. cbv zeta in Hsw, Hsh. rewrite Hsw, Hsh.
  assert (0 <= Qmin (cellWidth imagesPerPage availableWidth / imgWidth)
                    (cellHeight imagesPerPage availableHeight / imgHeight))
    by (apply Q.min_glb; apply Qle_shift_div_l; lra).
  split; apply Qmult_le_0_compat; lra.
Qed.

(** ** Reordering *)

Section ReorderFacts.

Context {A : Type}.

Lemma splice_insert_length (start : nat) (item : A) (arr : list A) :
  length (splice_insert start item arr) = S (length arr).
Proof.
  unfold splice_insert.
  rewrite length_app, length_take. cbn [length]. rewrite length_drop. lia.
Qed.

Lemma splice_insert_Permutation (start : nat) (item : A) (arr : list A) :
  splice_insert start item arr ≡ₚ item :: arr.
Proof.
  unfold splice_insert.
  rewrite <- Permutation_middle. now rewrite take_drop.
Qed.

Lemma splice_insert_lookup (start : nat) (item : A) (arr : list A) :
  (start <= length arr)%nat ->
  splice_insert start item arr !! start = Some item.
Proof.
  intros Hs. unfold splice_insert.
  apply list_lookup_middle. now rewrite length_take_le.
Qed.

Lemma splice_insert_delete (start : nat) (item : A) (arr : list A) :
  (start <= length arr)%nat ->
  delete start (splice_insert start item arr) = arr.
Proof.
  intros Hs. unfold splice_insert.
  pose proof (delete_middle (take start arr) (drop start arr) item) as Hm.
  rewrite length_take_le in Hm by exact Hs.
  rewrite Hm. apply take_drop.
Qed.

End ReorderFacts.

(** C9.  For in-bounds indices that differ, the reordered list has the
    length of the old one and is a permutation of it; the item that was
    at [dragIndex] is at [hoverIndex], and taking it out of either list
    leaves the same list, so the other items keep their order. *)
Theorem handleImageReorder_moves_one_item
    {A : Type} (undefined : A) (prev : list A) (dragIndex hoverIndex : nat) :
  (dragIndex < length prev)%nat -> (hoverIndex < length prev)%nat ->
  dragIndex <> hoverIndex ->
  let newImages := handleImageReorder undefined dragIndex hoverIndex prev in
  length newImages = length prev /\
  newImages ≡ₚ prev /\
  newImages !! hoverIndex = prev !! dragIndex /\
  delete hoverIndex newImages = delete dragIndex prev.
Proof.
  intros Hd Hh _. cbv zeta. unfold handleImageReorder, splice_remove.
  destruct (lookup_lt_is_Some_2 prev dragIndex Hd) as [d Hlk].
  rewrite (nth_lookup_Some _ _ _ _ Hlk).
  assert (Hlen : length (delete dragIndex prev) = (length prev - 1)%nat)
    by (apply length_delete; eauto).
  assert (Hle : (hoverIndex <= length (delete dragIndex prev))%nat) by lia.
  split; [rewrite splice_insert_length; lia|].
  split; [rewrite splice_insert_Permutation;
          symmetry; apply delete_Permutation; exact Hlk|].
  split; [rewrite Hlk; apply splice_insert_lookup; exact Hle|].
  apply splice_insert_delete; exact Hle.
Qed.

Lemma handleImageReorder_moves_one_item_witness :
  let prev := [10; 11; 12; 13; 14]%nat in
  let newImages := handleImageReorder 0%nat 3 1 prev in
  newImages = [10; 13; 11; 12; 14]%nat /\
  length newImages = length prev /\
  newImages ≡ₚ prev /\
  newImages !! 1%nat = prev !! 3%nat /\
  delete 1%nat newImages = delete 3%nat prev.
Proof.
  split; [reflexivity|].
  apply (handleImageReorder_moves_one_item 0%nat [10; 11; 12; 13; 14]%nat 3 1);
    cbn; lia.
Defined.

(** ** The page assembler *)

Lemma includes_examples :
  includes "png" "image/png" = true /\
  includes "jpeg" "image/jpeg" = true /\
  includes "jpg" "image/jpeg" = false /\
  includes "png" "image/gif" = false.
Proof. repeat split; reflexivity. Qed.

(** *** Lists of full pages *)

Lemma full_pages_length {A : Type} (k : nat) (closed : list (list A)) :
  Forall (fun page => length page = k) closed ->
  length (concat closed) = (k * length closed)%nat.
Proof.
  induction 1 as [|page closed Hpage _ IH]; cbn; [lia|].
  rewrite length_app, IH, Hpage. lia.
Qed.


Lemma concat_new_page {A : Type} (pages : list (list A)) :
  concat (pages ++ [[]]) = concat pages.
Proof. rewrite concat_app. cbn. now rewrite app_nil_r. Qed.

Lemma concat_drawn {A : Type} (closed : list (list A)) (current : list A)
    (d : A) :
  concat (closed ++ [current ++ [d]]) = concat (closed ++ [current]) ++ [d].
Proof. rewrite !concat_app. cbn. now rewrite !app_nil_r, app_assoc. Qed.

Lemma omap_length_all {A B : Type} (f : A -> option B) (l : list A) :
  Forall (fun a => is_Some (f a)) l -> length (omap f l) = length l.
Proof.
  induction 1 as [|a l [b Hb] _ IH]; [reflexivity|].
  cbn [omap list_omap]. rewrite Hb. cbn. now rewrite IH.
Qed.


(** [ceil(n / k)] when [n] items fill [s] pages of [k] and leave [c], with
    [1 <= c <= k], for the last one. *)
Lemma Qceiling_pages (k s c : Z) :
  (1 <= c <= k)%Z -> (0 <= s)%Z ->
  Qceiling (inject_Z (k * s + c) / inject_Z k) = (s + 1)%Z.
Proof.
  intros Hc Hs.
  set (q := inject_Z (k * s + c) / inject_Z k).
  assert (Hk : 0 < inject_Z k) by (rewrite <- (Zlt_Qlt 0); lia).
  assert (Hlo : inject_Z s < q).
  { apply Qlt_shift_div_l; [exact Hk|].
    rewrite <- inject_Z_mult, <- Zlt_Qlt. nia. }
  assert (Hhi : q <= inject_Z (s + 1)).
  { apply Qle_shift_div_r; [exact Hk|].
    rewrite <- inject_Z_mult, <- Zle_Qle. nia. }
  pose proof (Qle_ceiling q) as H1.
  pose proof (Qceiling_lt q) as H2.
  assert (H3 : inject_Z s < inject_Z (Qceiling q)) by lra.
  assert (H4 : inject_Z (Qceiling q - 1) < inject_Z (s + 1)) by lra.
  rewrite <- Zlt_Qlt in H3, H4. lia.
Qed.

Section AssemblerFacts.

Context {Canvas PDFImage : Type}.
Variable fileToArrayBuffer : File -> option ArrayBuffer.
Variable imageToCanvas : File -> option Canvas.
Variable canvasToJpeg : Canvas -> Q -> option ArrayBuffer.
Variable embedPng : ArrayBuffer -> option PDFImage.
Variable embedJpg : ArrayBuffer -> option PDFImage.
Variable scale1 : PDFImage -> PageSize.

Local Abbreviation Page := (list (@Drawing PDFImage)).
Local Abbreviation embed :=
  (embedImage fileToArrayBuffer imageToCanvas canvasToJpeg embedPng embedJpg).
Local Abbreviation step :=
  (processImage fileToArrayBuffer imageToCanvas canvasToJpeg embedPng
     embedJpg scale1).
Local Abbreviation loop :=
  (processImages fileToArrayBuffer imageToCanvas canvasToJpeg embedPng
     embedJpg scale1).
Local Abbreviation run :=
  (generatePDF fileToArrayBuffer imageToCanvas canvasToJpeg embedPng
     embedJpg scale1).
Local Abbreviation sized := (hasPixels scale1).
Local Abbreviation allSized :=
  (drawable fileToArrayBuffer imageToCanvas canvasToJpeg embedPng
     embedJpg scale1).

(** *** The embedding form *)

Lemma embedImage_quality_irrelevant (image : ImageFile)
    (options options' : ConversionOptions) :
  includes "png" (type (file image)) = true \/
  includes "jpg" (type (file image)) = true \/
  includes "jpeg" (type (file image)) = true ->
  embed image options = embed image options'.
Proof.
  intros H. unfold embedImage.
  destruct (fileToArrayBuffer (file image)) as [imageBytes|]; [|reflexivity].
  cbn [mbind option_bind].
  destruct (includes "png" _); [reflexivity|].
  destruct (includes "jpg" _); [reflexivity|].
  destruct (includes "jpeg" _); [reflexivity|].
  destruct H as [H | [H | H]]; discriminate.
Qed.

(** *** Progress *)

Lemma reportProgress_emitted (b : bool) (p : Q) (st : @State PDFImage) :
  emitted (reportProgress b p st) = emitted st ++ (if b then [p] else []).
Proof. destruct b; cbn; [reflexivity | now rewrite app_nil_r]. Qed.

Lemma processImage_emitted options b total i image (st : @State PDFImage) :
  emitted (step options b total i image st)
  = emitted st ++ (if b then [progressAt total i] else []).
Proof.
  unfold processImage.
  destruct (embed image options); [|apply reportProgress_emitted].
  destruct (_ && _); cbn; apply reportProgress_emitted.
Qed.

Lemma processImages_emitted options total images :
  forall i (st : @State PDFImage),
    emitted (loop options true total i images st)
    = emitted st ++ (progressAt total <$> seq i (length images)).
Proof.
  induction images as [|image rest IH]; intros i st; cbn [processImages].
  - cbn. now rewrite app_nil_r.
  - rewrite IH, processImage_emitted. cbn [length seq].
    rewrite fmap_cons. now rewrite <- app_assoc.
Qed.

Lemma generatePDF_emitted images options :
  emitted (run images options true)
  = (progressAt (length images) <$> seq 0 (length images)) ++ [100].
Proof.
  unfold generatePDF. rewrite reportProgress_emitted, processImages_emitted.
  reflexivity.
Qed.

Lemma progressAt_mono (total i j : nat) :
  (i <= j)%nat -> (0 < total)%nat -> progressAt total i <= progressAt total j.
Proof.
  intros Hij Ht. unfold progressAt.
  assert (Hn : 0 < inject_Z (Z.of_nat total))
    by (rewrite <- (Zlt_Qlt 0); lia).
  assert (Hz : inject_Z (Z.of_nat i) <= inject_Z (Z.of_nat j))
    by (rewrite <- Zle_Qle; lia).
  apply Qmult_le_compat_r; [|discriminate].
  apply Qmult_le_compat_r; [exact Hz|].
  apply Qlt_le_weak, Qinv_lt_0_compat, Hn.
Qed.

Lemma progressAt_below_100 (total i : nat) :
  (i < total)%nat -> progressAt total i < 100.
Proof.
  intros Hi. unfold progressAt.
  assert (Hn : 0 < inject_Z (Z.of_nat total))
    by (rewrite <- (Zlt_Qlt 0); lia).
  assert (Hz : inject_Z (Z.of_nat i) < inject_Z (Z.of_nat total))
    by (rewrite <- Zlt_Qlt; lia).
  assert (H1 : inject_Z (Z.of_nat i) / inject_Z (Z.of_nat total) < 1)
    by (apply Qlt_shift_div_r; lra).
  lra.
Qed.

Lemma progressAt_total (total : nat) :
  (0 < total)%nat -> progressAt total total == 100.
Proof.
  intros Ht. unfold progressAt.
  assert (Hn : 0 < inject_Z (Z.of_nat total))
    by (rewrite <- (Zlt_Qlt 0); lia).
  field. lra.
Qed.

Lemma progress_lookup (total i : nat) (a : Q) :
  ((progressAt total <$> seq 0 total) ++ [100]) !! i = Some a ->
  (i < total)%nat /\ a = progressAt total i \/ i = total /\ a = 100.
Proof.
  intros H. apply lookup_app_Some in H as [H | [Hlen H]].
  - rewrite list_lookup_fmap in H.
    destruct (seq 0 total !! i) as [k|] eqn:E; [|discriminate].
    apply lookup_seq in E as [-> Hi]. cbn in H. left. split; [lia|congruence].
  - rewrite length_fmap, length_seq in *.
    destruct (i - total)%nat as [|k] eqn:E; [|destruct k; discriminate].
    cbn in H. right. split; [lia|congruence].
Qed.

(** *** One iteration *)

Local Arguments calculateImageDimensions : simpl never.

Lemma reportProgress_lastPage b p (st : @State PDFImage) closed current :
  lastPage st closed current -> lastPage (reportProgress b p st) closed current.
Proof. destruct b; intros H; exact H. Qed.

Lemma reportProgress_imagesOnCurrentPage b p (st : @State PDFImage) :
  imagesOnCurrentPage (reportProgress b p st) = imagesOnCurrentPage st.
Proof. destruct b; reflexivity. Qed.

Lemma drawImage_lastPage d (st : @State PDFImage) closed current :
  lastPage st closed current ->
  lastPage (drawImage d st) closed (current ++ [d]).
Proof.
  intros [Hdoc Hcur]. split; cbn; [|exact Hcur].
  rewrite Hdoc, Hcur, <- (Nat.add_0_r (length closed)).
  now rewrite alter_app_r.
Qed.

Lemma addPage_lastPage (st : @State PDFImage) closed current :
  lastPage st closed current ->
  lastPage (addPage st) (closed ++ [current]) [].
Proof. intros [Hdoc Hcur]. split; cbn; now rewrite Hdoc. Qed.

(** A failing image: only the progress report happens. *)
Lemma processImage_failure options b total i image (st : @State PDFImage) :
  embed image options = None ->
  step options b total i image st
  = reportProgress b (progressAt total i) st.
Proof. intros H. unfold processImage. now rewrite H. Qed.

(** An embedded image is drawn on the current page at the slot the
    counter gives; a page is added exactly when the counter has then
    reached [imagesPerPage] and the image is not the last of the list. *)
Lemma processImage_success options b total i image e
    (st : @State PDFImage) closed current :
  embed image options = Some e ->
  lastPage st closed current ->
  let d := drawingAt scale1 options e (imagesOnCurrentPage st) in
  let st' := step options b total i image st in
  if (imagesPerPage options <=? Z.of_nat (S (imagesOnCurrentPage st)))%Z
     && (i <? total - 1)%nat
  then lastPage st' (closed ++ [current ++ [d]]) [] /\
       imagesOnCurrentPage st' = 0%nat
  else lastPage st' closed (current ++ [d]) /\
       imagesOnCurrentPage st' = S (imagesOnCurrentPage st).
Proof.
  intros He Hlast. cbv zeta. unfold processImage. rewrite He.
  cbn [imagesOnCurrentPage setImagesOnCurrentPage drawImage].
  rewrite reportProgress_imagesOnCurrentPage.
  apply (reportProgress_lastPage b (progressAt total i)) in Hlast.
  apply (drawImage_lastPage
           (drawingAt scale1 options e (imagesOnCurrentPage st))) in Hlast.
  destruct (_ && _).
  - split; [|reflexivity]. apply addPage_lastPage in Hlast.
    destruct Hlast as [Hdoc Hcur]. split; cbn in *; assumption.
  - split; [|reflexivity].
    destruct Hlast as [Hdoc Hcur]. split; cbn in *; assumption.
Qed.

(** The two lemmas above in the form used to run the loop on a list
    that is written out: the state is known by its last page and its
    counter. *)
Lemma processImage_failure_at options b total i image
    (st : @State PDFImage) closed current c :
  embed image options = None ->
  lastPage st closed current /\ imagesOnCurrentPage st = c ->
  let st' := step options b total i image st in
  lastPage st' closed current /\ imagesOnCurrentPage st' = c.
Proof.
  intros He [Hlast Hc]. cbv zeta.
  rewrite (processImage_failure options b total i image st He).
  split; [now apply reportProgress_lastPage|].
  now rewrite reportProgress_imagesOnCurrentPage.
Qed.

Lemma processImage_success_at options b total i image e
    (st : @State PDFImage) closed current c :
  embed image options = Some e ->
  lastPage st closed current /\ imagesOnCurrentPage st = c ->
  let d := drawingAt scale1 options e c in
  let st' := step options b total i image st in
  if (imagesPerPage options <=? Z.of_nat (S c))%Z && (i <? total - 1)%nat
  then lastPage st' (closed ++ [current ++ [d]]) [] /\
       imagesOnCurrentPage st' = 0%nat
  else lastPage st' closed (current ++ [d]) /\
       imagesOnCurrentPage st' = S c.
Proof.
  intros He [Hlast <-].
  exact (processImage_success options b total i image e st closed current
           He Hlast).
Qed.

Lemma initialState_at :
  lastPage (@initialState PDFImage) [] [] /\
  imagesOnCurrentPage (@initialState PDFImage) = 0%nat.
Proof. repeat split. Qed.

(** One iteration of a written-out run: [He] says whether the image
    embeds, [Hipp] gives [imagesPerPage]. *)
Ltac iteration He Hipp :=
  lazymatch goal with
  | Hst : lastPage ?st _ _ /\ imagesOnCurrentPage ?st = _
    |- context [processImage _ _ _ _ _ _ ?o ?b ?t ?i ?img ?st] =>
      let Hs := fresh "Hst" in
      first
        [ pose proof (processImage_failure_at o b t i img st _ _ _ He Hst)
            as Hs; cbv zeta in Hs
        | pose proof (processImage_success_at o b t i img _ st _ _ _ He Hst)
            as Hs; cbv zeta in Hs; rewrite Hipp in Hs;
          lazymatch type of Hs with
          | if ?cond then _ else _ =>
              let v := eval vm_compute in cond in
              change cond with v in Hs; cbv iota in Hs
          end ];
      clear Hst; rename Hs into Hst;
      set (processImage _ _ _ _ _ _ o b t i img st) in *
  end.

(** *** The loop *)

(** Whatever fails, the images drawn are the ones that embed, in the
    order of the list. *)
Lemma processImages_drawn options b total images :
  forall i (st : @State PDFImage) closed current,
    lastPage st closed current ->
    exists closed' current',
      lastPage (loop options b total i images st) closed' current' /\
      drawnImage <$> concat (closed' ++ [current'])
      = (drawnImage <$> concat (closed ++ [current]))
          ++ omap (fun image => embed image options) images.
Proof.
  induction images as [|image rest IH]; intros i st closed current Hlast.
  - exists closed, current. split; [exact Hlast|].
    cbn [omap list_omap]. now rewrite app_nil_r.
  - cbn [processImages omap list_omap].
    destruct (embed image options) as [e|] eqn:He.
    + pose proof (processImage_success options b total i image e st
                    closed current He Hlast) as Hstep.
      cbv zeta in Hstep.
      destruct (_ && _); destruct Hstep as [Hlast' _];
        destruct (IH (S i) _ _ _ Hlast') as (closed' & current' & H1 & H2);
        exists closed', current'; (split; [exact H1|]); rewrite H2;
        rewrite ?concat_new_page, concat_drawn, fmap_app, <- app_assoc;
        reflexivity.
    + rewrite (processImage_failure options b total i image st He).
      apply (IH (S i)). now apply reportProgress_lastPage.
Qed.

Lemma slotsInOrder_snoc options (page : Page) e :
  slotsInOrder scale1 options page ->
  slotsInOrder scale1 options
    (page ++ [drawingAt scale1 options e (length page)]).
Proof.
  intros Hpage slot d Hd. apply lookup_app_Some in Hd as [Hd | [Hge Hd]].
  - now apply Hpage.
  - destruct (slot - length page)%nat as [|m] eqn:E; [|destruct m; discriminate].
    cbn in Hd. injection Hd as <-. cbn [drawnImage drawingAt].
    replace slot with (length page) by lia. reflexivity.
Qed.


Lemma reportProgress_pdfDoc b p (st : @State PDFImage) :
  pdfDoc (reportProgress b p st) = pdfDoc st.
Proof. destruct b; reflexivity. Qed.

Lemma initialState_lastPage : lastPage (@initialState PDFImage) [] [].
Proof. split; reflexivity. Qed.

Lemma generatePDF_drawn images options b :
  drawnImage <$> concat (pdfDoc (run images options b))
  = omap (fun image => embed image options) images.
Proof.
  unfold generatePDF. rewrite reportProgress_pdfDoc.
  destruct (processImages_drawn options b (length images) images 0%nat
              initialState [] [] initialState_lastPage)
    as (closed & current & [Hdoc _] & Hdrawn).
  rewrite Hdoc, Hdrawn. reflexivity.
Qed.

(** C7.  The form in which [generatePDF] embeds an image: its bytes as
    PNG when the media type contains "png"; else its bytes as JPEG when
    it contains "jpg" or "jpeg"; else the canvas of the file re-encoded
    as JPEG at the quality factor of the options (0.9, 0.7, 0.5 for high,
    medium, low).  What it draws is what these embeddings return for
    the images of the list, in list order (the run being [drawable]).
    The factor is used nowhere else: on PNG and JPEG images two runs
    whose options differ in [quality] only agree. *)
Theorem embedImage_by_media_type
    (images : list ImageFile) (options : ConversionOptions)
    (onProgress : bool) :
  let form (image : ImageFile) : option PDFImage :=
    let mediaType := type (file image) in
    if includes "png" mediaType then
      fileToArrayBuffer (file image) ≫= embedPng
    else if includes "jpg" mediaType || includes "jpeg" mediaType then
      fileToArrayBuffer (file image) ≫= embedJpg
    else
      fileToArrayBuffer (file image) ≫= fun _ =>
      imageToCanvas (file image) ≫= fun canvas =>
      canvasToJpeg canvas (QUALITY_SETTINGS (quality options)) ≫= embedJpg in
  (forall image, embed image options = form image) /\
  QUALITY_SETTINGS high == 0.9 /\
  QUALITY_SETTINGS medium == 0.7 /\
  QUALITY_SETTINGS low == 0.5 /\
  (allSized options images ->
   drawnImage <$> concat (pdfDoc (run images options onProgress))
   = omap form images) /\
  (allSized options images ->
   forall d,
     d ∈ concat (pdfDoc (run images options onProgress)) ->
     exists image,
       image ∈ images /\ form image = Some (drawnImage d)) /\
  forall q : Quality,
    Forall (fun image =>
              includes "png" (type (file image)) = true \/
              includes "jpg" (type (file image)) = true \/
              includes "jpeg" (type (file image)) = true) images ->
    run images options onProgress
    = run images
        {| pageSize := pageSize options; orientation := orientation options;
           margin := margin options; quality := q;
           filename := filename options;
           imagesPerPage := imagesPerPage options |}
        onProgress.
Proof.
  cbv zeta.
  assert (Hform : forall image,
            embed image options
            = if includes "png" (type (file image)) then
                fileToArrayBuffer (file image) ≫= embedPng
              else if includes "jpg" (type (file image))
                      || includes "jpeg" (type (file image)) then
                fileToArrayBuffer (file image) ≫= embedJpg
              else
                fileToArrayBuffer (file image) ≫= fun _ =>
                imageToCanvas (file image) ≫= fun canvas =>
                canvasToJpeg canvas (QUALITY_SETTINGS (quality options))
                  ≫= embedJpg).
  { intros image. unfold embedImage.
    destruct (includes "png" _); [reflexivity|].
    destruct (_ || _); reflexivity. }
  assert (Hdrawn : drawnImage <$> concat (pdfDoc (run images options onProgress))
                   = omap (fun image => embed image options) images)
    by apply generatePDF_drawn.
  assert (Homap : forall l : list ImageFile,
            omap (fun image => embed image options) l
            = omap (fun image =>
                      if includes "png" (type (file image)) then
                        fileToArrayBuffer (file image) ≫= embedPng
                      else if includes "jpg" (type (file image))
                              || includes "jpeg" (type (file image)) then
                        fileToArrayBuffer (file image) ≫= embedJpg
                      else
                        fileToArrayBuffer (file image) ≫= fun _ =>
                        imageToCanvas (file image) ≫= fun canvas =>
                        canvasToJpeg canvas
                          (QUALITY_SETTINGS (quality options))
                          ≫= embedJpg) l).
  { intros l. apply list_omap_ext.
    induction l as [|image l IH]; constructor; [apply Hform | exact IH]. }
  split; [exact Hform|].
  split; [reflexivity|]. split; [reflexivity|]. split; [reflexivity|].
  split; [intros _; now rewrite Hdrawn, Homap|].
  split.
  { intros _ d Hd.
    assert (He : drawnImage d
                 ∈ omap (fun image => embed image options) images).
    { rewrite <- Hdrawn. apply list_elem_of_fmap. now exists d. }
    apply list_elem_of_omap in He as (image & Himage & He).
    exists image. split; [exact Himage|]. now rewrite <- Hform. }
  clear Hdrawn Homap Hform. intros q Himages. unfold generatePDF.
  match goal with |- context [processImages _ _ _ _ _ _ ?o _ _ _ images _] =>
    lazymatch o with options => fail | _ => set (options' := o) end end.
  f_equal.
  generalize (@initialState PDFImage). generalize 0%nat.
  generalize (length images).
  induction Himages as [|img rest Himg _ IH]; intros total i st;
    [reflexivity|].
  cbn [processImages]. rewrite IH. f_equal.
  unfold processImage.
  rewrite (embedImage_quality_irrelevant img options options' Himg).
  reflexivity.
Qed.

(** C3.  With a callback supplied, the values reported are [i / n * 100]
    for [i = 0 .. n-1], in that order, and then 100.  The sequence never
    decreases, no value reported before an image exceeds
    [(n - 1) / n * 100], and the last value is 100; for the empty list
    100 is the only value. *)
Theorem generatePDF_progress
    (images : list ImageFile) (options : ConversionOptions) :
  let total := length images in
  let progress := emitted (run images options true) in
  progress = (progressAt total <$> seq 0 total) ++ [100] /\
  (forall i a, (i < total)%nat ->
     progress !! i = Some a ->
     a = inject_Z (Z.of_nat i) / inject_Z (Z.of_nat total) * 100 /\
     a <= (inject_Z (Z.of_nat total) - 1) / inject_Z (Z.of_nat total) * 100 /\
     a < 100) /\
  (forall i j a b, (i <= j)%nat ->
     progress !! i = Some a -> progress !! j = Some b -> a <= b) /\
  length progress = S total /\
  progress !! total = Some 100 /\
  (images = [] -> progress = [100]).
Proof.
  cbv zeta. rewrite generatePDF_emitted. set (total := length images).
  split; [reflexivity|].
  split.
  { intros i a Hi H. apply progress_lookup in H as [[_ ->] | [-> _]]; [|lia].
    split; [reflexivity|]. split.
    - apply Qle_trans with (progressAt total (total - 1)).
      + apply progressAt_mono; lia.
      + unfold progressAt.
        assert (He : inject_Z (Z.of_nat (total - 1))
                     == inject_Z (Z.of_nat total) - 1).
        { rewrite Nat2Z.inj_sub by lia.
          unfold Z.sub, Qminus. now rewrite inject_Z_plus, inject_Z_opp. }
        rewrite He. apply Qle_refl.
    - apply progressAt_below_100. exact Hi. }
  split.
  { intros i j a b Hij Ha Hb.
    apply progress_lookup in Ha as [[Hi ->] | [-> ->]];
      apply progress_lookup in Hb as [[Hj ->] | [-> ->]].
    - apply progressAt_mono; lia.
    - rewrite <- (progressAt_total total) by lia.
      apply progressAt_mono; lia.
    - lia.
    - apply Qle_refl. }
  split; [rewrite length_app, length_fmap, length_seq; cbn; lia|].
  split.
  { apply list_lookup_middle. now rewrite length_fmap, length_seq. }
  intros ->. reflexivity.
Qed.

(** C2.  An image that fails to embed leaves the document, the current
    page and the slot counter as they were; the run goes on, and the
    images drawn are exactly the ones that embed, in list order (the
    run being [drawable]: those that embed have pixels).  For a list of
    three whose second fails, with one image per page: two pages, the
    first image on page 1 and the third on page 2. *)
Theorem generatePDF_skips_failing_images
    (options : ConversionOptions) (onProgress : bool) :
  (forall total i image (st : @State PDFImage),
     embed image options = None ->
     let st' := step options onProgress total i image st in
     pdfDoc st' = pdfDoc st /\
     currentPage st' = currentPage st /\
     imagesOnCurrentPage st' = imagesOnCurrentPage st) /\
  (forall images,
     allSized options images ->
     drawnImage <$> concat (pdfDoc (run images options onProgress))
     = omap (fun image => embed image options) images) /\
  (forall imageA imageB imageC a c,
     imagesPerPage options = 1%Z ->
     embed imageA options = Some a ->
     embed imageB options = None ->
     embed imageC options = Some c ->
     allSized options [imageA; imageB; imageC] ->
     pdfDoc (run [imageA; imageB; imageC] options onProgress)
     = [[drawingAt scale1 options a 0]; [drawingAt scale1 options c 0]]).
Proof.
  split; [|split].
  - intros total i image st He. cbv zeta.
    rewrite (processImage_failure options onProgress total i image st He).
    destruct onProgress; repeat split; reflexivity.
  - intros images _. apply generatePDF_drawn.
  - intros imageA imageB imageC a c Hipp Ha Hb Hc _.
    unfold generatePDF. rewrite reportProgress_pdfDoc.
    cbn [processImages length].
    pose proof initialState_at as Hst.
    iteration Ha Hipp. iteration Hb Hipp. iteration Hc Hipp.
    destruct Hst as [[-> _] _]. reflexivity.
Qed.


(** C1, at the input where it fails.  One image per page, a first image
    that embeds and a second that does not: one image is placed, and the
    document has two pages, the second of them empty, where
    [ceil(1 / 1)] is one. *)
Theorem generatePDF_trailing_empty_page
    (options : ConversionOptions) (onProgress : bool)
    (imageA imageB : ImageFile) (a : PDFImage) :
  imagesPerPage options = 1%Z ->
  embed imageA options = Some a ->
  embed imageB options = None ->
  let doc := pdfDoc (run [imageA; imageB] options onProgress) in
  doc = [[drawingAt scale1 options a 0]; []] /\
  length (concat doc) = 1%nat /\
  length doc = 2%nat /\
  Z.max 1 (Qceiling (inject_Z (Z.of_nat (length (concat doc)))
                     / inject_Z (imagesPerPage options))) = 1%Z.
Proof.
  intros Hipp Ha Hb. cbv zeta.
  assert (Hdoc : pdfDoc (run [imageA; imageB] options onProgress)
                 = [[drawingAt scale1 options a 0]; []]).
  { unfold generatePDF. rewrite reportProgress_pdfDoc.
    cbn [processImages length].
    pose proof initialState_at as Hst.
    iteration Ha Hipp. iteration Hb Hipp.
    destruct Hst as [[-> _] _]. reflexivity. }
  rewrite Hdoc, Hipp. repeat split; reflexivity.
Qed.

(** *** The loop, whatever fails *)

Lemma processImages_all_fail options b total rest :
  Forall (fun image => embed image options = None) rest ->
  forall i (st : @State PDFImage),
    pdfDoc (loop options b total i rest st) = pdfDoc st.
Proof.
  induction 1 as [|image rest He _ IH]; intros i st; [reflexivity|].
  cbn [processImages]. rewrite IH.
  rewrite (processImage_failure options b total i image st He).
  apply reportProgress_pdfDoc.
Qed.

(** Every drawing of the result was there before or is the draw call of
    an image of the list that embeds. *)
Lemma processImages_drawings options b total rest :
  forall i (st : @State PDFImage) closed current,
    lastPage st closed current ->
    exists closed' current',
      lastPage (loop options b total i rest st) closed' current' /\
      forall d, d ∈ concat (closed' ++ [current']) ->
        d ∈ concat (closed ++ [current]) \/
        exists image e slot,
          image ∈ rest /\ embed image options = Some e /\
          d = drawingAt scale1 options e slot.
Proof.
  induction rest as [|image rest IH]; intros i st closed current Hlast.
  - exists closed, current. split; [exact Hlast|]. intros d Hd. now left.
  - cbn [processImages].
    destruct (embed image options) as [e|] eqn:He.
    + pose proof (processImage_success options b total i image e st
                    closed current He Hlast) as Hstep.
      cbv zeta in Hstep.
      set (d0 := drawingAt scale1 options e (imagesOnCurrentPage st)) in *.
      assert (Hnew : forall closed1 current1 d,
                 concat (closed1 ++ [current1])
                 = concat (closed ++ [current]) ++ [d0] ->
                 d ∈ concat (closed1 ++ [current1]) ->
                 d ∈ concat (closed ++ [current]) \/
                 exists image0 e0 slot,
                   image0 ∈ image :: rest /\ embed image0 options = Some e0 /\
                   d = drawingAt scale1 options e0 slot).
      { intros closed1 current1 d Heq Hd. rewrite Heq in Hd.
        apply elem_of_app in Hd as [Hd | Hd]; [now left|].
        apply list_elem_of_singleton in Hd as ->. right.
        exists image, e, (imagesOnCurrentPage st).
        split; [apply list_elem_of_here|]. split; [exact He | reflexivity]. }
      destruct (_ && _); destruct Hstep as [Hlast' _];
        destruct (IH (S i) _ _ _ Hlast') as (closed' & current' & H1 & H2);
        exists closed', current'; (split; [exact H1|]); intros d Hd;
        (destruct (H2 d Hd) as [Hold | (image0 & e0 & slot & Hin & He0 & ->)];
         [ eapply Hnew; [|exact Hold];
           rewrite ?concat_new_page; apply concat_drawn
         | right; exists image0, e0, slot;
           split; [now apply list_elem_of_further|]; now split ]).
    + rewrite (processImage_failure options b total i image st He).
      destruct (IH (S i) _ closed current
                  (reportProgress_lastPage b (progressAt total i) st
                     closed current Hlast))
        as (closed' & current' & H1 & H2).
      exists closed', current'. split; [exact H1|]. intros d Hd.
      destruct (H2 d Hd) as [Hold | (image0 & e0 & slot & Hin & He0 & ->)];
        [now left|].
      right. exists image0, e0, slot.
      split; [now apply list_elem_of_further|]. now split.
Qed.

(** The pages: those before the last are full, the last holds at most
    [imagesPerPage] drawings, every drawing sits at its slot, and the
    full pages were filled before the last index. *)
Lemma processImages_pages options b total rest :
  (1 <= imagesPerPage options)%Z ->
  let k := Z.to_nat (imagesPerPage options) in
  forall i (st : @State PDFImage) closed current,
    (i + length rest = total)%nat ->
    lastPage st closed current ->
    Forall (fun page => length page = k) closed ->
    length current = imagesOnCurrentPage st ->
    Forall (slotsInOrder scale1 options) (closed ++ [current]) ->
    (k * length closed + length current <= i)%nat ->
    (k * length closed <= total - 1)%nat ->
    (imagesOnCurrentPage st <= k)%nat ->
    (rest <> [] -> (imagesOnCurrentPage st < k)%nat) ->
    exists closed' current',
      lastPage (loop options b total i rest st) closed' current' /\
      Forall (fun page => length page = k) closed' /\
      (length current' <= k)%nat /\
      Forall (slotsInOrder scale1 options) (closed' ++ [current']) /\
      (k * length closed' <= total - 1)%nat /\
      (forall image, last rest = Some image ->
         is_Some (embed image options) -> (1 <= length current')%nat).
Proof.
  intros Hipp k.
  induction rest as [|image rest IH];
    intros i st closed current Hlen Hlast Hfull Hcount Hslots Hplaced
      Hbefore Hle Hroom.
  - exists closed, current.
    split; [exact Hlast|]. split; [exact Hfull|]. split; [lia|].
    split; [exact Hslots|]. split; [exact Hbefore|].
    intros image Himage. discriminate.
  - assert (Hc : (imagesOnCurrentPage st < k)%nat)
      by (apply Hroom; discriminate).
    cbn [processImages length] in *.
    set (st' := step options b total i image st) in *.
    destruct (embed image options) as [e|] eqn:He.
    + pose proof (processImage_success options b total i image e st
                    closed current He Hlast) as Hstep.
      cbv zeta in Hstep. fold st' in Hstep.
      rewrite Forall_app, Forall_singleton in Hslots.
      destruct Hslots as [Hclosed Hcurrent].
      pose proof (slotsInOrder_snoc options current e Hcurrent) as Hnew.
      rewrite Hcount in Hnew.
      set (d := drawingAt scale1 options e (imagesOnCurrentPage st)) in *.
      destruct (Z.leb_spec (imagesPerPage options)
                  (Z.of_nat (S (imagesOnCurrentPage st)))) as [Hfill | Hfill];
        destruct (Nat.ltb_spec i (total - 1)) as [Hmore | Hend];
        cbn [andb] in Hstep; destruct Hstep as [Hlast' Hcount'].
      * destruct rest as [|image' rest]; [cbn in *; lia|].
        destruct (IH (S i) st' (closed ++ [current ++ [d]]) [])
          as (closed' & current' & H1 & H2 & H3 & H4 & H5 & H6).
        { cbn [length] in *. lia. }
        { exact Hlast'. }
        { apply Forall_app. split; [exact Hfull|]. apply Forall_singleton.
          rewrite length_app. cbn. lia. }
        { now rewrite Hcount'. }
        { rewrite !Forall_app, !Forall_singleton.
          split; [split; assumption|]. intros slot d' Hd'. discriminate. }
        { rewrite length_app. cbn [length]. nia. }
        { rewrite length_app. cbn [length]. nia. }
        { rewrite Hcount'. lia. }
        { intros _. rewrite Hcount'. lia. }
        exists closed', current'.
        split; [exact H1|]. split; [exact H2|]. split; [exact H3|].
        split; [exact H4|]. split; [exact H5|].
        intros image0 Himage0. apply H6. exact Himage0.
      * destruct rest; [|cbn in *; lia]. cbn [processImages].
        exists closed, (current ++ [d]).
        split; [exact Hlast'|]. split; [exact Hfull|].
        split; [rewrite length_app; cbn; lia|].
        split; [rewrite Forall_app, Forall_singleton; split; assumption|].
        split; [exact Hbefore|].
        intros _ _ _. rewrite length_app. cbn. lia.
      * destruct rest as [|image' rest]; [cbn in *; lia|].
        destruct (IH (S i) st' closed (current ++ [d]))
          as (closed' & current' & H1 & H2 & H3 & H4 & H5 & H6).
        { cbn [length] in *. lia. }
        { exact Hlast'. }
        { exact Hfull. }
        { rewrite length_app, Hcount'. cbn. lia. }
        { rewrite Forall_app, Forall_singleton. split; assumption. }
        { rewrite length_app. cbn [length]. lia. }
        { exact Hbefore. }
        { rewrite Hcount'. lia. }
        { intros _. rewrite Hcount'. lia. }
        exists closed', current'.
        split; [exact H1|]. split; [exact H2|]. split; [exact H3|].
        split; [exact H4|]. split; [exact H5|].
        intros image0 Himage0. apply H6. exact Himage0.
      * destruct rest; [|cbn in *; lia]. cbn [processImages].
        exists closed, (current ++ [d]).
        split; [exact Hlast'|]. split; [exact Hfull|].
        split; [rewrite length_app; cbn; lia|].
        split; [rewrite Forall_app, Forall_singleton; split; assumption|].
        split; [exact Hbefore|].
        intros _ _ _. rewrite length_app. cbn. lia.
    + destruct (processImage_failure_at options b total i image st closed
                  current (imagesOnCurrentPage st) He (conj Hlast eq_refl))
        as [Hlast' Hcount'].
      fold st' in Hlast', Hcount'.
      destruct (IH (S i) st' closed current)
        as (closed' & current' & H1 & H2 & H3 & H4 & H5 & H6).
      { lia. }
      { exact Hlast'. }
      { exact Hfull. }
      { now rewrite Hcount'. }
      { exact Hslots. }
      { lia. }
      { exact Hbefore. }
      { rewrite Hcount'. lia. }
      { intros _. rewrite Hcount'. lia. }
      exists closed', current'.
      split; [exact H1|]. split; [exact H2|]. split; [exact H3|].
      split; [exact H4|]. split; [exact H5|].
      intros image0 Himage0 Hsome. apply (H6 image0); [|exact Hsome].
      destruct rest as [|image' rest]; [|exact Himage0].
      cbn in Himage0. injection Himage0 as <-.
      destruct Hsome as [e He']. congruence.
Qed.

Lemma generatePDF_pages images options b :
  (1 <= imagesPerPage options)%Z ->
  let k := Z.to_nat (imagesPerPage options) in
  exists closed current,
    pdfDoc (run images options b) = closed ++ [current] /\
    Forall (fun page => length page = k) closed /\
    (length current <= k)%nat /\
    Forall (slotsInOrder scale1 options) (closed ++ [current]) /\
    (k * length closed <= length images - 1)%nat /\
    (forall image, last images = Some image ->
       is_Some (embed image options) -> (1 <= length current)%nat) /\
    length (omap (fun image => embed image options) images)
    = (k * length closed + length current)%nat.
Proof.
  intros Hipp k.
  destruct (processImages_pages options b (length images) images Hipp 0%nat
              initialState [] [])
    as (closed & current & [Hdoc _] & Hfull & Hcur & Hslots & Hbefore & Hlast);
    [ reflexivity | apply initialState_lastPage | constructor | reflexivity
    | repeat constructor; intros slot d Hd; discriminate
    | cbn; lia | cbn; lia | cbn; lia | intros _; cbn; lia |].
  fold k in Hfull, Hcur, Hbefore.
  assert (Hdoc' : pdfDoc (run images options b) = closed ++ [current]).
  { unfold generatePDF. now rewrite reportProgress_pdfDoc. }
  exists closed, current.
  split; [exact Hdoc'|]. split; [exact Hfull|]. split; [exact Hcur|].
  split; [exact Hslots|]. split; [exact Hbefore|]. split; [exact Hlast|].
  rewrite <- (generatePDF_drawn images options b), length_fmap, Hdoc'.
  rewrite concat_app, length_app, (full_pages_length k closed Hfull).
  cbn. now rewrite app_nil_r.
Qed.

(** Every drawing of the document comes from an image of the list that
    embeds, and is the draw call of some slot. *)
Lemma generatePDF_drawings images options b d page :
  page ∈ pdfDoc (run images options b) -> d ∈ page ->
  exists image e slot,
    image ∈ images /\ embed image options = Some e /\
    d = drawingAt scale1 options e slot.
Proof.
  intros Hpage Hd.
  destruct (processImages_drawings options b (length images) images
              0%nat initialState [] [] initialState_lastPage)
    as (closed & current & [Hdoc _] & Hall).
  assert (Hin : d ∈ concat (closed ++ [current])).
  { rewrite <- Hdoc. unfold generatePDF in Hpage.
    rewrite reportProgress_pdfDoc in Hpage.
    apply list_elem_of_In, in_concat. exists page.
    split; apply list_elem_of_In; assumption. }
  destruct (Hall d Hin) as [Hold | H]; [|exact H].
  cbn in Hold. inversion Hold.
Qed.

(** X5.  With a margin of one unit or more, cells that are not negative
    and embedded images that have pixels, every image of the document is
    drawn with a width and a height that are not negative, strictly
    inside its page, in the bottom-up coordinates of the draw call,
    whichever images failed. *)
Theorem generatePDF_drawings_inside_page
    (images : list ImageFile) (options : ConversionOptions)
    (onProgress : bool) :
  let pageWidth := width (pageDimensions options) in
  let pageHeight := height (pageDimensions options) in
  let margin := margin options in
  1 <= margin ->
  0 <= cellWidth (imagesPerPage options) (pageWidth - margin * 2) ->
  0 <= cellHeight (imagesPerPage options) (pageHeight - margin * 2) ->
  allSized options images ->
  forall page d,
    page ∈ pdfDoc (run images options onProgress) -> d ∈ page ->
    exists r,
      drawnAt d = Some r /\
      0 <= DrawOptions.width r /\ 0 <= DrawOptions.height r /\
      0 < DrawOptions.x r /\
      DrawOptions.x r + DrawOptions.width r < pageWidth /\
      0 < DrawOptions.y r /\
      DrawOptions.y r + DrawOptions.height r < pageHeight.
Proof.
  cbv zeta. intros Hm Hcw Hch [_ Hpos] page d Hpage Hd.
  destruct (generatePDF_drawings images options onProgress d page Hpage Hd)
    as (image & e & slot & Himage & He & ->).
  destruct (Hpos image e Himage He) as [Hw1 Hh1].
  assert (Hw : 0 < width (scale1 e)) by lra.
  assert (Hh : 0 < height (scale1 e)) by lra.
  set (pageWidth := width (pageDimensions options)) in *.
  set (pageHeight := height (pageDimensions options)) in *.
  assert (Hmw : margin options * 2 <= pageWidth).
  { revert Hcw. unfold cellWidth. destruct (_ || _); [|lra].
    intros Hcw.
    assert ((pageWidth - margin options * 2) / 2 * 2
            == pageWidth - margin options * 2) by field.
    lra. }
  assert (Hmh : margin options * 2 <= pageHeight).
  { revert Hch. unfold cellHeight. destruct (_ =? _)%Z; [|lra].
    intros Hch.
    assert ((pageHeight - margin options * 2) / 2 * 2
            == pageHeight - margin options * 2) by field.
    lra. }
  destruct (calculateImageDimensions_within_margins
              (width (scale1 e)) (height (scale1 e)) (imagesPerPage options)
              slot (margin options) pageWidth pageHeight Hw Hh Hmw Hmh)
    as (p & Hp & Hx & Hxw & Hy & Hyh).
  destruct (calculateImageDimensions_size_nonneg
              (width (scale1 e)) (height (scale1 e))
              (pageWidth - margin options * 2)
              (pageHeight - margin options * 2) (imagesPerPage options)
              (Z.of_nat slot) (margin options) pageWidth pageHeight
              Hw Hh Hcw Hch)
    as (p' & Hp' & Hsw & Hsh).
  rewrite Hp in Hp'. injection Hp' as <-.
  exists (flipY pageHeight p).
  split; [unfold drawingAt; cbn [drawnAt]; fold pageWidth pageHeight;
          now rewrite Hp|].
  unfold flipY. cbn. repeat split; lra.
Qed.

(** X4.  With two or four images per page, a margin that is not
    negative, cells that are not negative and embedded images that have
    pixels, two drawings of the same page do not overlap: one of them
    ends left of where the other begins, or below it. *)
Theorem generatePDF_drawings_disjoint
    (images : list ImageFile) (options : ConversionOptions)
    (onProgress : bool) :
  let pageWidth := width (pageDimensions options) in
  let pageHeight := height (pageDimensions options) in
  let margin := margin options in
  (imagesPerPage options = 2 \/ imagesPerPage options = 4)%Z ->
  0 <= margin ->
  0 <= cellWidth (imagesPerPage options) (pageWidth - margin * 2) ->
  0 <= cellHeight (imagesPerPage options) (pageHeight - margin * 2) ->
  allSized options images ->
  forall page slot1 slot2 d1 d2,
    page ∈ pdfDoc (run images options onProgress) ->
    slot1 <> slot2 ->
    page !! slot1 = Some d1 -> page !! slot2 = Some d2 ->
    exists r1 r2,
      drawnAt d1 = Some r1 /\ drawnAt d2 = Some r2 /\
      0 <= DrawOptions.width r1 /\ 0 <= DrawOptions.height r1 /\
      0 <= DrawOptions.width r2 /\ 0 <= DrawOptions.height r2 /\
      (DrawOptions.x r1 + DrawOptions.width r1 < DrawOptions.x r2 \/
       DrawOptions.x r2 + DrawOptions.width r2 < DrawOptions.x r1 \/
       DrawOptions.y r1 + DrawOptions.height r1 < DrawOptions.y r2 \/
       DrawOptions.y r2 + DrawOptions.height r2 < DrawOptions.y r1).
Proof.
  cbv zeta.
  intros Hmode _ Hcw Hch [_ Hpos] page slot1 slot2 d1 d2 Hpage Hne H1 H2.
  destruct (generatePDF_pages images options onProgress)
    as (closed & current & Hdoc & Hfull & Hcur & Hslots & _); [lia|].
  set (k := Z.to_nat (imagesPerPage options)) in *.
  rewrite Hdoc in Hpage.
  assert (Hlen : (length page <= k)%nat).
  { apply elem_of_app in Hpage as [Hpage | Hpage].
    - apply list_elem_of_lookup in Hpage as [n Hn].
      rewrite (Forall_lookup_1 _ _ _ _ Hfull Hn). lia.
    - apply list_elem_of_singleton in Hpage. now subst page. }
  assert (Hin : slotsInOrder scale1 options page).
  { apply list_elem_of_lookup in Hpage as [n Hn].
    exact (Forall_lookup_1 _ _ _ _ Hslots Hn). }
  assert (Hs1 : (slot1 < k)%nat)
    by (apply lookup_lt_Some in H1; lia).
  assert (Hs2 : (slot2 < k)%nat)
    by (apply lookup_lt_Some in H2; lia).
  rewrite <- Hdoc in Hpage.
  destruct (generatePDF_drawings images options onProgress d1 page Hpage)
    as (image1 & e1 & s1 & Hi1 & He1 & Hd1);
    [eapply list_elem_of_lookup_2; exact H1|].
  destruct (generatePDF_drawings images options onProgress d2 page Hpage)
    as (image2 & e2 & s2 & Hi2 & He2 & Hd2);
    [eapply list_elem_of_lookup_2; exact H2|].
  destruct (Hpos image1 e1 Hi1 He1) as [Hw1' Hh1'].
  destruct (Hpos image2 e2 Hi2 He2) as [Hw2' Hh2'].
  assert (Hw1 : 0 < width (scale1 e1)) by lra.
  assert (Hh1 : 0 < height (scale1 e1)) by lra.
  assert (Hw2 : 0 < width (scale1 e2)) by lra.
  assert (Hh2 : 0 < height (scale1 e2)) by lra.
  pose proof (Hin slot1 d1 H1) as E1. pose proof (Hin slot2 d2 H2) as E2.
  assert (G1 : drawnImage d1 = e1) by (rewrite Hd1; reflexivity).
  assert (G2 : drawnImage d2 = e2) by (rewrite Hd2; reflexivity).
  rewrite G1 in E1. rewrite G2 in E2. clear Hd1 Hd2 G1 G2. subst d1 d2.
  set (pageWidth := width (pageDimensions options)) in *.
  set (pageHeight := height (pageDimensions options)) in *.
  destruct (calculateImageDimensions_slots_apart
              (width (scale1 e1)) (height (scale1 e1))
              (width (scale1 e2)) (height (scale1 e2))
              (pageWidth - margin options * 2)
              (pageHeight - margin options * 2)
              (imagesPerPage options) (Z.of_nat slot1) (Z.of_nat slot2)
              (margin options) pageWidth pageHeight)
    as (p1 & p2 & Hp1 & Hp2 & Hapart);
    [assumption | assumption | assumption | assumption | exact Hmode
     | lia | lia | lia |].
  destruct (calculateImageDimensions_size_nonneg
              (width (scale1 e1)) (height (scale1 e1))
              (pageWidth - margin options * 2)
              (pageHeight - margin options * 2) (imagesPerPage options)
              (Z.of_nat slot1) (margin options) pageWidth pageHeight
              Hw1 Hh1 Hcw Hch)
    as (p1' & Hp1' & Hsw1 & Hsh1).
  destruct (calculateImageDimensions_size_nonneg
              (width (scale1 e2)) (height (scale1 e2))
              (pageWidth - margin options * 2)
              (pageHeight - margin options * 2) (imagesPerPage options)
              (Z.of_nat slot2) (margin options) pageWidth pageHeight
              Hw2 Hh2 Hcw Hch)
    as (p2' & Hp2' & Hsw2 & Hsh2).
  rewrite Hp1 in Hp1'. injection Hp1' as <-.
  rewrite Hp2 in Hp2'. injection Hp2' as <-.
  exists (flipY pageHeight p1), (flipY pageHeight p2).
  split; [unfold drawingAt; cbn [drawnAt]; fold pageWidth pageHeight;
          now rewrite Hp1|].
  split; [unfold drawingAt; cbn [drawnAt]; fold pageWidth pageHeight;
          now rewrite Hp2|].
  unfold flipY. cbn.
  repeat (split; [assumption|]).
  destruct Hapart as [H | [H | [H | H]]];
    [left | right; left | right; right; right | right; right; left]; lra.
Qed.

(** X7.  Whichever images fail, with 1, 2 or 4 images per page no page
    holds more than [imagesPerPage] drawings, every page before the last
    holds exactly that many, and the drawing at position [slot] of a page
    was given the rectangle of slot [slot]. *)
Theorem generatePDF_page_capacity
    (images : list ImageFile) (options : ConversionOptions)
    (onProgress : bool) :
  (imagesPerPage options = 1 \/ imagesPerPage options = 2
   \/ imagesPerPage options = 4)%Z ->
  let doc := pdfDoc (run images options onProgress) in
  let k := Z.to_nat (imagesPerPage options) in
  forall n page,
    doc !! n = Some page ->
    (length page <= k)%nat /\
    (S n < length doc -> length page = k)%nat /\
    forall slot d,
      page !! slot = Some d ->
      d = drawingAt scale1 options (drawnImage d) slot.
Proof.
  intros Hmode. cbv zeta.
  destruct (generatePDF_pages images options onProgress)
    as (closed & current & Hdoc & Hfull & Hcur & Hslots & _); [lia|].
  rewrite Hdoc. intros n page Hn.
  split; [|split].
  - apply lookup_app_Some in Hn as [Hn | [_ Hn]].
    + rewrite (Forall_lookup_1 _ _ _ _ Hfull Hn). lia.
    + destruct (n - length closed)%nat; [|destruct n0; discriminate].
      cbn in Hn. injection Hn as <-. exact Hcur.
  - rewrite length_app. cbn [length]. intros Hlt.
    rewrite lookup_app_l in Hn by lia.
    exact (Forall_lookup_1 _ _ _ _ Hfull Hn).
  - exact (Forall_lookup_1 _ _ _ _ Hslots Hn).
Qed.

(** X8.  If the last image of the list embeds (the run being
    [drawable]), the last page is not empty and the document has
    [ceil(placed / imagesPerPage)] pages, [placed] being the number of
    images that embed. *)
Theorem generatePDF_last_image_embeds
    (images : list ImageFile) (options : ConversionOptions)
    (onProgress : bool) (image : ImageFile) :
  (imagesPerPage options = 1 \/ imagesPerPage options = 2
   \/ imagesPerPage options = 4)%Z ->
  last images = Some image -> is_Some (embed image options) ->
  allSized options images ->
  let doc := pdfDoc (run images options onProgress) in
  let placed := length (omap (fun image => embed image options) images) in
  (exists page, last doc = Some page /\ page <> []) /\
  Z.of_nat (length doc)
  = Qceiling (inject_Z (Z.of_nat placed) / inject_Z (imagesPerPage options)).
Proof.
  intros Hmode Himage Hsome _. cbv zeta.
  destruct (generatePDF_pages images options onProgress)
    as (closed & current & Hdoc & Hfull & Hcur & _ & _ & Hlast & Hplaced);
    [lia|].
  specialize (Hlast image Himage Hsome).
  rewrite Hdoc, Hplaced. split.
  - exists current. split; [apply last_snoc|].
    intros ->. cbn in Hlast. lia.
  - rewrite length_app. cbn [length].
    set (k := Z.to_nat (imagesPerPage options)) in *.
    replace (inject_Z (imagesPerPage options)) with (inject_Z (Z.of_nat k))
      by (unfold k; now rewrite Z2Nat.id by lia).
    rewrite (Nat2Z.inj_add (k * length closed)), Nat2Z.inj_mul.
    rewrite Qceiling_pages by lia. lia.
Qed.

(** X9.  If no image embeds (so also for the empty list) the document is
    one empty page. *)
Theorem generatePDF_nothing_embeds
    (images : list ImageFile) (options : ConversionOptions)
    (onProgress : bool) :
  Forall (fun image => embed image options = None) images ->
  pdfDoc (run images options onProgress) = [[]].
Proof.
  intros Hfail. unfold generatePDF.
  rewrite reportProgress_pdfDoc.
  now rewrite (processImages_all_fail options onProgress _ images Hfail).
Qed.

(** X10.  For a list that is not empty the document never has more pages
    than the settings panel shows, [ceil(imageCount / imagesPerPage)],
    and it has exactly that many when every image embeds (the run
    being [drawable]). *)
Theorem generatePDF_pages_vs_displayed
    (images : list ImageFile) (options : ConversionOptions)
    (onProgress : bool) :
  (imagesPerPage options = 1 \/ imagesPerPage options = 2
   \/ imagesPerPage options = 4)%Z ->
  images <> [] ->
  let doc := pdfDoc (run images options onProgress) in
  (Z.of_nat (length doc) <= displayedPages (length images) options)%Z /\
  (Forall (fun image => is_Some (embed image options)) images ->
   allSized options images ->
   Z.of_nat (length doc) = displayedPages (length images) options).
Proof.
  intros Hmode Hne. cbv zeta. unfold displayedPages.
  destruct (generatePDF_pages images options onProgress)
    as (closed & current & Hdoc & Hfull & Hcur & _ & Hbefore & Hlast
        & Hplaced); [lia|].
  set (k := Z.to_nat (imagesPerPage options)) in *.
  assert (Hn : (1 <= length images)%nat)
    by (destruct images; [congruence | cbn; lia]).
  assert (Hk : inject_Z (imagesPerPage options) = inject_Z (Z.of_nat k))
    by (unfold k; now rewrite Z2Nat.id by lia).
  rewrite Hdoc, length_app, Hk. cbn [length]. split.
  - set (q := inject_Z (Z.of_nat (length images)) / inject_Z (Z.of_nat k)).
    assert (Hkq : 0 < inject_Z (Z.of_nat k))
      by (rewrite <- (Zlt_Qlt 0); lia).
    assert (Hlo : inject_Z (Z.of_nat (length closed)) < q).
    { apply Qlt_shift_div_l; [exact Hkq|].
      rewrite <- inject_Z_mult, <- Zlt_Qlt. nia. }
    pose proof (Qle_ceiling q) as Hceil.
    assert (Hlt : inject_Z (Z.of_nat (length closed))
                  < inject_Z (Qceiling q)) by lra.
    rewrite <- Zlt_Qlt in Hlt. lia.
  - intros Hall _.
    rewrite (omap_length_all _ _ Hall) in Hplaced.
    destruct (exists_last Hne) as (front & image & Himages).
    assert (Hcur1 : (1 <= length current)%nat).
    { apply (Hlast image).
      - rewrite Himages. apply last_snoc.
      - rewrite Himages, Forall_app, Forall_singleton in Hall.
        exact (proj2 Hall). }
    rewrite Hplaced.
    rewrite (Nat2Z.inj_add (k * length closed)), Nat2Z.inj_mul.
    rewrite Qceiling_pages by lia. lia.
Qed.

End AssemblerFacts.

(** ** The assembler run on three-byte files *)

(** The three-byte files that embed have pixels, and the margin is 20. *)
Lemma Toy_drawable (k : Z) (images : list ImageFile) :
  Forall (fun image => image = Toy.validA \/ image = Toy.corruptB \/
                       image = Toy.validC \/ image = Toy.validD) images ->
  drawable Toy.fileToArrayBuffer Toy.imageToCanvas Toy.canvasToJpeg
    Toy.embedPng Toy.embedJpg Toy.intrinsic (Toy.options k) images.
Proof.
  intros Hall. split; [vm_compute; discriminate|].
  intros image e Hin He.
  apply list_elem_of_lookup in Hin as [n Hn].
  destruct (Forall_lookup_1 _ _ _ _ Hall Hn) as [-> | [-> | [-> | ->]]];
    vm_compute in He; inversion He; split; discriminate.
Qed.

Lemma embedImage_by_media_type_witness :
  let images := [Toy.validA; Toy.validC; Toy.validD] in
  Toy.embed Toy.validA (Toy.options 1)
  = Toy.fileToArrayBuffer (file Toy.validA) ≫= Toy.embedPng /\
  Toy.embed Toy.validC (Toy.options 1)
  = Toy.fileToArrayBuffer (file Toy.validC) ≫= Toy.embedJpg /\
  Toy.embed Toy.validD (Toy.options 1)
  = (Toy.fileToArrayBuffer (file Toy.validD) ≫= fun _ =>
     Toy.imageToCanvas (file Toy.validD) ≫= fun canvas =>
     Toy.canvasToJpeg canvas (9 # 10) ≫= Toy.embedJpg) /\
  drawnImage <$> concat (pdfDoc (Toy.generate images (Toy.options 1) true))
  = [{| Toy.encoded := [Byte.x50; Byte.x28; Byte.x1e];
        Toy.intrinsic := {| width := 40; height := 30 |} |};
     {| Toy.encoded := [Byte.x4a; Byte.x28; Byte.x1e];
        Toy.intrinsic := {| width := 40; height := 30 |} |};
     {| Toy.encoded := [Byte.x4a; Byte.x28; Byte.x1e];
        Toy.intrinsic := {| width := 40; height := 30 |} |}] /\
  Toy.generate [Toy.validA; Toy.validC] (Toy.options 1) true
  = Toy.generate [Toy.validA; Toy.validC]
      {| pageSize := A4; orientation := portrait; margin := 20;
         quality := low; filename := "images-converted.pdf";
         imagesPerPage := 1 |} true.
Proof.
  cbv zeta.
  destruct (embedImage_by_media_type Toy.fileToArrayBuffer Toy.imageToCanvas
              Toy.canvasToJpeg Toy.embedPng Toy.embedJpg Toy.intrinsic
              [Toy.validA; Toy.validC; Toy.validD] (Toy.options 1) true)
    as (Hform & _ & _ & _ & Hdrawn & _).
  destruct (embedImage_by_media_type Toy.fileToArrayBuffer Toy.imageToCanvas
              Toy.canvasToJpeg Toy.embedPng Toy.embedJpg Toy.intrinsic
              [Toy.validA; Toy.validC] (Toy.options 1) true)
    as (_ & _ & _ & _ & _ & _ & Hquality).
  split; [exact (Hform Toy.validA)|].
  split; [exact (Hform Toy.validC)|].
  split; [exact (Hform Toy.validD)|].
  split.
  - unfold Toy.generate. rewrite Hdrawn; [reflexivity|].
    apply Toy_drawable.
    repeat (apply List.Forall_cons; [auto 6|]). apply List.Forall_nil.
  - apply (Hquality low).
    constructor; [left; reflexivity|].
    constructor; [right; right; reflexivity|].
    constructor.
Defined.

Lemma generatePDF_progress_witness :
  emitted (Toy.generate [Toy.validA; Toy.corruptB; Toy.validC]
             (Toy.options 1) true)
  = [0 / 3 * 100; 1 / 3 * 100; 2 / 3 * 100; 100].
Proof.
  exact (proj1 (generatePDF_progress Toy.fileToArrayBuffer Toy.imageToCanvas
                  Toy.canvasToJpeg Toy.embedPng Toy.embedJpg Toy.intrinsic
                  [Toy.validA; Toy.corruptB; Toy.validC] (Toy.options 1))).
Defined.

Lemma generatePDF_skips_failing_images_witness :
  exists a c,
    Toy.embed Toy.validA (Toy.options 1) = Some a /\
    Toy.embed Toy.corruptB (Toy.options 1) = None /\
    Toy.embed Toy.validC (Toy.options 1) = Some c /\
    pdfDoc (Toy.generate [Toy.validA; Toy.corruptB; Toy.validC]
              (Toy.options 1) true)
    = [[drawingAt Toy.intrinsic (Toy.options 1) a 0];
       [drawingAt Toy.intrinsic (Toy.options 1) c 0]].
Proof.
  eexists. eexists.
  split; [reflexivity|]. split; [reflexivity|]. split; [reflexivity|].
  apply (generatePDF_skips_failing_images Toy.fileToArrayBuffer
           Toy.imageToCanvas Toy.canvasToJpeg Toy.embedPng Toy.embedJpg
           Toy.intrinsic (Toy.options 1) true);
    try reflexivity.
  apply Toy_drawable.
  repeat (apply List.Forall_cons; [auto 6|]). apply List.Forall_nil.
Defined.


Lemma generatePDF_trailing_empty_page_witness :
  exists a,
    Toy.embed Toy.validA (Toy.options 1) = Some a /\
    Toy.embed Toy.corruptB (Toy.options 1) = None /\
    let doc := pdfDoc (Toy.generate [Toy.validA; Toy.corruptB]
                         (Toy.options 1) true) in
    doc = [[drawingAt Toy.intrinsic (Toy.options 1) a 0]; []] /\
    length (concat doc) = 1%nat /\
    length doc = 2%nat /\
    Z.max 1 (Qceiling (inject_Z (Z.of_nat (length (concat doc))) / 1)) = 1%Z.
Proof.
  eexists. split; [reflexivity|]. split; [reflexivity|].
  apply (generatePDF_trailing_empty_page Toy.fileToArrayBuffer
           Toy.imageToCanvas Toy.canvasToJpeg Toy.embedPng Toy.embedJpg
           Toy.intrinsic (Toy.options 1) true Toy.validA Toy.corruptB);
    reflexivity.
Defined.


Lemma generatePDF_drawings_inside_page_witness :
  Forall
    (fun page =>
       Forall
         (fun d =>
            exists r,
              drawnAt d = Some r /\
              0 <= DrawOptions.width r /\ 0 <= DrawOptions.height r /\
              0 < DrawOptions.x r /\
              DrawOptions.x r + DrawOptions.width r < 595 /\
              0 < DrawOptions.y r /\
              DrawOptions.y r + DrawOptions.height r < 842)
         page)
    (pdfDoc (Toy.generate [Toy.validA; Toy.corruptB; Toy.validC]
               (Toy.options 2) true)).
Proof.
  apply Forall_forall. intros page Hpage.
  apply Forall_forall. intros d Hd.
  apply (generatePDF_drawings_inside_page Toy.fileToArrayBuffer
           Toy.imageToCanvas Toy.canvasToJpeg Toy.embedPng Toy.embedJpg
           Toy.intrinsic [Toy.validA; Toy.corruptB; Toy.validC]
           (Toy.options 2) true) with page.
  - discriminate.
  - discriminate.
  - discriminate.
  - apply Toy_drawable.
    repeat (apply List.Forall_cons; [auto 6|]). apply List.Forall_nil.
  - exact Hpage.
  - exact Hd.
Defined.

Lemma generatePDF_drawings_disjoint_witness :
  Forall
    (fun page =>
       forall slot1 slot2 d1 d2,
         slot1 <> slot2 ->
         page !! slot1 = Some d1 -> page !! slot2 = Some d2 ->
         exists r1 r2,
           drawnAt d1 = Some r1 /\ drawnAt d2 = Some r2 /\
           0 <= DrawOptions.width r1 /\ 0 <= DrawOptions.height r1 /\
           0 <= DrawOptions.width r2 /\ 0 <= DrawOptions.height r2 /\
           (DrawOptions.x r1 + DrawOptions.width r1 < DrawOptions.x r2 \/
            DrawOptions.x r2 + DrawOptions.width r2 < DrawOptions.x r1 \/
            DrawOptions.y r1 + DrawOptions.height r1 < DrawOptions.y r2 \/
            DrawOptions.y r2 + DrawOptions.height r2 < DrawOptions.y r1))
    (pdfDoc (Toy.generate [Toy.validA; Toy.corruptB; Toy.validC; Toy.validD]
               (Toy.options 4) true)).
Proof.
  apply Forall_forall. intros page Hpage slot1 slot2 d1 d2 Hne H1 H2.
  apply (generatePDF_drawings_disjoint Toy.fileToArrayBuffer
           Toy.imageToCanvas Toy.canvasToJpeg Toy.embedPng Toy.embedJpg
           Toy.intrinsic [Toy.validA; Toy.corruptB; Toy.validC; Toy.validD]
           (Toy.options 4) true) with page slot1 slot2.
  - right; reflexivity.
  - discriminate.
  - discriminate.
  - discriminate.
  - apply Toy_drawable.
    repeat (apply List.Forall_cons; [auto 6|]). apply List.Forall_nil.
  - exact Hpage.
  - exact Hne.
  - exact H1.
  - exact H2.
Defined.

Lemma generatePDF_page_capacity_witness :
  Forall (fun page => (length page <= 2)%nat)
    (pdfDoc (Toy.generate
               [Toy.validA; Toy.corruptB; Toy.validC; Toy.validA]
               (Toy.options 2) true)).
Proof.
  apply Forall_lookup. intros n page Hn.
  apply (generatePDF_page_capacity Toy.fileToArrayBuffer Toy.imageToCanvas
           Toy.canvasToJpeg Toy.embedPng Toy.embedJpg Toy.intrinsic
           [Toy.validA; Toy.corruptB; Toy.validC; Toy.validA]
           (Toy.options 2) true) with n.
  - right; left; reflexivity.
  - exact Hn.
Defined.

Lemma generatePDF_last_image_embeds_witness :
  let images := [Toy.validA; Toy.corruptB; Toy.validC] in
  let doc := pdfDoc (Toy.generate images (Toy.options 1) true) in
  (exists page, last doc = Some page /\ page <> []) /\
  Z.of_nat (length doc) = Qceiling (2 / 1).
Proof.
  apply (generatePDF_last_image_embeds Toy.fileToArrayBuffer
           Toy.imageToCanvas Toy.canvasToJpeg Toy.embedPng Toy.embedJpg
           Toy.intrinsic [Toy.validA; Toy.corruptB; Toy.validC]
           (Toy.options 1) true Toy.validC).
  - left; reflexivity.
  - reflexivity.
  - eexists; reflexivity.
  - apply Toy_drawable.
    repeat (apply List.Forall_cons; [auto 6|]). apply List.Forall_nil.
Defined.

Lemma generatePDF_nothing_embeds_witness :
  pdfDoc (Toy.generate [Toy.corruptB; Toy.corruptB] (Toy.options 4) true)
  = [[]].
Proof.
  apply (generatePDF_nothing_embeds Toy.fileToArrayBuffer Toy.imageToCanvas
           Toy.canvasToJpeg Toy.embedPng Toy.embedJpg Toy.intrinsic
           [Toy.corruptB; Toy.corruptB] (Toy.options 4) true).
  repeat constructor.
Defined.

Lemma generatePDF_pages_vs_displayed_witness :
  let images := [Toy.validA; Toy.validC; Toy.validD] in
  let doc := pdfDoc (Toy.generate images (Toy.options 2) true) in
  (Z.of_nat (length doc) <= displayedPages 3 (Toy.options 2))%Z /\
  Z.of_nat (length doc) = displayedPages 3 (Toy.options 2).
Proof.
  cbv zeta.
  destruct (generatePDF_pages_vs_displayed Toy.fileToArrayBuffer
              Toy.imageToCanvas Toy.canvasToJpeg Toy.embedPng Toy.embedJpg
              Toy.intrinsic [Toy.validA; Toy.validC; Toy.validD]
              (Toy.options 2) true) as [Hle Heq].
  - right; left; reflexivity.
  - discriminate.
  - split; [exact Hle|]. apply Heq.
    + repeat (apply List.Forall_cons; [eexists; reflexivity|]).
      apply List.Forall_nil.
    + apply Toy_drawable.
      repeat (apply List.Forall_cons; [auto 6|]). apply List.Forall_nil.
Defined.

(** ** The settings form *)

(** X11.  With a margin from the slider of the settings form (0 to 50)
    and 1, 2 or 4 images per page, for every page size and orientation
    the margin is less than half of each page dimension and the cell of a
    slot has positive width and height. *)
Theorem settings_form_cells_positive (options : ConversionOptions) :
  0 <= margin options <= 50 ->
  (imagesPerPage options = 1 \/ imagesPerPage options = 2
   \/ imagesPerPage options = 4)%Z ->
  let pageWidth := width (pageDimensions options) in
  let pageHeight := height (pageDimensions options) in
  let margin := margin options in
  margin * 2 < pageWidth /\ margin * 2 < pageHeight /\
  0 < cellWidth (imagesPerPage options) (pageWidth - margin * 2) /\
  0 < cellHeight (imagesPerPage options) (pageHeight - margin * 2).
Proof.
  intros [Hlo Hhi] Hmode. cbv zeta.
  assert (Hw : 595 <= width (pageDimensions options))
    by (unfold pageDimensions;
        destruct (pageSize options), (orientation options); cbn; lra).
  assert (Hh : 595 <= height (pageDimensions options))
    by (unfold pageDimensions;
        destruct (pageSize options), (orientation options); cbn; lra).
  set (pw := width (pageDimensions options)) in *.
  set (ph := height (pageDimensions options)) in *.
  assert (Ew : (pw - margin options * 2) / 2 * 2 == pw - margin options * 2)
    by field.
  assert (Eh : (ph - margin options * 2) / 2 * 2 == ph - margin options * 2)
    by field.
  unfold cellWidth, cellHeight.
  destruct Hmode as [-> | [-> | ->]]; cbn [orb Z.eqb Pos.eqb];
    repeat split; lra.
Qed.

Lemma settings_form_cells_positive_witness :
  let options := Toy.options 4 in
  let pageWidth := width (pageDimensions options) in
  let pageHeight := height (pageDimensions options) in
  20 * 2 < pageWidth /\ 20 * 2 < pageHeight /\
  0 < cellWidth 4 (pageWidth - 20 * 2) /\
  0 < cellHeight 4 (pageHeight - 20 * 2).
Proof.
  apply (settings_form_cells_positive (Toy.options 4)).
  - split; discriminate.
  - right; right; reflexivity.
Defined.

(** ** Reordering: there and back, and out of range *)

(** X12.  Moving an item from [dragIndex] to [hoverIndex] and then from
    [hoverIndex] back to [dragIndex] restores the list, for indices in
    range. *)
Theorem handleImageReorder_round_trip
    {A : Type} (undefined : A) (prev : list A) (dragIndex hoverIndex : nat) :
  (dragIndex < length prev)%nat -> (hoverIndex < length prev)%nat ->
  handleImageReorder undefined hoverIndex dragIndex
    (handleImageReorder undefined dragIndex hoverIndex prev)
  = prev.
Proof.
  intros Hd Hh.
  destruct (lookup_lt_is_Some_2 prev dragIndex Hd) as [item Hitem].
  assert (Hlen : length (delete dragIndex prev) = (length prev - 1)%nat)
    by (apply length_delete; eauto).
  assert (Hle : (hoverIndex <= length (delete dragIndex prev))%nat) by lia.
  unfold handleImageReorder at 2. unfold splice_remove.
  rewrite (nth_lookup_Some _ _ _ _ Hitem).
  set (moved := splice_insert hoverIndex item (delete dragIndex prev)).
  unfold handleImageReorder, splice_remove.
  rewrite (nth_lookup_Some moved hoverIndex undefined item)
    by (apply splice_insert_lookup; exact Hle).
  unfold moved. rewrite splice_insert_delete by exact Hle.
  unfold splice_insert. rewrite delete_take_drop.
  rewrite take_app_length' by (rewrite length_take; lia).
  rewrite drop_app_length' by (rewrite length_take; lia).
  apply take_drop_middle. exact Hitem.
Qed.

Lemma handleImageReorder_round_trip_witness :
  handleImageReorder 0%nat 1 3
    (handleImageReorder 0%nat 3 1 [10; 11; 12; 13; 14]%nat)
  = [10; 11; 12; 13; 14]%nat.
Proof.
  apply (handleImageReorder_round_trip 0%nat [10; 11; 12; 13; 14]%nat 3 1);
    cbn; lia.
Defined.

(** X13.  Out of range.  A [dragIndex] past the end removes nothing and
    inserts [undefined]: the list grows by one entry that is no image.  A
    [hoverIndex] at or past the last position moves the dragged item to
    the end. *)
Theorem handleImageReorder_out_of_range
    {A : Type} (undefined : A) (prev : list A) (dragIndex hoverIndex : nat) :
  ((length prev <= dragIndex)%nat ->
   handleImageReorder undefined dragIndex hoverIndex prev
   = take hoverIndex prev ++ undefined :: drop hoverIndex prev /\
   length (handleImageReorder undefined dragIndex hoverIndex prev)
   = S (length prev)) /\
  (forall item,
     prev !! dragIndex = Some item ->
     (length prev - 1 <= hoverIndex)%nat ->
     handleImageReorder undefined dragIndex hoverIndex prev
     = delete dragIndex prev ++ [item]).
Proof.
  split.
  - intros Hd. unfold handleImageReorder, splice_remove.
    rewrite nth_lookup, (lookup_ge_None_2 prev dragIndex Hd). cbn [default].
    assert (Hsame : delete dragIndex prev = prev).
    { rewrite delete_take_drop, (take_ge prev dragIndex Hd).
      rewrite drop_ge by lia. apply app_nil_r. }
    rewrite Hsame.
    split; [reflexivity | apply splice_insert_length].
  - intros item Hitem Hh. unfold handleImageReorder, splice_remove.
    rewrite (nth_lookup_Some _ _ _ _ Hitem). unfold splice_insert.
    assert (Hlen : length (delete dragIndex prev) = (length prev - 1)%nat)
      by (apply length_delete; eauto).
    rewrite take_ge, drop_ge by lia. reflexivity.
Qed.

Lemma handleImageReorder_out_of_range_witness :
  (handleImageReorder 0%nat 7 1 [10; 11; 12]%nat = [10; 0; 11; 12]%nat /\
   length (handleImageReorder 0%nat 7 1 [10; 11; 12]%nat) = 4%nat) /\
  handleImageReorder 0%nat 0 9 [10; 11; 12]%nat = [11; 12; 10]%nat.
Proof.
  destruct (handleImageReorder_out_of_range 0%nat [10; 11; 12]%nat 7 1)
    as [Hdrag _].
  destruct (handleImageReorder_out_of_range 0%nat [10; 11; 12]%nat 0 9)
    as [_ Hhover].
  split.
  - apply Hdrag. cbn. lia.
  - apply (Hhover 10%nat); [reflexivity | cbn; lia].
Defined.

(** ** The component state *)

Lemma bfilter_length {A : Type} (f : A -> bool) (l : list A) :
  (length (List.filter f l) <= length l)%nat.
Proof. induction l as [|a l IH]; cbn; [lia|]. destruct (f a); cbn; lia. Qed.

Lemma bfilter_true {A : Type} (f : A -> bool) (l : list A) :
  Forall (fun a => f a = true) (List.filter f l).
Proof.
  induction l as [|a l IH]; cbn; [constructor|].
  destruct (f a) eqn:E; [constructor|]; assumption.
Qed.

Lemma bfilter_Forall {A : Type} (P : A -> Prop) (f : A -> bool) (l : list A) :
  Forall P l -> Forall P (List.filter f l).
Proof.
  induction 1 as [|a l Ha _ IH]; cbn; [constructor|].
  destruct (f a); [constructor|]; assumption.
Qed.

Lemma bfilter_all {A : Type} (f : A -> bool) (l : list A) :
  length (List.filter f l) = length l <-> Forall (fun a => f a = true) l.
Proof.
  split.
  - induction l as [|a l IH]; cbn; [constructor|].
    pose proof (bfilter_length f l).
    destruct (f a) eqn:E; cbn; intros Hlen; [|lia].
    constructor; [exact E | apply IH; lia].
  - induction 1 as [|a l Ha _ IH]; cbn; [reflexivity|].
    rewrite Ha. cbn. now rewrite IH.
Qed.

Section AppFacts.

Variable fileName : File -> string.
Variable createObjectURL : File -> string.
Variable undefined : ImageFile.

Local Abbreviation upload := (App.handleImagesUpload fileName createObjectURL).

(** The images a batch of valid files becomes. *)
Local Abbreviation imported now validFiles :=
  (imap (fun index file =>
           {| id := now index + Z.of_nat index;
              file := file;
              url := createObjectURL file;
              name := fileName file;
              size := fileSize file |})
        validFiles).

Lemma handleImagesUpload_images now files st :
  App.images (upload now files st)
  = if (500 <? length (App.images st) + length files)%nat
    then App.images st
    else App.images st ++ imported now (List.filter isValidFile files).
Proof.
  unfold App.handleImagesUpload.
  cbn [App.images App.setError App.setSuccess].
  destruct (500 <? length (App.images st) + length files)%nat;
    [reflexivity|].
  destruct (negb _), (0 <? length _)%nat; reflexivity.
Qed.

Lemma imported_file now validFiles :
  file <$> imported now validFiles = validFiles.
Proof.
  apply list_eq. intros i.
  rewrite list_lookup_fmap, list_lookup_imap.
  destruct (validFiles !! i); reflexivity.
Qed.

Lemma imported_valid now files :
  Forall (fun image => isValidFile (file image) = true)
    (imported now (List.filter isValidFile files)).
Proof.
  apply Forall_lookup. intros i image Hi.
  rewrite list_lookup_imap in Hi.
  destruct (List.filter isValidFile files !! i) as [f|] eqn:E;
    [|discriminate].
  cbn in Hi. injection Hi as <-. cbn.
  exact (Forall_lookup_1 _ _ _ _ (bfilter_true isValidFile files) E).
Qed.

Lemma foldl_setConversionProgress (l : list Q) (st : App.State) :
  foldl (fun st progress => App.setConversionProgress progress st) st l
  = match last l with
    | Some progress => App.setConversionProgress progress st
    | None => st
    end.
Proof.
  revert st. induction l as [|p l IH]; intros st; [reflexivity|].
  cbn [foldl]. rewrite IH.
  destruct l as [|p' l]; [reflexivity|].
  rewrite last_cons_cons.
  destruct (last (p' :: l)) eqn:E; [reflexivity|].
  apply last_None in E. discriminate.
Qed.

Lemma foldl_revokeObjectURL (l : list ImageFile) (st : App.State) :
  let st' :=
    foldl (fun st image => App.revokeObjectURL (url image) st) st l in
  App.images st' = App.images st /\
  App.revoked st' = App.revoked st ++ (url <$> l).
Proof.
  revert st. induction l as [|image l IH]; intros st; cbn.
  - split; [reflexivity | now rewrite app_nil_r].
  - destruct (IH (App.revokeObjectURL (url image) st)) as [H1 H2].
    cbn in H1, H2. split; [exact H1|].
    rewrite H2, <- app_assoc. reflexivity.
Qed.

Lemma handleImageReorder_Permutation {A : Type} (undef : A)
    (prev : list A) (dragIndex hoverIndex : nat) :
  (dragIndex < length prev)%nat ->
  handleImageReorder undef dragIndex hoverIndex prev ≡ₚ prev.
Proof.
  intros Hd.
  destruct (lookup_lt_is_Some_2 prev dragIndex Hd) as [item Hitem].
  unfold handleImageReorder, splice_remove.
  rewrite (nth_lookup_Some _ _ _ _ Hitem), splice_insert_Permutation.
  symmetry. now apply delete_Permutation.
Qed.

Lemma bfilter_bfilter {A : Type} (f g : A -> bool) (l : list A) :
  (forall a, f a = true -> g a = true) ->
  List.filter f (List.filter g l) = List.filter f l.
Proof.
  intros Hfg. induction l as [|a l IH]; [reflexivity|]. cbn.
  destruct (g a) eqn:Eg; cbn.
  - destruct (f a); now rewrite IH.
  - destruct (f a) eqn:Ef; [|exact IH].
    rewrite (Hfg a Ef) in Eg. discriminate.
Qed.

Lemma bfilter_take_1 {A : Type} (f : A -> bool) (l : list A) :
  take 1 (List.filter f l)
  = match List.find f l with Some a => [a] | None => [] end.
Proof.
  induction l as [|a l IH]; cbn; [reflexivity|].
  destruct (f a); [reflexivity | exact IH].
Qed.

Lemma bfilter_sublist {A : Type} (f : A -> bool) (l : list A) :
  List.filter f l `sublist_of` l.
Proof.
  induction l as [|a l IH]; cbn; [constructor|].
  destruct (f a); now constructor.
Qed.

Lemma bfilter_split_length {A : Type} (f : A -> bool) (l : list A) :
  (length (List.filter f l) + length (List.filter (fun a => negb (f a)) l)
   = length l)%nat.
Proof.
  induction l as [|a l IH]; cbn; [reflexivity|].
  destruct (f a); cbn; lia.
Qed.

(** X14.  The import invariant.  From a state with at most 500 images,
    each from a file that passes the import filter, every handler that
    changes the list leads to such a state: upload (by the picker or by
    a drop), removal, reordering with indices in range, and clearing. *)
Theorem App_wellFormed_preserved (st : App.State) :
  App.wellFormed st ->
  (forall now files, App.wellFormed (upload now files st)) /\
  (forall now files,
     App.wellFormed
       (App.handleFileChange fileName createObjectURL now files st)) /\
  (forall now files,
     App.wellFormed (App.handleDrop fileName createObjectURL now files st)) /\
  (forall idToRemove, App.wellFormed (App.handleImageRemove idToRemove st)) /\
  (forall dragIndex hoverIndex,
     (dragIndex < length (App.images st))%nat ->
     App.wellFormed
       (App.handleImageReorder undefined dragIndex hoverIndex st)) /\
  App.wellFormed (App.handleClearAll st).
Proof.
  intros [Hlen Hvalid].
  assert (Hupload : forall now files, App.wellFormed (upload now files st)).
  { intros now files. unfold App.wellFormed.
    rewrite handleImagesUpload_images.
    destruct (Nat.ltb_spec 500 (length (App.images st) + length files));
      [split; assumption|].
    split.
    - rewrite length_app, length_imap.
      pose proof (bfilter_length isValidFile files). lia.
    - apply Forall_app. split; [exact Hvalid | apply imported_valid]. }
  split; [exact Hupload|].
  split.
  { intros now files. unfold App.handleFileChange.
    destruct (0 <? length files)%nat; [apply Hupload | split; assumption]. }
  split.
  { intros now files. unfold App.handleDrop.
    destruct (0 <? length _)%nat; [|split; assumption].
    unfold App.wellFormed. rewrite handleImagesUpload_images.
    set (imageFiles := List.filter _ files).
    destruct (Nat.ltb_spec 500 (length (App.images st) + length imageFiles));
      [split; assumption|].
    split.
    - rewrite length_app, length_imap.
      pose proof (bfilter_length isValidFile imageFiles). lia.
    - apply Forall_app. split; [exact Hvalid | apply imported_valid]. }
  split.
  { intros idToRemove. unfold App.handleImageRemove, App.wellFormed.
    destruct (List.find _ _); cbn [App.images App.setImages];
      (split; [|apply bfilter_Forall; exact Hvalid]);
      match goal with
      | |- (length (List.filter ?f ?l) <= _)%nat =>
          pose proof (bfilter_length f l)
      end; cbn [App.images App.revokeObjectURL] in *; lia. }
  split.
  { intros dragIndex hoverIndex Hd.
    unfold App.handleImageReorder, App.wellFormed.
    cbn [App.images App.setImages].
    pose proof (handleImageReorder_Permutation undefined (App.images st)
                  dragIndex hoverIndex Hd) as Hperm.
    split.
    - rewrite (Permutation_length Hperm). exact Hlen.
    - rewrite Hperm. exact Hvalid. }
  unfold App.handleClearAll, App.wellFormed. cbn. split; [lia | constructor].
Qed.

(** X15.  Upload.  When the images held and the files offered, valid
    or not, number more than 500, no image is added and an error is
    shown.  Otherwise the images held stay in place and the files that
    pass the filter follow them in their order, each with the name, size
    and URL of its file; an error is shown exactly when a file was
    skipped and a success message exactly when a file was added. *)
Theorem handleImagesUpload_outcome
    (now : nat -> Z) (files : list File) (st : App.State) :
  let st' := upload now files st in
  let validFiles := List.filter isValidFile files in
  if (500 <? length (App.images st) + length files)%nat then
    App.images st' = App.images st /\
    is_Some (App.error st') /\ App.success st' = None
  else
    (exists added,
       App.images st' = App.images st ++ added /\
       file <$> added = validFiles /\
       Forall (fun image =>
                 name image = fileName (file image) /\
                 size image = fileSize (file image) /\
                 url image = createObjectURL (file image)) added) /\
    (App.error st' = None <-> Forall (fun f => isValidFile f = true) files) /\
    (App.success st' = None <-> validFiles = []).
Proof.
  cbv zeta. pose proof (handleImagesUpload_images now files st) as Himages.
  unfold App.handleImagesUpload in *.
  cbn [App.images App.setError App.setSuccess] in *.
  destruct (500 <? length (App.images st) + length files)%nat.
  { split; [exact Himages|]. cbn. split; [eexists|]; reflexivity. }
  split.
  { exists (imported now (List.filter isValidFile files)).
    split; [exact Himages|]. split; [apply imported_file|].
    apply Forall_lookup. intros i image Hi.
    rewrite list_lookup_imap in Hi.
    destruct (List.filter isValidFile files !! i); [|discriminate].
    cbn in Hi. injection Hi as <-. repeat split. }
  split.
  - rewrite <- bfilter_all.
    destruct (Nat.eqb_spec (length (List.filter isValidFile files))
                (length files)) as [E | E];
      cbn [negb]; destruct (0 <? length _)%nat; cbn;
      split; intros H; congruence.
  - destruct (List.filter isValidFile files) as [|f l];
      destruct (negb _); cbn; split; intros H; congruence.
Qed.

(** X16.  Ids.  If the clock does not run backwards during the upload,
    the ids held are all different and all below its first reading, then
    the ids after the upload are all different. *)
Theorem handleImagesUpload_ids_distinct
    (now : nat -> Z) (files : list File) (st : App.State) :
  (forall i j, (i <= j)%nat -> (now i <= now j)%Z) ->
  Forall (fun image => (id image < now 0%nat)%Z) (App.images st) ->
  NoDup (id <$> App.images st) ->
  NoDup (id <$> App.images (upload now files st)).
Proof.
  intros Hclock Hold Hnodup. rewrite handleImagesUpload_images.
  destruct (_ <? _)%nat; [exact Hnodup|].
  set (validFiles := List.filter isValidFile files).
  assert (Hids : forall i x,
             (id <$> imported now validFiles) !! i = Some x ->
             x = (now i + Z.of_nat i)%Z).
  { intros i x Hi. rewrite list_lookup_fmap, list_lookup_imap in Hi.
    destruct (validFiles !! i); [|discriminate].
    cbn in Hi. congruence. }
  rewrite fmap_app. apply NoDup_app. split; [exact Hnodup|]. split.
  - intros x Hx Hnew.
    apply list_elem_of_fmap in Hx as (image & -> & Himage).
    apply list_elem_of_lookup in Hnew as [i Hi].
    apply Hids in Hi.
    pose proof (proj1 (Forall_forall _ _) Hold image Himage) as Hlt.
    cbn in Hlt. pose proof (Hclock 0%nat i). lia.
  - apply NoDup_alt. intros i j x Hi Hj.
    apply Hids in Hi, Hj.
    destruct (Nat.lt_total i j) as [Hlt | [Heq | Hlt]]; [|exact Heq|].
    + pose proof (Hclock i j). lia.
    + pose proof (Hclock j i). lia.
Qed.

(** X17.  Removal.  Exactly the images with the given id leave the list
    and the others keep their order; the URL of the first of them is
    revoked and no other.  When the ids are all different at most one
    image leaves, so every image that leaves has its URL revoked. *)
Theorem handleImageRemove_outcome (idToRemove : Z) (st : App.State) :
  let st' := App.handleImageRemove idToRemove st in
  let removed :=
    List.filter (fun image => (id image =? idToRemove)%Z) (App.images st) in
  (forall image,
     image ∈ App.images st' <->
     image ∈ App.images st /\ id image <> idToRemove) /\
  App.images st' `sublist_of` App.images st /\
  (length (App.images st') + length removed = length (App.images st))%nat /\
  App.revoked st' = App.revoked st ++ (url <$> take 1 removed) /\
  (NoDup (id <$> App.images st) -> (length removed <= 1)%nat).
Proof.
  cbv zeta.
  assert (Himages : App.images (App.handleImageRemove idToRemove st)
                    = List.filter (fun img => negb (id img =? idToRemove)%Z)
                        (App.images st)).
  { unfold App.handleImageRemove. destruct (List.find _ _); reflexivity. }
  rewrite Himages.
  split; [|split; [|split; [|split]]].
  - intros image. rewrite !list_elem_of_In, filter_In.
    rewrite negb_true_iff, Z.eqb_neq. reflexivity.
  - apply bfilter_sublist.
  - pose proof (bfilter_split_length
                  (fun image => (id image =? idToRemove)%Z) (App.images st)).
    lia.
  - unfold App.handleImageRemove. rewrite bfilter_take_1.
    destruct (List.find _ _); cbn; [reflexivity | now rewrite app_nil_r].
  - clear Himages. induction (App.images st) as [|image l IH]; cbn; [lia|].
    rewrite NoDup_cons. intros [Hnotin Hnodup].
    destruct (Z.eqb_spec (id image) idToRemove) as [E | E];
      [|now apply IH].
    cbn. destruct (List.filter _ l) as [|other rest] eqn:Ef; [cbn; lia|].
    exfalso. apply Hnotin.
    assert (Hin : In other (List.filter
                              (fun image => (id image =? idToRemove)%Z) l))
      by (rewrite Ef; now left).
    apply filter_In in Hin as [Hin Hid]. apply Z.eqb_eq in Hid.
    apply list_elem_of_fmap. exists other.
    split; [congruence | now apply list_elem_of_In].
Qed.

(** X18.  The two ways in.  When the images held and the files offered
    number at most 500, dropping the files adds the images that picking
    them adds. *)
Theorem handleDrop_as_handleFileChange
    (now : nat -> Z) (files : list File) (st : App.State) :
  (length (App.images st) + length files <= 500)%nat ->
  App.images (App.handleDrop fileName createObjectURL now files st)
  = App.images (App.handleFileChange fileName createObjectURL now files st).
Proof.
  intros Hlimit. unfold App.handleDrop, App.handleFileChange.
  set (imageFiles :=
         List.filter (fun file => String.prefix "image/" (type file)) files).
  assert (Hvalid : List.filter isValidFile imageFiles
                   = List.filter isValidFile files).
  { apply bfilter_bfilter. intros f Hf. unfold isValidFile in Hf.
    now apply andb_true_iff in Hf as [Hf _]. }
  pose proof (bfilter_length
                (fun file => String.prefix "image/" (type file)) files)
    as Hle.
  fold imageFiles in Hle.
  assert (Hpick : App.images (upload now files st)
                  = App.images st
                    ++ imported now (List.filter isValidFile files)).
  { rewrite handleImagesUpload_images.
    destruct (Nat.ltb_spec 500 (length (App.images st) + length files));
      [lia | reflexivity]. }
  assert (Hdrop : App.images (upload now imageFiles st)
                  = App.images st
                    ++ imported now (List.filter isValidFile files)).
  { rewrite handleImagesUpload_images, Hvalid.
    destruct (Nat.ltb_spec 500
                (length (App.images st) + length imageFiles));
      [lia | reflexivity]. }
  destruct imageFiles as [|f0 rest] eqn:Ei; cbn [length Nat.ltb Nat.leb].
  - cbn in Hvalid.
    destruct files as [|g0 files']; [reflexivity|].
    cbn [length Nat.ltb Nat.leb]. rewrite Hpick, <- Hvalid. cbn.
    now rewrite app_nil_r.
  - destruct files as [|g0 files']; [discriminate Ei|].
    cbn [length Nat.ltb Nat.leb]. now rewrite Hpick, Hdrop.
Qed.

(** X19.  A drag.  After a drag that started on tile [i] and last
    entered tile [j], the end of the drag clears both refs and reorders
    exactly when [i] and [j] differ; with [i] in range the images are
    then the old ones in a new order.  Ending a drag that entered no
    tile, or that never started, changes nothing. *)
Theorem handleDragEnd_gesture
    (st : App.State) (i j : nat) (entered : list nat) :
  let refs :=
    foldl (fun refs index => ImagePreview.handleDragEnter index refs)
      (ImagePreview.handleDragStart i ImagePreview.initialRefs)
      (entered ++ [j]) in
  App.handleDragEnd undefined refs st
  = (ImagePreview.initialRefs,
     if (i =? j)%nat then st
     else App.handleImageReorder undefined i j st) /\
  ((i < length (App.images st))%nat ->
   App.images (snd (App.handleDragEnd undefined refs st))
   ≡ₚ App.images st) /\
  App.handleDragEnd undefined
    (ImagePreview.handleDragStart i ImagePreview.initialRefs) st
  = (ImagePreview.initialRefs, st) /\
  App.handleDragEnd undefined ImagePreview.initialRefs st
  = (ImagePreview.initialRefs, st).
Proof.
  cbv zeta.
  assert (Hrefs : foldl (fun refs index =>
                           ImagePreview.handleDragEnter index refs)
                    (ImagePreview.handleDragStart i ImagePreview.initialRefs)
                    (entered ++ [j])
                  = {| ImagePreview.dragItem := Some i;
                       ImagePreview.dragOverItem := Some j |}).
  { rewrite foldl_app. cbn [foldl].
    assert (Hitem : forall refs,
               ImagePreview.dragItem
                 (foldl (fun refs index =>
                           ImagePreview.handleDragEnter index refs)
                    refs entered)
               = ImagePreview.dragItem refs).
    { induction entered as [|k l IH]; intros refs; [reflexivity|].
      cbn [foldl]. now rewrite IH. }
    unfold ImagePreview.handleDragEnter at 1.
    rewrite Hitem. reflexivity. }
  rewrite Hrefs.
  assert (Hend : App.handleDragEnd undefined
                   {| ImagePreview.dragItem := Some i;
                      ImagePreview.dragOverItem := Some j |} st
                 = (ImagePreview.initialRefs,
                    if (i =? j)%nat then st
                    else App.handleImageReorder undefined i j st)).
  { unfold App.handleDragEnd, ImagePreview.handleDragEnd. cbn.
    destruct (i =? j)%nat; reflexivity. }
  rewrite Hend.
  split; [reflexivity|]. split; [|split; reflexivity].
  intros Hi. cbn [snd]. destruct (i =? j)%nat; [reflexivity|].
  unfold App.handleImageReorder. cbn [App.images App.setImages].
  now apply handleImageReorder_Permutation.
Qed.

Lemma omap_length_le {A B : Type} (f : A -> option B) (l : list A) :
  (length (omap f l) <= length l)%nat.
Proof.
  induction l as [|a l IH]; [cbn; lia|].
  cbn [omap list_omap length]. destruct (f a); cbn; lia.
Qed.

Lemma omap_length_lt {A B : Type} (f : A -> option B) (l : list A) :
  Exists (fun a => f a = None) l -> (length (omap f l) < length l)%nat.
Proof.
  induction 1 as [a l Ha | a l _ IH]; cbn [omap list_omap length].
  - rewrite Ha. pose proof (omap_length_le f l). lia.
  - destruct (f a); cbn; lia.
Qed.

Context {Canvas PDFImage : Type}.
Variable fileToArrayBuffer : File -> option ArrayBuffer.
Variable imageToCanvas : File -> option Canvas.
Variable canvasToJpeg : Canvas -> Q -> option ArrayBuffer.
Variable embedPng : ArrayBuffer -> option PDFImage.
Variable embedJpg : ArrayBuffer -> option PDFImage.
Variable scale1 : PDFImage -> PageSize.
Variable save : list (list (@Drawing PDFImage)) -> option ArrayBuffer.
Variable blobURL : ArrayBuffer -> string.

Local Abbreviation convert :=
  (App.handleConvertToPDF fileToArrayBuffer imageToCanvas canvasToJpeg
     embedPng embedJpg scale1 save blobURL).
Local Abbreviation document images options :=
  (pdfDoc (generatePDF fileToArrayBuffer imageToCanvas canvasToJpeg embedPng
             embedJpg scale1 images options true)).
Local Abbreviation embeds image options :=
  (embedImage fileToArrayBuffer imageToCanvas canvasToJpeg embedPng embedJpg
     image options).

(** X20.  Conversion.  With no image, only an error is shown.  Otherwise
    the images stay as they are and, whether the run throws or not, the
    busy flag is off and the progress is 0 at the end.  If the run
    throws, an error is shown and nothing is saved.  If not, one file is
    saved, named as the options say or [images-converted.pdf] for the
    empty name, and the success message counts every image of the list,
    although the document holds only the images that embed, which are
    fewer when an image fails. *)
Theorem handleConvertToPDF_outcome
    (options : ConversionOptions) (st : App.State) :
  let st' := convert options st in
  let doc := document (App.images st) options in
  (App.images st = [] ->
   st' = App.setError (Some "Please upload at least one image"%string) st) /\
  (App.images st <> [] ->
   App.images st' = App.images st /\
   App.isConverting st' = false /\
   App.conversionProgress st' = 0 /\
   match save doc with
   | Some pdfBytes =>
       App.error st' = None /\
       App.success st'
       = Some ("PDF generated successfully! "
               ++ show (length (App.images st)) ++ " images converted.")%string /\
       App.downloads st'
       = App.downloads st
         ++ [{| App.downloadName :=
                  if String.eqb (filename options) ""
                  then "images-converted.pdf"%string
                  else filename options;
                App.downloadBytes := pdfBytes |}] /\
       App.revoked st' = App.revoked st ++ [blobURL pdfBytes]
   | None =>
       App.error st'
       = Some "Failed to generate PDF. Please try again."%string /\
       App.success st' = None /\
       App.downloads st' = App.downloads st /\
       App.revoked st' = App.revoked st
   end /\
   (length (concat doc) <= length (App.images st))%nat /\
   (Exists (fun image => embeds image options = None) (App.images st) ->
    (length (concat doc) < length (App.images st))%nat)).
Proof.
  cbv zeta. unfold App.handleConvertToPDF.
  split.
  { intros ->. reflexivity. }
  intros Hne.
  destruct (App.images st) as [|image0 rest] eqn:Eimages; [congruence|].
  cbn [length Nat.eqb].
  cbn [App.images App.setError App.setSuccess App.setConversionProgress
       App.setIsConverting].
  rewrite Eimages, foldl_setConversionProgress.
  set (run := generatePDF _ _ _ _ _ _ (image0 :: rest) options true).
  assert (Hdrawn : length (concat (pdfDoc run))
                   = length (omap (fun image => embeds image options)
                               (image0 :: rest))).
  { unfold run.
    rewrite <- (generatePDF_drawn fileToArrayBuffer imageToCanvas
                  canvasToJpeg embedPng embedJpg scale1 (image0 :: rest)
                  options true).
    now rewrite length_fmap. }
  assert (Hle : (length (concat (pdfDoc run)) <= length (image0 :: rest))%nat)
    by (rewrite Hdrawn; apply omap_length_le).
  assert (Hlt : Exists (fun image => embeds image options = None)
                  (image0 :: rest) ->
                (length (concat (pdfDoc run)) < length (image0 :: rest))%nat)
    by (intros Hfail; rewrite Hdrawn; now apply omap_length_lt).
  destruct (last (emitted run)); destruct (save (pdfDoc run)); cbn;
    rewrite ?Eimages; cbn [length];
    repeat split; first [ reflexivity | exact Hle | exact Hlt ].
Qed.

End AppFacts.

(** ** The component state on three-byte files *)

Lemma App_wellFormed_preserved_witness :
  App.wellFormed Toy.twoImages /\
  App.wellFormed
    (App.handleImagesUpload Toy.fileName Toy.createObjectURL Toy.clock
       [file Toy.validD; Toy.notes] Toy.twoImages) /\
  App.wellFormed (App.handleImageRemove 1 Toy.twoImages) /\
  App.wellFormed (App.handleImageReorder Toy.undefined 1 0 Toy.twoImages) /\
  App.wellFormed (App.handleClearAll Toy.twoImages).
Proof.
  assert (Hwf : App.wellFormed Toy.twoImages)
    by (split; [cbn; lia | repeat constructor]).
  destruct (App_wellFormed_preserved Toy.fileName Toy.createObjectURL
              Toy.undefined Toy.twoImages Hwf)
    as (Hupload & _ & _ & Hremove & Hreorder & Hclear).
  split; [exact Hwf|].
  split; [apply Hupload|].
  split; [apply Hremove|].
  split; [apply Hreorder; cbn; lia | exact Hclear].
Defined.

Lemma handleImagesUpload_ids_distinct_witness :
  NoDup (id <$> App.images
                  (App.handleImagesUpload Toy.fileName Toy.createObjectURL
                     Toy.clock [file Toy.validD; Toy.notes; file Toy.validA]
                     Toy.twoImages)).
Proof.
  apply (handleImagesUpload_ids_distinct Toy.fileName Toy.createObjectURL
           Toy.clock [file Toy.validD; Toy.notes; file Toy.validA]
           Toy.twoImages).
  - intros i j _. reflexivity.
  - repeat constructor.
  - cbn. apply NoDup_cons. split; [|apply NoDup_singleton].
    intros H. apply list_elem_of_singleton in H. discriminate.
Defined.

Lemma handleDrop_as_handleFileChange_witness :
  App.images (App.handleDrop Toy.fileName Toy.createObjectURL Toy.clock
                [file Toy.validD; Toy.notes] Toy.twoImages)
  = App.images (App.handleFileChange Toy.fileName Toy.createObjectURL
                  Toy.clock [file Toy.validD; Toy.notes] Toy.twoImages).
Proof.
  apply (handleDrop_as_handleFileChange Toy.fileName Toy.createObjectURL
           Toy.clock [file Toy.validD; Toy.notes] Toy.twoImages).
  cbn. lia.
Defined.

Lemma handleConvertToPDF_outcome_witness :
  let st' :=
    App.handleConvertToPDF Toy.fileToArrayBuffer Toy.imageToCanvas
      Toy.canvasToJpeg Toy.embedPng Toy.embedJpg Toy.intrinsic Toy.save
      Toy.blobURL (Toy.options 1)
      (App.setImages [Toy.validA; Toy.corruptB] App.initialState) in
  App.images st' = [Toy.validA; Toy.corruptB] /\
  App.isConverting st' = false /\
  App.conversionProgress st' = 0 /\
  App.success st'
  = Some "PDF generated successfully! 2 images converted."%string /\
  (length (concat (pdfDoc (Toy.generate [Toy.validA; Toy.corruptB]
                             (Toy.options 1) true))) < 2)%nat.
Proof.
  cbv zeta.
  destruct (handleConvertToPDF_outcome Toy.fileToArrayBuffer
              Toy.imageToCanvas Toy.canvasToJpeg Toy.embedPng Toy.embedJpg
              Toy.intrinsic Toy.save Toy.blobURL (Toy.options 1)
              (App.setImages [Toy.validA; Toy.corruptB] App.initialState))
    as [_ H].
  destruct H as (H1 & H2 & H3 & H4 & _ & H6); [discriminate|].
  split; [exact H1|]. split; [exact H2|]. split; [exact H3|].
  split; [exact (proj1 (proj2 H4))|].
  apply H6. right. left. reflexivity.
Defined.

Lemma handleImageRemove_outcome_witness :
  let st' := App.handleImageRemove 1 Toy.twoImages in
  App.images st' `sublist_of` [Toy.validA; Toy.validC] /\
  (length (App.images st') + 1 = 2)%nat /\
  App.revoked st' = [url Toy.validA] /\
  (length (List.filter (fun image => (id image =? 1)%Z)
             [Toy.validA; Toy.validC]) <= 1)%nat.
Proof.
  destruct (handleImageRemove_outcome 1 Toy.twoImages)
    as (_ & Hsub & Hlen & Hrevoked & Hone).
  split; [exact Hsub|]. split; [exact Hlen|]. split; [exact Hrevoked|].
  apply Hone. cbn. apply NoDup_cons. split; [|apply NoDup_singleton].
  intros H. apply list_elem_of_singleton in H. discriminate.
Defined.

Lemma handleDragEnd_gesture_witness :
  let refs :=
    foldl (fun refs index => ImagePreview.handleDragEnter index refs)
      (ImagePreview.handleDragStart 1 ImagePreview.initialRefs)
      ([1; 1] ++ [0])%nat in
  App.handleDragEnd Toy.undefined refs Toy.twoImages
  = (ImagePreview.initialRefs,
     App.handleImageReorder Toy.undefined 1 0 Toy.twoImages) /\
  App.images (snd (App.handleDragEnd Toy.undefined refs Toy.twoImages))
  ≡ₚ [Toy.validA; Toy.validC].
Proof.
  destruct (handleDragEnd_gesture Toy.undefined Toy.twoImages 1 0 [1; 1]%nat)
    as (Hend & Hperm & _).
  split; [exact Hend|]. apply Hperm. cbn. lia.
Defined.
